(** * Contacts manager: a shallow embedding of [src/main.rs]

    The program is a small CLI over a JSON file.  This development embeds
    - [Contact::new] (validation, trimming),
    - [Store::remove] and [Store::find] (in-memory collection),
    - [Store::open] and [Store::save] (the persistence protocol), over a
      model of the file system with a fault oracle for every system call,
    - the parts of [serde_json] that [save] and [open] run on
      [Vec<Contact>]: the pretty serializer and the streaming deserializer,
    - the UTF-8 layer of [read_to_string] and of the serializer's output.

    Rust strings are sequences of Unicode scalar values (Z); file contents
    are sequences of bytes (Z in 0..255). *)

From Stdlib Require Import ZArith Lia.
From stdpp Require Import base list gmap sets strings pretty.

Local Open Scope Z_scope.

(** ** Results *)

Inductive result (E A : Type) : Type :=
| Ok (a : A)
| Err (e : E).
Arguments Ok {E A} a.
Arguments Err {E A} e.

Definition bind_r {E A B : Type} (m : result E A) (k : A -> result E B)
  : result E B :=
  match m with Ok a => k a | Err e => Err e end.

Notation "'let?' x ':=' m 'in' k" := (bind_r m (fun x => k))
  (at level 200, x pattern, m at level 100, right associativity).

(** ** Unicode scalar values and Rust strings *)

Definition valid_scalar (c : Z) : Prop :=
  0 <= c <= 0x10FFFF /\ ~ (0xD800 <= c <= 0xDFFF).

Definition valid_scalar_b (c : Z) : bool :=
  (0 <=? c) && (c <=? 0x10FFFF) && negb ((0xD800 <=? c) && (c <=? 0xDFFF)).

(** A Rust [String] / [&str]: its characters. *)
Abbreviation rstring := (list Z).

Definition valid_rstring (s : rstring) : Prop := Forall valid_scalar s.

(** ASCII text as a Rust string (for keys and literals). *)
Definition zs (s : string) : rstring :=
  map (fun a => Z.of_N (Ascii.N_of_ascii a)) (String.list_ascii_of_string s).

(** Character codes used by the JSON layer. *)
Definition QUOTE : Z := 34.
Definition BSLASH : Z := 92.
Definition SLASH : Z := 47.
Definition COMMA : Z := 44.
Definition COLON : Z := 58.
Definition LBRACK : Z := 91.
Definition RBRACK : Z := 93.
Definition LBRACE : Z := 123.
Definition RBRACE : Z := 125.
Definition SPACE : Z := 32.
Definition NL : Z := 10.
Definition TAB : Z := 9.
Definition CR : Z := 13.

(** ** UTF-8 (char::encode_utf8 and str::from_utf8) *)

Definition is_cont (b : Z) : bool := (0x80 <=? b) && (b <=? 0xBF).

Definition encode_utf8_char (c : Z) : list Z :=
  if c <? 0x80 then [c]
  else if c <? 0x800 then [0xC0 + c / 64; 0x80 + c mod 64]
  else if c <? 0x10000 then
    [0xE0 + c / 4096; 0x80 + (c / 64) mod 64; 0x80 + c mod 64]
  else
    [0xF0 + c / 262144; 0x80 + (c / 4096) mod 64;
     0x80 + (c / 64) mod 64; 0x80 + c mod 64].

(** [String::into_bytes]: the UTF-8 encoding of a string. *)
Definition to_utf8 (s : rstring) : list Z := flat_map encode_utf8_char s.

(** [str::from_utf8] (as used by [read_to_string]): validation following
    the well-formed byte sequences of the Unicode standard (no overlong
    forms, no surrogates, nothing above U+10FFFF), then decoding. *)
Fixpoint from_utf8 (bs : list Z) : option rstring :=
  match bs with
  | [] => Some []
  | b1 :: rest =>
    if (0 <=? b1) && (b1 <? 0x80) then
      match from_utf8 rest with Some s => Some (b1 :: s) | None => None end
    else if (0xC2 <=? b1) && (b1 <=? 0xDF) then
      match rest with
      | b2 :: rest2 =>
        if is_cont b2 then
          match from_utf8 rest2 with
          | Some s => Some ((b1 - 0xC0) * 64 + (b2 - 0x80) :: s)
          | None => None
          end
        else None
      | [] => None
      end
    else if (0xE0 <=? b1) && (b1 <=? 0xEF) then
      match rest with
      | b2 :: b3 :: rest3 =>
        let lo := if b1 =? 0xE0 then 0xA0 else 0x80 in
        let hi := if b1 =? 0xED then 0x9F else 0xBF in
        if (lo <=? b2) && (b2 <=? hi) && is_cont b3 then
          match from_utf8 rest3 with
          | Some s =>
            Some ((b1 - 0xE0) * 4096 + (b2 - 0x80) * 64 + (b3 - 0x80) :: s)
          | None => None
          end
        else None
      | _ => None
      end
    else if (0xF0 <=? b1) && (b1 <=? 0xF4) then
      match rest with
      | b2 :: b3 :: b4 :: rest4 =>
        let lo := if b1 =? 0xF0 then 0x90 else 0x80 in
        let hi := if b1 =? 0xF4 then 0x8F else 0xBF in
        if (lo <=? b2) && (b2 <=? hi) && is_cont b3 && is_cont b4 then
          match from_utf8 rest4 with
          | Some s =>
            Some ((b1 - 0xF0) * 262144 + (b2 - 0x80) * 4096
                  + (b3 - 0x80) * 64 + (b4 - 0x80) :: s)
          | None => None
          end
        else None
      | _ => None
      end
    else None
  end.

(** [str::len]: the length in bytes of the UTF-8 encoding. *)
Definition str_len (s : rstring) : Z := Z.of_nat (length (to_utf8 s)).

(** ** The data model: [struct Contact] *)

Record Contact := mkContact {
  id : rstring;
  name : rstring;
  email : rstring;
  phone : option rstring
}.

Definition valid_contact (c : Contact) : Prop :=
  valid_rstring (id c) /\ valid_rstring (name c) /\ valid_rstring (email c) /\
  match phone c with Some p => valid_rstring p | None => True end.

(** ** serde_json serialization ([to_vec_pretty], and [to_vec]) *)

(** Values a field of [Contact] serializes to. *)
Inductive jval :=
| JStr (s : rstring)
| JNull.

Definition HEX_DIGITS (n : Z) : Z :=
  if n <? 10 then 48 + n else 87 + n.  (* "0123456789abcdef" *)

(** [format_escaped_str_contents]: the ESCAPE table of serde_json. *)
Definition escape_char (c : Z) : list Z :=
  if c =? QUOTE then [BSLASH; QUOTE]
  else if c =? BSLASH then [BSLASH; BSLASH]
  else if c =? 8 then [BSLASH; 98]          (* \b *)
  else if c =? 12 then [BSLASH; 102]        (* \f *)
  else if c =? NL then [BSLASH; 110]        (* \n *)
  else if c =? CR then [BSLASH; 114]        (* \r *)
  else if c =? TAB then [BSLASH; 116]       (* \t *)
  else if c <? 32 then
    [BSLASH; 117; 48; 48; HEX_DIGITS (c / 16); HEX_DIGITS (c mod 16)]
  else [c].

Definition ser_str (s : rstring) : list Z :=
  [QUOTE] ++ flat_map escape_char s ++ [QUOTE].

Definition ser_val (v : jval) : list Z :=
  match v with JStr s => ser_str s | JNull => zs "null" end.

(** The derived [Serialize] of [Contact]: [serialize_struct] with its four
    fields in declaration order, [None] as [null]. *)
Definition contact_fields (c : Contact) : list (rstring * jval) :=
  [(zs "id", JStr (id c)); (zs "name", JStr (name c));
   (zs "email", JStr (email c));
   (zs "phone", match phone c with Some p => JStr p | None => JNull end)].

(** [CompactFormatter] or [PrettyFormatter] (indent of two spaces). *)
Inductive style := Compact | Pretty.

Definition indent (st : style) (lvl : nat) : list Z :=
  match st with Compact => [] | Pretty => repeat SPACE (2 * lvl)%nat end.

(** [begin_object_key] / [begin_array_value]. *)
Definition begin_value (st : style) (lvl : nat) (first : bool) : list Z :=
  match st with
  | Compact => if first then [] else [COMMA]
  | Pretty => (if first then [NL] else [COMMA; NL]) ++ indent st lvl
  end.

(** [begin_object_value]. *)
Definition key_sep (st : style) : list Z :=
  match st with Compact => [COLON] | Pretty => [COLON; SPACE] end.

(** [end_object] / [end_array] after at least one value. *)
Definition end_nonempty (st : style) (lvl : nat) : list Z :=
  match st with Compact => [] | Pretty => [NL] ++ indent st lvl end.

Fixpoint write_fields (st : style) (lvl : nat) (first : bool)
    (fs : list (rstring * jval)) : list Z :=
  match fs with
  | [] => []
  | (k, v) :: fs' =>
    begin_value st lvl first ++ ser_str k ++ key_sep st ++ ser_val v
    ++ write_fields st lvl false fs'
  end.

(** An object whose own indentation level is [lvl]. *)
Definition write_object (st : style) (lvl : nat) (fs : list (rstring * jval))
  : list Z :=
  match fs with
  | [] => [LBRACE; RBRACE]
  | _ => [LBRACE] ++ write_fields st (S lvl) true fs
         ++ end_nonempty st lvl ++ [RBRACE]
  end.

Fixpoint write_elems (st : style) (first : bool)
    (objs : list (list (rstring * jval))) : list Z :=
  match objs with
  | [] => []
  | o :: objs' =>
    begin_value st 1 first ++ write_object st 1 o ++ write_elems st false objs'
  end.

(** A top-level array of objects. *)
Definition write_array (st : style) (objs : list (list (rstring * jval)))
  : list Z :=
  match objs with
  | [] => [LBRACK; RBRACK]
  | _ => [LBRACK] ++ write_elems st true objs ++ end_nonempty st 0 ++ [RBRACK]
  end.

(** [serde_json::to_vec_pretty(&self.contacts)].  Serializing a
    [Vec<Contact>] cannot fail (all fields are strings), so the [Err]
    branch of the source is unreachable and not modelled. *)
Definition to_vec_pretty (cs : list Contact) : list Z :=
  to_utf8 (write_array Pretty (map contact_fields cs)).

(** ** serde_json deserialization of [Vec<Contact>] ([from_str])

    The streaming deserializer of serde_json over a [&str], specialised to
    the type [Vec<Contact>] with the derived [Deserialize] of [Contact]:
    a struct is read from a JSON object (any key order, unknown keys
    ignored, duplicate keys refused, a missing [phone] read as [None]) or
    from a JSON array of its four fields in order.  Loops carry a fuel
    argument, always initialised with more than the length of the input,
    each iteration consuming at least one character. *)

Inductive json_err :=
| EofWhileParsingList | EofWhileParsingObject | EofWhileParsingString
| EofWhileParsingValue | ExpectedColon | ExpectedListCommaOrEnd
| ExpectedObjectCommaOrEnd | ExpectedSomeIdent | ExpectedSomeValue
| InvalidEscape | InvalidNumber | ControlCharacterWhileParsingString
| KeyMustBeAString | LoneLeadingSurrogateInHexEscape | TrailingComma
| TrailingCharacters | UnexpectedEndOfHexEscape
| InvalidType | InvalidLength | MissingField (f : rstring)
| DuplicateField (f : rstring) | NumberOutOfRange | FuelExhausted.

Definition is_ws (c : Z) : bool :=
  (c =? SPACE) || (c =? NL) || (c =? TAB) || (c =? CR).

(** [parse_whitespace]: skip, and leave the next character in place. *)
Fixpoint parse_whitespace (s : list Z) : list Z :=
  match s with
  | c :: s' => if is_ws c then parse_whitespace s' else s
  | [] => []
  end.

Fixpoint parse_ident (ident : list Z) (s : list Z) : result json_err (list Z) :=
  match ident with
  | [] => Ok s
  | i :: is =>
    match s with
    | [] => Err EofWhileParsingValue
    | c :: s' => if c =? i then parse_ident is s' else Err ExpectedSomeIdent
    end
  end.

Definition hex_val (c : Z) : option Z :=
  if (48 <=? c) && (c <=? 57) then Some (c - 48)
  else if (97 <=? c) && (c <=? 102) then Some (c - 87)
  else if (65 <=? c) && (c <=? 70) then Some (c - 55)
  else None.

(** [decode_four_hex_digits]. *)
Definition hex4 (a b c d : Z) : option Z :=
  match hex_val a, hex_val b, hex_val c, hex_val d with
  | Some x, Some y, Some z, Some w =>
    Some (Z.lor (Z.lor (Z.shiftl x 12) (Z.shiftl y 8)) (Z.lor (Z.shiftl z 4) w))
  | _, _, _, _ => None
  end.

(** The one-character escapes of [parse_escape]. *)
Definition simple_escape (e : Z) : option Z :=
  if e =? QUOTE then Some QUOTE
  else if e =? BSLASH then Some BSLASH
  else if e =? SLASH then Some SLASH
  else if e =? 98 then Some 8
  else if e =? 102 then Some 12
  else if e =? 110 then Some NL
  else if e =? 114 then Some CR
  else if e =? 116 then Some TAB
  else None.

Definition cons_str (ch : Z) (r : result json_err (rstring * list Z))
  : result json_err (rstring * list Z) :=
  match r with Ok (s, rest) => Ok (ch :: s, rest) | Err e => Err e end.

(** [parse_str] with validation, after the opening quote: the string and
    the input after the closing quote. *)
Fixpoint parse_str_body (s : list Z) : result json_err (rstring * list Z) :=
  match s with
  | [] => Err EofWhileParsingString
  | c :: s1 =>
    if c =? QUOTE then Ok ([], s1)
    else if c =? BSLASH then
      match s1 with
      | [] => Err EofWhileParsingString
      | e :: s2 =>
        match simple_escape e with
        | Some ch => cons_str ch (parse_str_body s2)
        | None =>
          if e =? 117 then
            match s2 with
            | h1 :: h2 :: h3 :: h4 :: s3 =>
              match hex4 h1 h2 h3 h4 with
              | None => Err InvalidEscape
              | Some n =>
                if (0xDC00 <=? n) && (n <=? 0xDFFF) then
                  Err LoneLeadingSurrogateInHexEscape
                else if (0xD800 <=? n) && (n <=? 0xDBFF) then
                  match s3 with
                  | [] => Err EofWhileParsingString
                  | b :: s4 =>
                    if negb (b =? BSLASH) then Err UnexpectedEndOfHexEscape else
                    match s4 with
                    | [] => Err EofWhileParsingString
                    | u :: s5 =>
                      if negb (u =? 117) then Err UnexpectedEndOfHexEscape else
                      match s5 with
                      | g1 :: g2 :: g3 :: g4 :: s6 =>
                        match hex4 g1 g2 g3 g4 with
                        | None => Err InvalidEscape
                        | Some n2 =>
                          if (n2 <? 0xDC00) || (0xDFFF <? n2) then
                            Err LoneLeadingSurrogateInHexEscape
                          else
                            cons_str (Z.lor (Z.shiftl (n - 0xD800) 10)
                                            (n2 - 0xDC00) + 0x10000)
                                     (parse_str_body s6)
                        end
                      | _ => Err EofWhileParsingString
                      end
                    end
                  end
                else cons_str n (parse_str_body s3)
              end
            | _ => Err EofWhileParsingString
            end
          else Err InvalidEscape
        end
      end
    else if c <? 32 then Err ControlCharacterWhileParsingString
    else cons_str c (parse_str_body s1)
  end.

(** [ignore_str], after the opening quote: escapes are checked for shape
    only (lone surrogates are accepted here). *)
Fixpoint ignore_str (s : list Z) : result json_err (list Z) :=
  match s with
  | [] => Err EofWhileParsingString
  | c :: s1 =>
    if c =? QUOTE then Ok s1
    else if c =? BSLASH then
      match s1 with
      | [] => Err EofWhileParsingString
      | e :: s2 =>
        match simple_escape e with
        | Some _ => ignore_str s2
        | None =>
          if e =? 117 then
            match s2 with
            | h1 :: h2 :: h3 :: h4 :: s3 =>
              match hex4 h1 h2 h3 h4 with
              | Some _ => ignore_str s3
              | None => Err InvalidEscape
              end
            | _ => Err EofWhileParsingString
            end
          else Err InvalidEscape
        end
      end
    else if c <? 32 then Err ControlCharacterWhileParsingString
    else ignore_str s1
  end.

Definition is_digit (c : Z) : bool := (48 <=? c) && (c <=? 57).

Fixpoint skip_digits (s : list Z) : list Z :=
  match s with
  | c :: s' => if is_digit c then skip_digits s' else s
  | [] => []
  end.

(** [ignore_exponent], after the [e] or [E]. *)
Definition ignore_exponent (s : list Z) : result json_err (list Z) :=
  let s1 := match s with
            | c :: s' => if (c =? 43) || (c =? 45) then s' else s
            | [] => []
            end in
  match s1 with
  | c :: s2 => if is_digit c then Ok (skip_digits s2) else Err InvalidNumber
  | [] => Err InvalidNumber
  end.

(** [ignore_decimal], after the [.]. *)
Definition ignore_decimal (s : list Z) : result json_err (list Z) :=
  match s with
  | c :: _ =>
    if is_digit c then
      match skip_digits s with
      | e :: s2 => if (e =? 101) || (e =? 69) then ignore_exponent s2
                   else Ok (e :: s2)
      | [] => Ok []
      end
    else Err InvalidNumber
  | [] => Err InvalidNumber
  end.

(** [ignore_integer]. *)
Definition ignore_integer (s : list Z) : result json_err (list Z) :=
  let? s1 := match s with
             | c :: s' =>
               if c =? 48 then
                 match s' with
                 | d :: _ => if is_digit d then Err InvalidNumber else Ok s'
                 | [] => Ok s'
                 end
               else if (49 <=? c) && (c <=? 57) then Ok (skip_digits s')
               else Err InvalidNumber
             | [] => Err InvalidNumber
             end in
  match s1 with
  | d :: s2 =>
    if d =? 46 then ignore_decimal s2
    else if (d =? 101) || (d =? 69) then ignore_exponent s2
    else Ok s1
  | [] => Ok []
  end.

(** [ignore_value] (the value of an unknown key).  The source keeps an
    explicit stack of open brackets; this is the same traversal written
    recursively. *)
Fixpoint ignore_value (fuel : nat) (s : list Z) : result json_err (list Z) :=
  match fuel with
  | O => Err FuelExhausted
  | S f =>
    match parse_whitespace s with
    | [] => Err EofWhileParsingValue
    | c :: s1 =>
      if c =? 110 then parse_ident (zs "ull") s1
      else if c =? 116 then parse_ident (zs "rue") s1
      else if c =? 102 then parse_ident (zs "alse") s1
      else if c =? 45 then ignore_integer s1
      else if is_digit c then ignore_integer (c :: s1)
      else if c =? QUOTE then ignore_str s1
      else if c =? LBRACK then
        match parse_whitespace s1 with
        | d :: s2 => if d =? RBRACK then Ok s2 else ignore_array_rest f s1
        | [] => Err EofWhileParsingList
        end
      else if c =? LBRACE then
        match parse_whitespace s1 with
        | d :: s2 => if d =? RBRACE then Ok s2 else ignore_object_rest f s1
        | [] => Err EofWhileParsingObject
        end
      else Err ExpectedSomeValue
    end
  end
(** Array elements: a value, then [,] and more or the closing [\]]. *)
with ignore_array_rest (fuel : nat) (s : list Z) : result json_err (list Z) :=
  match fuel with
  | O => Err FuelExhausted
  | S f =>
    let? s1 := ignore_value f s in
    match parse_whitespace s1 with
    | d :: s2 =>
      if d =? COMMA then ignore_array_rest f s2
      else if d =? RBRACK then Ok s2
      else Err ExpectedListCommaOrEnd
    | [] => Err EofWhileParsingList
    end
  end
(** Object entries: a key, [:], a value, then [,] and more or [}]. *)
with ignore_object_rest (fuel : nat) (s : list Z) : result json_err (list Z) :=
  match fuel with
  | O => Err FuelExhausted
  | S f =>
    match parse_whitespace s with
    | [] => Err EofWhileParsingObject
    | k :: s1 =>
      if negb (k =? QUOTE) then Err KeyMustBeAString else
      let? s2 := ignore_str s1 in
      match parse_whitespace s2 with
      | [] => Err EofWhileParsingObject
      | col :: s3 =>
        if negb (col =? COLON) then Err ExpectedColon else
        let? s4 := ignore_value f s3 in
        match parse_whitespace s4 with
        | d :: s5 =>
          if d =? COMMA then ignore_object_rest f s5
          else if d =? RBRACE then Ok s5
          else Err ExpectedObjectCommaOrEnd
        | [] => Err EofWhileParsingObject
        end
      end
    end
  end.

(** *** Numbers, as parsed by [peek_invalid_type]

    Only the outcome matters here (the error, or where the number ends):
    the value itself is never used.  An [i32] exponent is kept in [Z]
    with the wrap-around of a release build written out; a [u64]
    significand never exceeds [u64::MAX] (the [overflow!] guard). *)

Definition U64_MAX : Z := 2 ^ 64 - 1.
Definition I32_MAX : Z := 2 ^ 31 - 1.
Definition I32_MIN : Z := - 2 ^ 31.

(** The [overflow!] macro: [a * 10 + b] exceeds [c]. *)
Definition overflow (a b c : Z) : bool :=
  (c / 10 <=? a) && ((c / 10 <? a) || (c mod 10 <? b)).

(** [i32] addition as a release build does it (wrapping). *)
Definition wrap_i32 (x : Z) : Z := (x + 2 ^ 31) mod 2 ^ 32 - 2 ^ 31.

(** [i32::saturating_add] / [saturating_sub], given the exact result. *)
Definition sat_i32 (x : Z) : Z := Z.max I32_MIN (Z.min I32_MAX x).

(** Rounding a non-negative integer to the nearest [f64] (ties to even),
    as [u64 as f64] and the decimal literals of the [POW10] table do; the
    exponent range is left unbounded, so a result of [2 ^ 1024] or more
    means infinity. *)
Definition round_f64 (x : Z) : Z :=
  if x <? 2 ^ 53 then x else
  let k := Z.log2 x - 52 in
  let q := Z.shiftr x k in
  let r := x - Z.shiftl q k in
  let half := 2 ^ (k - 1) in
  if (half <? r) || ((r =? half) && Z.odd q) then Z.shiftl (q + 1) k
  else Z.shiftl q k.

(** [f64_from_parts] (without the [float_roundtrip] feature): with [f] the
    significand as an [f64], an exponent in [0..=308] multiplies [f] by
    [POW10[exponent]] and fails if the product is infinite; a negative
    exponent only divides (its loop, by [1e308] while the exponent is
    below [-308], never fails); an exponent above [308] fails unless
    [f == 0.0].  [s] is the input after the number. *)
Definition f64_from_parts (significand exponent : Z) (s : list Z)
  : result json_err (list Z) :=
  if (0 <=? exponent) && (exponent <=? 308) then
    if 2 ^ 1024 <=? round_f64 (round_f64 significand * round_f64 (10 ^ exponent))
    then Err NumberOutOfRange else Ok s
  else if exponent <? 0 then Ok s
  else if significand =? 0 then Ok s
  else Err NumberOutOfRange.

(** [parse_exponent_overflow]. *)
Definition parse_exponent_overflow (zero_significand positive_exp : bool)
    (s : list Z) : result json_err (list Z) :=
  if negb zero_significand && positive_exp then Err NumberOutOfRange
  else Ok (skip_digits s).

(** The digit loop of [parse_exponent]. *)
Fixpoint parse_exponent_digits (significand : Z) (positive_exp : bool)
    (starting_exp exp : Z) (s : list Z) : result json_err (list Z) :=
  match s with
  | c :: s' =>
    if is_digit c then
      if overflow exp (c - 48) I32_MAX then
        parse_exponent_overflow (significand =? 0) positive_exp s'
      else parse_exponent_digits significand positive_exp starting_exp
             (exp * 10 + (c - 48)) s'
    else
      f64_from_parts significand
        (sat_i32 (if positive_exp then starting_exp + exp else starting_exp - exp)) s
  | [] =>
    f64_from_parts significand
      (sat_i32 (if positive_exp then starting_exp + exp else starting_exp - exp)) []
  end.

(** [parse_exponent], after the [e] or [E]. *)
Definition parse_exponent (significand starting_exp : Z) (s : list Z)
  : result json_err (list Z) :=
  let '(positive_exp, s1) :=
    match s with
    | c :: s' => if c =? 43 then (true, s') else if c =? 45 then (false, s')
                 else (true, s)
    | [] => (true, [])
    end in
  match s1 with
  | [] => Err EofWhileParsingValue
  | c :: s2 =>
    if is_digit c then parse_exponent_digits significand positive_exp starting_exp (c - 48) s2
    else Err InvalidNumber
  end.

(** The common tail of [parse_decimal], [parse_decimal_overflow] and
    [parse_long_integer]: an exponent, or the end of the number. *)
Definition exponent_or_parts (significand exponent : Z) (s : list Z)
  : result json_err (list Z) :=
  match s with
  | c :: s' =>
    if (c =? 101) || (c =? 69) then parse_exponent significand exponent s'
    else f64_from_parts significand exponent s
  | [] => f64_from_parts significand exponent []
  end.

(** [parse_decimal_overflow]: further digits are ignored. *)
Definition parse_decimal_overflow (significand exponent : Z) (s : list Z)
  : result json_err (list Z) :=
  exponent_or_parts significand exponent (skip_digits s).

(** The digit loop of [parse_decimal], then its end. *)
Fixpoint parse_decimal_digits (significand before after : Z) (s : list Z)
  : result json_err (list Z) :=
  let finish (s : list Z) :=
    if after =? 0 then
      match s with [] => Err EofWhileParsingValue | _ => Err InvalidNumber end
    else exponent_or_parts significand (wrap_i32 (before + after)) s in
  match s with
  | c :: s' =>
    if is_digit c then
      if overflow significand (c - 48) U64_MAX then
        parse_decimal_overflow significand (wrap_i32 (before + after)) s
      else parse_decimal_digits (significand * 10 + (c - 48)) before (after - 1) s'
    else finish s
  | [] => finish []
  end.

(** [parse_decimal], after the [.]. *)
Definition parse_decimal (significand before : Z) (s : list Z)
  : result json_err (list Z) :=
  parse_decimal_digits significand before 0 s.

(** [parse_long_integer]: the significand no longer fits in a [u64];
    each further digit raises the exponent. *)
Fixpoint parse_long_integer (significand exponent : Z) (s : list Z)
  : result json_err (list Z) :=
  match s with
  | c :: s' =>
    if is_digit c then parse_long_integer significand (wrap_i32 (exponent + 1)) s'
    else if c =? 46 then parse_decimal significand exponent s'
    else if (c =? 101) || (c =? 69) then parse_exponent significand exponent s'
    else f64_from_parts significand exponent s
  | [] => f64_from_parts significand exponent []
  end.

(** [parse_number]: after the integer part. *)
Definition parse_number (significand : Z) (s : list Z) : result json_err (list Z) :=
  match s with
  | c :: s' =>
    if c =? 46 then parse_decimal significand 0 s'
    else if (c =? 101) || (c =? 69) then parse_exponent significand 0 s'
    else Ok s
  | [] => Ok []
  end.

(** The significand loop of [parse_integer]. *)
Fixpoint parse_significand (significand : Z) (s : list Z) : result json_err (list Z) :=
  match s with
  | c :: s' =>
    if is_digit c then
      if overflow significand (c - 48) U64_MAX then parse_long_integer significand 0 s
      else parse_significand (significand * 10 + (c - 48)) s'
    else parse_number significand s
  | [] => parse_number significand []
  end.

(** [parse_integer] (which [parse_any_number] is, without the
    [arbitrary_precision] feature). *)
Definition parse_integer (s : list Z) : result json_err (list Z) :=
  match s with
  | [] => Err EofWhileParsingValue
  | c :: s' =>
    if c =? 48 then
      match s' with
      | d :: _ => if is_digit d then Err InvalidNumber else parse_number 0 s'
      | [] => parse_number 0 []
      end
    else if (49 <=? c) && (c <=? 57) then parse_significand (c - 48) s'
    else Err InvalidNumber
  end.

(** The error of a step, or [invalid_type] if the step succeeds. *)
Definition err_or_invalid {A : Type} (r : result json_err A) : json_err :=
  match r with Err e => e | Ok _ => InvalidType end.

(** [peek_invalid_type]: the error reported when the next value (at the
    head of [s], after whitespace) is not of the expected type. *)
Definition peek_invalid_type (s : list Z) : json_err :=
  match s with
  | [] => ExpectedSomeValue
  | c :: s1 =>
    if c =? 110 then err_or_invalid (parse_ident (zs "ull") s1)
    else if c =? 116 then err_or_invalid (parse_ident (zs "rue") s1)
    else if c =? 102 then err_or_invalid (parse_ident (zs "alse") s1)
    else if c =? 45 then err_or_invalid (parse_integer s1)
    else if is_digit c then err_or_invalid (parse_integer (c :: s1))
    else if c =? QUOTE then err_or_invalid (parse_str_body s1)
    else if (c =? LBRACK) || (c =? LBRACE) then InvalidType
    else ExpectedSomeValue
  end.

(** [deserialize_string] with the [String] visitor. *)
Definition deserialize_string (s : list Z) : result json_err (rstring * list Z) :=
  match parse_whitespace s with
  | [] => Err EofWhileParsingValue
  | c :: s1 => if c =? QUOTE then parse_str_body s1
               else Err (peek_invalid_type (c :: s1))
  end.

(** [deserialize_option] for [Option<String>]. *)
Definition deserialize_option_string (s : list Z)
  : result json_err (option rstring * list Z) :=
  match parse_whitespace s with
  | [] => Err EofWhileParsingValue
  | c :: s1 =>
    if c =? 110 then (let? r := parse_ident (zs "ull") s1 in Ok (None, r))
    else (let? (x, r) := deserialize_string s in Ok (Some x, r))
  end.

(** The derived field identifier of [Contact]. *)
Inductive field := F_id | F_name | F_email | F_phone | F_ignore.

Definition visit_field (k : rstring) : field :=
  if decide (k = zs "id") then F_id
  else if decide (k = zs "name") then F_name
  else if decide (k = zs "email") then F_email
  else if decide (k = zs "phone") then F_phone
  else F_ignore.

(** The locals [__field0..3] of the derived [visit_map]. *)
Record slots := mkSlots {
  sl_id : option rstring;
  sl_name : option rstring;
  sl_email : option rstring;
  sl_phone : option (option rstring)
}.

Definition no_slots : slots := mkSlots None None None None.

(** [parse_object_colon]. *)
Definition parse_object_colon (s : list Z) : result json_err (list Z) :=
  match parse_whitespace s with
  | [] => Err EofWhileParsingObject
  | c :: s1 => if c =? COLON then Ok s1 else Err ExpectedColon
  end.

(** One arm of the derived [visit_map] loop, after [next_key]: the
    duplicate check, then [next_value] ([parse_object_colon], then the
    value). *)
Definition visit_field_value (f : field) (acc : slots) (s : list Z)
  : result json_err (slots * list Z) :=
  match f with
  | F_id =>
    match sl_id acc with
    | Some _ => Err (DuplicateField (zs "id"))
    | None => let? s1 := parse_object_colon s in
              let? (v, r) := deserialize_string s1 in
              Ok (mkSlots (Some v) (sl_name acc) (sl_email acc) (sl_phone acc), r)
    end
  | F_name =>
    match sl_name acc with
    | Some _ => Err (DuplicateField (zs "name"))
    | None => let? s1 := parse_object_colon s in
              let? (v, r) := deserialize_string s1 in
              Ok (mkSlots (sl_id acc) (Some v) (sl_email acc) (sl_phone acc), r)
    end
  | F_email =>
    match sl_email acc with
    | Some _ => Err (DuplicateField (zs "email"))
    | None => let? s1 := parse_object_colon s in
              let? (v, r) := deserialize_string s1 in
              Ok (mkSlots (sl_id acc) (sl_name acc) (Some v) (sl_phone acc), r)
    end
  | F_phone =>
    match sl_phone acc with
    | Some _ => Err (DuplicateField (zs "phone"))
    | None => let? s1 := parse_object_colon s in
              let? (v, r) := deserialize_option_string s1 in
              Ok (mkSlots (sl_id acc) (sl_name acc) (sl_email acc) (Some v), r)
    end
  | F_ignore => let? s1 := parse_object_colon s in
                let? r := ignore_value (S (length s1)) s1 in Ok (acc, r)
  end.

(** The derived [visit_map] loop over [MapAccess::next_key_seed]; stops
    before the closing brace, which [end_map] consumes. *)
Fixpoint visit_map (fuel : nat) (first : bool) (acc : slots) (s : list Z)
  : result json_err (slots * list Z) :=
  match fuel with
  | O => Err FuelExhausted
  | S fuel' =>
    match parse_whitespace s with
    | [] => Err EofWhileParsingObject
    | c :: s1 =>
      if c =? RBRACE then Ok (acc, c :: s1)
      else
        let? s2 := (if (c =? COMMA) && negb first then Ok (parse_whitespace s1)
                    else if first then Ok (c :: s1)
                    else Err ExpectedObjectCommaOrEnd) in
        match s2 with
        | [] => Err EofWhileParsingValue
        | d :: s3 =>
          if d =? QUOTE then
            let? (k, s4) := parse_str_body s3 in
            let? (acc', s6) := visit_field_value (visit_field k) acc s4 in
            visit_map fuel' false acc' s6
          else if d =? RBRACE then Err TrailingComma
          else Err KeyMustBeAString
        end
    end
  end.

(** End of the derived [visit_map]: required fields, [phone] defaults to
    [None]. *)
Definition finish_map (acc : slots) : result json_err Contact :=
  match sl_id acc, sl_name acc, sl_email acc with
  | None, _, _ => Err (MissingField (zs "id"))
  | _, None, _ => Err (MissingField (zs "name"))
  | _, _, None => Err (MissingField (zs "email"))
  | Some i, Some n, Some e =>
    Ok (mkContact i n e match sl_phone acc with Some p => p | None => None end)
  end.

Definition end_map (s : list Z) : result json_err (list Z) :=
  match parse_whitespace s with
  | [] => Err EofWhileParsingObject
  | c :: s1 =>
    if c =? RBRACE then Ok s1
    else if c =? COMMA then Err TrailingComma
    else Err TrailingCharacters
  end.

(** [SeqAccess::has_next_element]; stops before a closing bracket. *)
Definition has_next_element (first : bool) (s : list Z)
  : result json_err (bool * list Z) :=
  match parse_whitespace s with
  | [] => Err EofWhileParsingList
  | c :: s1 =>
    if c =? RBRACK then Ok (false, c :: s1)
    else
      let? s2 := (if (c =? COMMA) && negb first then Ok (parse_whitespace s1)
                  else if first then Ok (c :: s1)
                  else Err ExpectedListCommaOrEnd) in
      match s2 with
      | [] => Err EofWhileParsingValue
      | d :: _ => if d =? RBRACK then Err TrailingComma else Ok (true, s2)
      end
  end.

Definition end_seq (s : list Z) : result json_err (list Z) :=
  match parse_whitespace s with
  | [] => Err EofWhileParsingList
  | c :: s1 =>
    if c =? RBRACK then Ok s1
    else if c =? COMMA then
      match parse_whitespace s1 with
      | d :: _ => if d =? RBRACK then Err TrailingComma else Err TrailingCharacters
      | [] => Err TrailingCharacters
      end
    else Err TrailingCharacters
  end.

(** The derived [visit_seq] of [Contact]: exactly its four fields in
    declaration order. *)
Definition visit_seq_contact (s : list Z) : result json_err (Contact * list Z) :=
  let? (b0, s0) := has_next_element true s in
  if negb b0 then Err InvalidLength else
  let? (i, s1) := deserialize_string s0 in
  let? (b1, s1') := has_next_element false s1 in
  if negb b1 then Err InvalidLength else
  let? (n, s2) := deserialize_string s1' in
  let? (b2, s2') := has_next_element false s2 in
  if negb b2 then Err InvalidLength else
  let? (e, s3) := deserialize_string s2' in
  let? (b3, s3') := has_next_element false s3 in
  if negb b3 then Err InvalidLength else
  let? (p, s4) := deserialize_option_string s3' in
  Ok (mkContact i n e p, s4).

(** [deserialize_struct] for [Contact]: from [\[ ... \]] or [{ ... }]. *)
Definition deserialize_contact (s : list Z) : result json_err (Contact * list Z) :=
  match parse_whitespace s with
  | [] => Err EofWhileParsingValue
  | c :: s1 =>
    if c =? LBRACK then
      let? (ct, s2) := visit_seq_contact s1 in
      let? s3 := end_seq s2 in Ok (ct, s3)
    else if c =? LBRACE then
      let? (acc, s2) := visit_map (S (length s1)) true no_slots s1 in
      let? ct := finish_map acc in
      let? s3 := end_map s2 in Ok (ct, s3)
    else Err (peek_invalid_type (c :: s1))
  end.

(** The [VecVisitor] loop. *)
Fixpoint visit_seq_vec (fuel : nat) (first : bool) (s : list Z)
  : result json_err (list Contact * list Z) :=
  match fuel with
  | O => Err FuelExhausted
  | S f =>
    let? (more, s1) := has_next_element first s in
    if more then
      let? (c, s2) := deserialize_contact s1 in
      let? (cs, s3) := visit_seq_vec f false s2 in
      Ok (c :: cs, s3)
    else Ok ([], s1)
  end.

(** [deserialize_seq] for [Vec<Contact>]. *)
Definition deserialize_vec (s : list Z) : result json_err (list Contact * list Z) :=
  match parse_whitespace s with
  | [] => Err EofWhileParsingValue
  | c :: s1 =>
    if c =? LBRACK then
      let? (cs, s2) := visit_seq_vec (S (length s1)) true s1 in
      let? s3 := end_seq s2 in Ok (cs, s3)
    else Err (peek_invalid_type (c :: s1))
  end.

(** [serde_json::from_str::<Vec<Contact>>]: the value, then only
    whitespace ([Deserializer::end]). *)
Definition from_str (s : list Z) : result json_err (list Contact) :=
  let? (cs, r) := deserialize_vec s in
  match parse_whitespace r with
  | [] => Ok cs
  | _ => Err TrailingCharacters
  end.

(** ** Errors of the program (anyhow errors, by the step that failed) *)

(** System calls of [Store::open] and [Store::save]. *)
Inductive op :=
| OpCreateDirAll | OpOpenTarget | OpLockExclusive | OpCreateTemp
| OpWrite | OpFlush | OpSetPermissions | OpSync | OpPersist
| OpOpenRead | OpLockShared | OpRead.

#[global] Instance op_eq_dec : EqDecision op.
Proof. solve_decision. Defined.

Inductive validation_err :=
| NameEmailEmpty | NameTooLong | EmailTooLong | PhoneTooLong.

Inductive err :=
| EValidation (v : validation_err)
| EIo (o : op)              (* the failing system call, with its context *)
| EParse (e : json_err).    (* "failed to parse JSON: {}" *)

(** ** Record validation: [Contact::new] *)

(** [char::is_whitespace]: ASCII [' '] and [\t..\r], and the non-ASCII
    characters with the Unicode White_Space property. *)
Definition is_whitespace (c : Z) : bool :=
  (c =? 32) || ((9 <=? c) && (c <=? 13)) ||
  ((0x7F <? c) &&
   ((c =? 0x85) || (c =? 0xA0) || (c =? 0x1680) ||
    ((0x2000 <=? c) && (c <=? 0x200A)) || (c =? 0x2028) || (c =? 0x2029) ||
    (c =? 0x202F) || (c =? 0x205F) || (c =? 0x3000))).

Fixpoint trim_start (s : rstring) : rstring :=
  match s with
  | c :: s' => if is_whitespace c then trim_start s' else s
  | [] => []
  end.

Definition trim_end (s : rstring) : rstring := rev (trim_start (rev s)).

(** [str::trim]. *)
Definition trim (s : rstring) : rstring := trim_end (trim_start s).

Definition is_empty (s : rstring) : bool :=
  match s with [] => true | _ => false end.

(** [Contact::new]; [uuid] is the text of [Uuid::new_v4()]. *)
Definition Contact_new (uuid : rstring) (name email : rstring)
    (phone : option rstring) : result err Contact :=
  if is_empty (trim name) || is_empty (trim email) then
    Err (EValidation NameEmailEmpty)
  else if 200 <? str_len name then Err (EValidation NameTooLong)
  else if 320 <? str_len email then Err (EValidation EmailTooLong)
  else
    let ok := Ok (mkContact uuid (trim name) (trim email) (option_map trim phone)) in
    match phone with
    | Some p => if 50 <? str_len p then Err (EValidation PhoneTooLong) else ok
    | None => ok
    end.

(** ** The in-memory collection: [struct Store] *)

(** A path as its components; [\[\]] is the empty path [""] (the current
    directory when used as a directory). *)
Abbreviation Path := (list string).

Record Store := mkStore {
  contacts : list Contact;
  path : Path
}.

Definition Store_list (st : Store) : list Contact := contacts st.

Definition Store_add (st : Store) (c : Contact) : Store :=
  mkStore (contacts st ++ [c]) (path st).

(** [Store::remove]: [retain] the others, compare the lengths. *)
Definition Store_remove (st : Store) (i : rstring) : Store * bool :=
  let before := length (contacts st) in
  let kept := List.filter (fun c => negb (bool_decide (id c = i))) (contacts st) in
  (mkStore kept (path st), negb (Nat.eqb before (length kept))).

Fixpoint starts_with (pre s : rstring) : bool :=
  match pre, s with
  | [], _ => true
  | p :: pre', c :: s' => (p =? c) && starts_with pre' s'
  | _ :: _, [] => false
  end.

(** [str::contains] with a string pattern. *)
Fixpoint contains (hay needle : rstring) : bool :=
  starts_with needle hay ||
  match hay with [] => false | _ :: hay' => contains hay' needle end.

(** [Store::find].  [to_lowercase] is [str::to_lowercase], the Unicode
    lower-case mapping of the standard library, taken as a parameter. *)
Definition Store_find (to_lowercase : rstring -> rstring) (st : Store)
    (q : rstring) : list Contact :=
  let q_lower := to_lowercase q in
  List.filter (fun c => contains (to_lowercase (name c)) q_lower
                        || contains (to_lowercase (email c)) q_lower)
              (contacts st).

(** ** The file system, and the persistence protocol *)

Record file := mkFile {
  f_data : list Z;      (* bytes *)
  f_mode : Z;           (* permission bits *)
  f_synced : bool       (* contents on stable storage *)
}.

(** Files and directories by path, and the log of the system calls that
    succeeded, in order. *)
Record fs := mkFs {
  fs_files : gmap Path file;
  fs_dirs : gset Path;
  fs_log : list op
}.

(** The environment: which system calls fail (the operating system's
    answer, for any reason), the random name [NamedTempFile] draws, and
    the mode a newly created file gets under the process umask. *)
Record env := mkEnv {
  fails : op -> bool;
  tmp_name : string;
  default_mode : Z
}.

Definition set_files (m : gmap Path file) (s : fs) : fs :=
  mkFs m (fs_dirs s) (fs_log s).

Definition log_op (o : op) (s : fs) : fs :=
  mkFs (fs_files s) (fs_dirs s) (fs_log s ++ [o]).

(** State and error monad of the I/O code ([Result] with [?]). *)
Definition M (A : Type) : Type := fs -> result err A * fs.

Definition ret {A : Type} (a : A) : M A := fun s => (Ok a, s).

Definition bind {A B : Type} (m : M A) (k : A -> M B) : M B :=
  fun s => match m s with
           | (Ok a, s') => k a s'
           | (Err e, s') => (Err e, s')
           end.

Definition fail {A : Type} (e : err) : M A := fun s => (Err e, s).

Notation "'let!' x ':=' m 'in' k" := (bind m (fun x => k))
  (at level 200, x pattern, m at level 100, right associativity).

(** A system call: the oracle may make it fail; otherwise [act] gives its
    result and effect, or [None] for an error the state determines. *)
Definition syscall {A : Type} (e : env) (o : op) (act : fs -> option (A * fs))
  : M A :=
  fun s =>
    if fails e o then (Err (EIo o), s)
    else match act s with
         | Some (a, s') => (Ok a, log_op o s')
         | None => (Err (EIo o), s)
         end.

(** [Path::parent]. *)
Definition parent (p : Path) : option Path :=
  match p with [] => None | _ => Some (removelast p) end.

Definition dir_exists (s : fs) (d : Path) : bool :=
  bool_decide (d = []) || bool_decide (d ∈ fs_dirs s).

Definition file_exists (s : fs) (p : Path) : bool :=
  bool_decide (is_Some (fs_files s !! p)).

(** [Path::exists]. *)
Definition path_exists (s : fs) (p : Path) : bool :=
  file_exists s p || bool_decide (p ∈ fs_dirs s).

Definition prefixes (d : Path) : list Path :=
  map (fun n => take n d) (seq 1 (length d)).

(** [fs::create_dir_all]; the empty path is accepted without a call. *)
Definition create_dir_all (e : env) (d : Path) : M unit :=
  if decide (d = []) then ret tt else
  syscall e OpCreateDirAll (fun s =>
    if existsb (file_exists s) (prefixes d) then None
    else Some (tt, mkFs (fs_files s) (list_to_set (prefixes d) ∪ fs_dirs s)
                        (fs_log s))).

(** [OpenOptions::new().read(true).write(true).create(true).open(p)]:
    an existing file is opened as it is (no truncation), a missing one is
    created empty. *)
Definition open_target (e : env) (p : Path) : M unit :=
  syscall e OpOpenTarget (fun s =>
    match fs_files s !! p with
    | Some _ => Some (tt, s)
    | None =>
      if bool_decide (p ∈ fs_dirs s) then None else
      match parent p with
      | Some d =>
        if dir_exists s d then
          Some (tt, set_files (<[p := mkFile [] (default_mode e) false]> (fs_files s)) s)
        else None
      | None => None
      end
    end).

(** [lock_exclusive] on the handle; the handle and its lock are dropped
    right after, so locks leave no trace in the state. *)
Definition lock_exclusive (e : env) : M unit :=
  syscall e OpLockExclusive (fun s => Some (tt, s)).

(** [NamedTempFile::new_in(d)]: creates [d/tmp_name] exclusively, with
    mode 0o600. *)
Definition create_temp (e : env) (d : Path) : M Path :=
  syscall e OpCreateTemp (fun s =>
    let t := d ++ [tmp_name e] in
    if dir_exists s d && negb (path_exists s t) then
      Some (t, set_files (<[t := mkFile [] 384 false]> (fs_files s)) s)
    else None).

Definition update_file (t : Path) (g : file -> file) (s : fs) : option fs :=
  match fs_files s !! t with
  | Some f => Some (set_files (<[t := g f]> (fs_files s)) s)
  | None => None
  end.

Definition write_all (e : env) (t : Path) (j : list Z) : M unit :=
  syscall e OpWrite (fun s =>
    match update_file t (fun f => mkFile j (f_mode f) false) s with
    | Some s' => Some (tt, s') | None => None end).

Definition flush (e : env) : M unit :=
  syscall e OpFlush (fun s => Some (tt, s)).

Definition set_permissions (e : env) (t : Path) (mode : Z) : M unit :=
  syscall e OpSetPermissions (fun s =>
    match update_file t (fun f => mkFile (f_data f) mode (f_synced f)) s with
    | Some s' => Some (tt, s') | None => None end).

Definition sync_all (e : env) (t : Path) : M unit :=
  syscall e OpSync (fun s =>
    match update_file t (fun f => mkFile (f_data f) (f_mode f) true) s with
    | Some s' => Some (tt, s') | None => None end).

(** [NamedTempFile::persist(p)]: [rename(t, p)]. *)
Definition persist (e : env) (t p : Path) : M unit :=
  syscall e OpPersist (fun s =>
    match fs_files s !! t with
    | Some f =>
      if bool_decide (p ∈ fs_dirs s) then None
      else Some (tt, set_files (<[p := f]> (delete t (fs_files s))) s)
    | None => None
    end).

(** The [Drop] of [NamedTempFile] on the error paths: the temporary file
    is removed (also when [persist] fails: the [PersistError] holding it is
    dropped in the [map_err] closure). *)
Definition on_error_remove {A : Type} (t : Path) (m : M A) : M A :=
  fun s => match m s with
           | (Err e, s') => (Err e, set_files (delete t (fs_files s')) s')
           | r => r
           end.

(** [Store::save]. *)
Definition Store_save (e : env) (st : Store) : M unit :=
  let! _ := match parent (path st) with
            | Some d => create_dir_all e d
            | None => ret tt
            end in
  let! _ := open_target e (path st) in
  let! _ := lock_exclusive e in
  (* [parent.unwrap_or(".")]: the current directory *)
  let dir := match parent (path st) with Some d => d | None => [] end in
  let! t := create_temp e dir in
  on_error_remove t (
    let j := to_vec_pretty (contacts st) in
    let! _ := write_all e t j in
    let! _ := flush e in
    let! _ := set_permissions e t 384 in   (* 0o600 *)
    let! _ := sync_all e t in
    persist e t (path st)).

Definition open_read (e : env) (p : Path) : M unit :=
  syscall e OpOpenRead (fun s => if path_exists s p then Some (tt, s) else None).

Definition lock_shared (e : env) : M unit :=
  syscall e OpLockShared (fun s => Some (tt, s)).

(** [read_to_string]: the bytes must be UTF-8 (a directory cannot be
    read). *)
Definition read_to_string (e : env) (p : Path) : M rstring :=
  syscall e OpRead (fun s =>
    match fs_files s !! p with
    | Some f => match from_utf8 (f_data f) with
                | Some t => Some (t, s)
                | None => None
                end
    | None => None
    end).

(** [Store::open]. *)
Definition Store_open (e : env) (p : Path) : M Store :=
  fun s =>
    if path_exists s p then
      (let! _ := open_read e p in
       let! _ := lock_shared e in
       let! text := read_to_string e p in
       match from_str text with
       | Ok cs => ret (mkStore cs p)
       | Err je => fail (EParse je)
       end) s
    else ret (mkStore [] p) s.

(** ** The command line: [main] after argument parsing *)

(** [enum Commands] ([Add], [Remove], [List], [Find]; prefixed with [C]
    here, [List] being the name of a library module). *)
Inductive Commands :=
| CAdd (name email : rstring) (phone : option rstring)
| CRemove (id : rstring)
| CList
| CFind (query : rstring).

(** [Display] of a [usize]: its decimal digits. *)
Definition fmt_usize (n : nat) : rstring := zs (pretty (N.of_nat n)).

(** [println!("{} | {} | {}{}", c.id, c.name, c.email, ...)] of [List]. *)
Definition list_line (c : Contact) : rstring :=
  id c ++ zs " | " ++ name c ++ zs " | " ++ email c ++
  match phone c with Some p => zs " | " ++ p | None => [] end.

(** [println!("{} - {}", c.name, c.phone.as_deref().unwrap_or("No phone"))]
    of [Find]. *)
Definition find_line (c : Contact) : rstring :=
  name c ++ zs " - " ++ match phone c with Some p => p | None => zs "No phone" end.

(** [main] from [Store::open(&data_path)] on, [data_path] being the path
    given on the command line after [canonicalize]: the result, the lines
    printed on stdout (in order) and the file system afterwards.  [uuid]
    is the text of [Uuid::new_v4()] used by [Contact::new]. *)
Definition main_run (e : env) (uuid : rstring) (to_lowercase : rstring -> rstring)
    (data_path : Path) (cmd : Commands) (s : fs)
  : result err unit * list rstring * fs :=
  match Store_open e data_path s with
  | (Err x, s1) => (Err x, [], s1)
  | (Ok store, s1) =>
    match cmd with
    | CAdd n em ph =>
      match Contact_new uuid n em ph with
      | Err x => (Err x, [], s1)
      | Ok c =>
        let out := [zs "Adding contact: " ++ name c ++ zs " <" ++ email c ++ zs ">"] in
        match Store_save e (Store_add store c) s1 with
        | (Err x, s2) => (Err x, out, s2)
        | (Ok _, s2) => (Ok tt, out ++ [zs "Saved."], s2)
        end
      end
    | CRemove i =>
      let (store', removed) := Store_remove store i in
      if removed then
        match Store_save e store' s1 with
        | (Err x, s2) => (Err x, [], s2)
        | (Ok _, s2) => (Ok tt, [zs "Removed contact " ++ i], s2)
        end
      else (Ok tt, [zs "No contact with id " ++ i], s1)
    | CList =>
      (Ok tt, map list_line (Store_list store) ++
              [zs "Total: " ++ fmt_usize (length (Store_list store))], s1)
    | CFind q =>
      let found := Store_find to_lowercase store q in
      (Ok tt, map find_line found ++ [zs "Found: " ++ fmt_usize (length found)], s1)
    end
  end.

(** ** Reading of the specification

    Notions the claims are stated with, written from the specification's
    words. *)

(** [filtered P l l']: [l'] consists of exactly the elements of [l] that
    satisfy [P], in their order in [l]. *)
Inductive filtered {A : Type} (P : A -> Prop) : list A -> list A -> Prop :=
| filtered_nil : filtered P [] []
| filtered_keep x l l' : P x -> filtered P l l' -> filtered P (x :: l) (x :: l')
| filtered_drop x l l' : ~ P x -> filtered P l l' -> filtered P (x :: l) l'.

(** [s] contains [q] case-insensitively: after lower-casing both. *)
Definition ci_contains (to_lowercase : rstring -> rstring) (q s : rstring) : Prop :=
  exists l r, to_lowercase s = l ++ to_lowercase q ++ r.

(** [a] is performed before [b] in the log [l]. *)
Definition before (a b : op) (l : list op) : Prop :=
  exists i j, (i < j)%nat /\ l !! i = Some a /\ l !! j = Some b.

(** The backing-file format: a record is a JSON object with string [id],
    [name] and [email] and a [phone] that is a string, [null] or absent. *)
Fixpoint lookup_key (k : rstring) (o : list (rstring * jval)) : option jval :=
  match o with
  | [] => None
  | (k', v) :: o' => if decide (k' = k) then Some v else lookup_key k o'
  end.

Definition field_ok (kv : rstring * jval) : Prop :=
  ((fst kv = zs "id" \/ fst kv = zs "name" \/ fst kv = zs "email") /\
   exists s, snd kv = JStr s) \/
  fst kv = zs "phone".

Definition store_object (o : list (rstring * jval)) : Prop :=
  NoDup (map fst o) /\ Forall field_ok o.

Definition valid_jval (v : jval) : Prop :=
  match v with JStr s => valid_rstring s | JNull => True end.

Definition str_of (v : option jval) : option rstring :=
  match v with Some (JStr s) => Some s | _ => None end.

Definition phone_of (v : jval) : option rstring :=
  match v with JStr s => Some s | JNull => None end.

(** The record an object of the backing file describes. *)
Definition obj_record (o : list (rstring * jval)) : option Contact :=
  match str_of (lookup_key (zs "id") o), str_of (lookup_key (zs "name") o),
        str_of (lookup_key (zs "email") o) with
  | Some i, Some n, Some e =>
    Some (mkContact i n e (match lookup_key (zs "phone") o with
                           | Some v => phone_of v
                           | None => None
                           end))
  | _, _, _ => None
  end.

(** ** Auxiliary notions of the proofs *)

(** The slots after the derived [visit_map] has read the field [kv]. *)
Definition add_field (acc : slots) (kv : rstring * jval) : slots :=
  match visit_field (fst kv) with
  | F_id => mkSlots (str_of (Some (snd kv))) (sl_name acc) (sl_email acc) (sl_phone acc)
  | F_name => mkSlots (sl_id acc) (str_of (Some (snd kv))) (sl_email acc) (sl_phone acc)
  | F_email => mkSlots (sl_id acc) (sl_name acc) (str_of (Some (snd kv))) (sl_phone acc)
  | F_phone => mkSlots (sl_id acc) (sl_name acc) (sl_email acc) (Some (phone_of (snd kv)))
  | F_ignore => acc
  end.

(** The slots after reading the fields [o] in order. *)
Definition fill (acc : slots) (o : list (rstring * jval)) : slots :=
  fold_left add_field o acc.

(** The slot of field [f] is still empty (no duplicate yet). *)
Definition slot_free (acc : slots) (f : field) : Prop :=
  match f with
  | F_id => sl_id acc = None
  | F_name => sl_name acc = None
  | F_email => sl_email acc = None
  | F_phone => sl_phone acc = None
  | F_ignore => True
  end.

(** The fields of a record read so far hold Rust strings. *)
Definition slots_valid (acc : slots) : Prop :=
  (forall x, sl_id acc = Some x -> valid_rstring x) /\
  (forall x, sl_name acc = Some x -> valid_rstring x) /\
  (forall x, sl_email acc = Some x -> valid_rstring x) /\
  (forall x, sl_phone acc = Some (Some x) -> valid_rstring x).

(** ** Sample inputs *)

(** No system call fails; new files get mode 0o644. *)
Definition env_ok : env := mkEnv (fun _ => false) "tmp1" 420.

(** Only the system call [o] fails. *)
Definition env_failing (o : op) : env :=
  mkEnv (fun o' => bool_decide (o' = o)) "tmp1" 420.

Definition fs_empty : fs := mkFs ∅ ∅ [].

Definition alice : Contact :=
  mkContact (zs "1") (zs "Alice") (zs "a@x.com") (Some (zs "123")).

Definition bob : Contact :=
  mkContact (zs "2") (zs "Bob Brown") (zs "bob@x.com") None.

Definition store_ab : Store := mkStore [alice; bob] ["data"; "contacts.json"].

(** A file system holding the single file [p] with contents [d]. *)
Definition fs_with (p : Path) (d : list Z) : fs :=
  mkFs {[p := mkFile d 384 true]} ∅ [].

(** A record written as a JSON array (the sequence form of a struct). *)
Definition array_record_file : list Z :=
  to_utf8 ([LBRACK; LBRACK] ++ ser_str (zs "1") ++ [COMMA] ++ ser_str (zs "n") ++
           [COMMA] ++ ser_str (zs "e") ++ [COMMA] ++ zs "null" ++ [RBRACK; RBRACK]).

Definition loose_record : Contact := mkContact (zs "7") [] (zs " Bob@X.com ") None.

(** A file system holding the single directory [p]. *)
Definition fs_dir (p : Path) : fs := mkFs ∅ {[p]} [].

(** The file system after saving [store_ab] to an empty file system. *)
Definition saved_ab : fs := snd (Store_save env_ok store_ab fs_empty).

Definition carol : Contact := mkContact (zs "3") (zs "Cy") (zs "c@x") None.

(** *** JSON text (RFC 8259), as the backing file holds it *)

(** Insignificant whitespace: space, tab, line feed, carriage return. *)
Definition json_ws (w : list Z) : Prop :=
  Forall (fun c => c = SPACE \/ c = TAB \/ c = NL \/ c = CR) w.

Definition hex_digit (c v : Z) : Prop :=
  (48 <= c <= 57 /\ v = c - 48) \/ (97 <= c <= 102 /\ v = c - 87) \/
  (65 <= c <= 70 /\ v = c - 55).

(** The four hex digits of a [\u] escape and the code unit they spell. *)
Definition hex_unit (h : list Z) (n : Z) : Prop :=
  exists c1 c2 c3 c4 v1 v2 v3 v4,
    h = [c1; c2; c3; c4] /\ hex_digit c1 v1 /\ hex_digit c2 v2 /\
    hex_digit c3 v3 /\ hex_digit c4 v4 /\
    n = v1 * 4096 + v2 * 256 + v3 * 16 + v4.

(** The two-character escapes, and the character each stands for. *)
Definition escape_pair (e ch : Z) : Prop :=
  (e = QUOTE /\ ch = QUOTE) \/ (e = BSLASH /\ ch = BSLASH) \/
  (e = SLASH /\ ch = SLASH) \/ (e = 98 /\ ch = 8) \/ (e = 102 /\ ch = 12) \/
  (e = 110 /\ ch = NL) \/ (e = 114 /\ ch = CR) \/ (e = 116 /\ ch = TAB).

(** The characters between the quotes of a string that denotes a Unicode
    string, and that string: unescaped characters (not a quote, a backslash
    or a control character), two-character escapes, [\u] escapes of a code
    unit that is not a surrogate, and surrogate pairs. *)
Inductive str_chars : list Z -> rstring -> Prop :=
| sc_nil : str_chars [] []
| sc_plain c t v :
    32 <= c -> c <> QUOTE -> c <> BSLASH -> str_chars t v ->
    str_chars (c :: t) (c :: v)
| sc_escape e ch t v :
    escape_pair e ch -> str_chars t v -> str_chars (BSLASH :: e :: t) (ch :: v)
| sc_unit h n t v :
    hex_unit h n -> ~ (0xD800 <= n <= 0xDFFF) -> str_chars t v ->
    str_chars (BSLASH :: 117 :: h ++ t) (n :: v)
| sc_pair h1 n1 h2 n2 t v :
    hex_unit h1 n1 -> 0xD800 <= n1 <= 0xDBFF ->
    hex_unit h2 n2 -> 0xDC00 <= n2 <= 0xDFFF -> str_chars t v ->
    str_chars (BSLASH :: 117 :: h1 ++ BSLASH :: 117 :: h2 ++ t)
              (0x10000 + (n1 - 0xD800) * 1024 + (n2 - 0xDC00) :: v).

(** The characters between the quotes of any JSON string: [\u] may also
    escape a lone surrogate. *)
Inductive any_chars : list Z -> Prop :=
| ac_nil : any_chars []
| ac_plain c t : 32 <= c -> c <> QUOTE -> c <> BSLASH -> any_chars t -> any_chars (c :: t)
| ac_escape e ch t : escape_pair e ch -> any_chars t -> any_chars (BSLASH :: e :: t)
| ac_unit h n t : hex_unit h n -> any_chars t -> any_chars (BSLASH :: 117 :: h ++ t).

Definition json_digit (c : Z) : Prop := 48 <= c <= 57.

Definition int_part (t : list Z) : Prop :=
  t = [48] \/ exists c ds, t = c :: ds /\ 49 <= c <= 57 /\ Forall json_digit ds.

Definition frac_part (t : list Z) : Prop :=
  t = [] \/ exists ds, t = 46 :: ds /\ ds <> [] /\ Forall json_digit ds.

Definition exp_part (t : list Z) : Prop :=
  t = [] \/
  exists e sg ds, t = e :: sg ++ ds /\ (e = 101 \/ e = 69) /\
    (sg = [] \/ sg = [43] \/ sg = [45]) /\ ds <> [] /\ Forall json_digit ds.

(** A number: an optional minus, an integer part without leading zeros, an
    optional fraction and an optional exponent. *)
Definition json_number (t : list Z) : Prop :=
  exists m i f x, t = m ++ i ++ f ++ x /\ (m = [] \/ m = [45]) /\
    int_part i /\ frac_part f /\ exp_part x.

(** Any JSON value; arrays and objects with whitespace around their
    elements, keys and values. *)
Inductive json_value : list Z -> Prop :=
| jv_literal t : t = zs "null" \/ t = zs "true" \/ t = zs "false" -> json_value t
| jv_number t : json_number t -> json_value t
| jv_string t : any_chars t -> json_value (QUOTE :: t ++ [QUOTE])
| jv_empty_array w : json_ws w -> json_value (LBRACK :: w ++ [RBRACK])
| jv_array t : json_elems t -> json_value (LBRACK :: t ++ [RBRACK])
| jv_empty_object w : json_ws w -> json_value (LBRACE :: w ++ [RBRACE])
| jv_object t : json_members t -> json_value (LBRACE :: t ++ [RBRACE])
with json_elems : list Z -> Prop :=
| je_one w1 v w2 :
    json_ws w1 -> json_value v -> json_ws w2 -> json_elems (w1 ++ v ++ w2)
| je_cons w1 v w2 t :
    json_ws w1 -> json_value v -> json_ws w2 -> json_elems t ->
    json_elems (w1 ++ v ++ w2 ++ COMMA :: t)
with json_members : list Z -> Prop :=
| jm_one w1 k w2 w3 v w4 :
    json_ws w1 -> any_chars k -> json_ws w2 -> json_ws w3 -> json_value v ->
    json_ws w4 ->
    json_members (w1 ++ QUOTE :: k ++ QUOTE :: w2 ++ COLON :: w3 ++ v ++ w4)
| jm_cons w1 k w2 w3 v w4 t :
    json_ws w1 -> any_chars k -> json_ws w2 -> json_ws w3 -> json_value v ->
    json_ws w4 -> json_members t ->
    json_members (w1 ++ QUOTE :: k ++ QUOTE :: w2 ++ COLON :: w3 ++ v ++ w4
                  ++ COMMA :: t).

(** A string or [null], as a field value of a record. *)
Definition jval_text (t : list Z) (v : jval) : Prop :=
  (exists ct s, t = QUOTE :: ct ++ [QUOTE] /\ str_chars ct s /\ v = JStr s) \/
  (t = zs "null" /\ v = JNull).

Definition record_key (k : rstring) : Prop :=
  k = zs "id" \/ k = zs "name" \/ k = zs "email" \/ k = zs "phone".

(** A member of a record object: a field of [Contact] and its value (one
    entry), or another key with any value (no entry).  Keys denote Unicode
    strings. *)
Inductive rec_member : list Z -> list (rstring * jval) -> Prop :=
| rm_field w1 kt k w2 w3 vt v w4 :
    json_ws w1 -> str_chars kt k -> record_key k -> json_ws w2 -> json_ws w3 ->
    jval_text vt v -> json_ws w4 ->
    rec_member (w1 ++ QUOTE :: kt ++ QUOTE :: w2 ++ COLON :: w3 ++ vt ++ w4) [(k, v)]
| rm_other w1 kt k w2 w3 vt w4 :
    json_ws w1 -> str_chars kt k -> ~ record_key k -> json_ws w2 -> json_ws w3 ->
    json_value vt -> json_ws w4 ->
    rec_member (w1 ++ QUOTE :: kt ++ QUOTE :: w2 ++ COLON :: w3 ++ vt ++ w4) [].

Inductive rec_members : list Z -> list (rstring * jval) -> Prop :=
| rms_one t o : rec_member t o -> rec_members t o
| rms_cons t o t' o' :
    rec_member t o -> rec_members t' o' -> rec_members (t ++ COMMA :: t') (o ++ o').

(** A record: an object whose fields of [Contact] (each at most once) are a
    string [id], [name] and [email] and a [phone] that is a string, [null]
    or absent, beside any other members; or an array of the four fields in
    declaration order. *)
Inductive rec_text : list Z -> Contact -> Prop :=
| rt_object t o c :
    rec_members t o -> store_object o -> obj_record o = Some c ->
    rec_text (LBRACE :: t ++ [RBRACE]) c
| rt_array w1 t1 i w2 w3 t2 n w4 w5 t3 e w6 w7 t4 p w8 :
    json_ws w1 -> jval_text t1 (JStr i) -> json_ws w2 ->
    json_ws w3 -> jval_text t2 (JStr n) -> json_ws w4 ->
    json_ws w5 -> jval_text t3 (JStr e) -> json_ws w6 ->
    json_ws w7 -> jval_text t4 p -> json_ws w8 ->
    rec_text (LBRACK :: w1 ++ t1 ++ w2 ++ COMMA :: w3 ++ t2 ++ w4 ++ COMMA ::
              w5 ++ t3 ++ w6 ++ COMMA :: w7 ++ t4 ++ w8 ++ [RBRACK])
             (mkContact i n e (phone_of p)).

Inductive recs_text : list Z -> list Contact -> Prop :=
| rs_one w1 r c w2 :
    json_ws w1 -> rec_text r c -> json_ws w2 -> recs_text (w1 ++ r ++ w2) [c]
| rs_cons w1 r c w2 t cs :
    json_ws w1 -> rec_text r c -> json_ws w2 -> recs_text t cs ->
    recs_text (w1 ++ r ++ w2 ++ COMMA :: t) (c :: cs).

(** The text of a backing file holding the records [cs]: a JSON array of
    records, with whitespace around it. *)
Definition contacts_text (t : list Z) (cs : list Contact) : Prop :=
  exists w0 body w1, t = w0 ++ LBRACK :: body ++ RBRACK :: w1 /\
    json_ws w0 /\ json_ws w1 /\
    ((json_ws body /\ cs = []) \/ recs_text body cs).

(** The input does not start with a digit. *)
Definition nd_head (r : list Z) : Prop :=
  match r with [] => True | c :: _ => is_digit c = false end.

(** What may follow a number: not a digit, a point or an exponent mark. *)
Definition num_follow (r : list Z) : Prop :=
  match r with
  | [] => True
  | c :: _ => is_digit c = false /\ c <> 46 /\ c <> 101 /\ c <> 69
  end.

(** The separator before a member or an element: nothing before the
    first, a comma (after whitespace) before the others. *)
Definition sep_before (first : bool) (p : list Z) : Prop :=
  if first then p = [] else exists w, json_ws w /\ p = w ++ [COMMA].

(** The next value starts with a character that is not whitespace or [\]]. *)
Definition val_head (t : list Z) : Prop :=
  exists c t', t = c :: t' /\ is_ws c = false /\ c <> RBRACK.

(** A JSON string literal of ASCII text. *)
Definition jq (s : string) : list Z := QUOTE :: zs s ++ [QUOTE].

(** A hand-written file: whitespace and line breaks, a [\u] escape, an
    unknown key with a nested value, an empty name, an untrimmed email and
    a [null] phone. *)
Definition loose_text : list Z :=
  [NL] ++ zs "[ {" ++ jq "name" ++ zs ": " ++ [QUOTE; QUOTE] ++ zs ", " ++
  jq "id" ++ zs " : " ++ jq "\u0037" ++ zs "," ++ [NL; TAB] ++
  jq "notes" ++ zs ":[1.5e3, {" ++ jq "a" ++ zs ":null}, true], " ++
  jq "email" ++ zs ":" ++ jq " Bob@X.com " ++ zs ", " ++ jq "phone" ++
  zs ": null} ]" ++ [NL].

(** A file whose only record lacks its [name]. *)
Definition nameless_text : list Z :=
  zs "[{" ++ jq "id" ++ zs ":" ++ jq "1" ++ zs ", " ++ jq "email" ++ zs ":" ++
  jq "e" ++ zs "}]".

(** ** Theorems *)

(** *** Auxiliary lemmas on the collection *)

Lemma length_filter_le {A : Type} (f : A -> bool) (l : list A) :
  (length (List.filter f l) <= length l)%nat.
Proof. induction l as [|x l IH]; simpl; [lia|destruct (f x); simpl; lia]. Qed.

Lemma length_filter_eq {A : Type} (f : A -> bool) (l : list A) :
  length (List.filter f l) = length l <-> Forall (fun x => f x = true) l.
Proof.
  induction l as [|x l IH]; simpl; [split; auto|].
  pose proof (length_filter_le f l).
  destruct (f x) eqn:Hx; simpl.
  - rewrite Forall_cons. split; [intros H'; split; [done|apply IH; lia]|].
    intros [_ H']. apply IH in H'. lia.
  - split; [lia|]. rewrite Forall_cons. intros [H' _]. congruence.
Qed.

Lemma filtered_filter {A : Type} (P : A -> Prop) (f : A -> bool) (l : list A) :
  (forall x, f x = true <-> P x) -> filtered P l (List.filter f l).
Proof.
  intros Hf. induction l as [|x l IH]; simpl; [constructor|].
  destruct (f x) eqn:Hx.
  - apply filtered_keep; [apply Hf; done|done].
  - apply filtered_drop; [|done]. intros HP. apply Hf in HP. congruence.
Qed.

Lemma starts_with_spec (pre s : rstring) :
  starts_with pre s = true <-> exists r, s = pre ++ r.
Proof.
  revert s. induction pre as [|p pre IH]; intros s; simpl.
  - split; [eauto|done].
  - destruct s as [|c s].
    + split; [done|]. intros [r Hr]. discriminate.
    + rewrite andb_true_iff, Z.eqb_eq, IH. split.
      * intros [-> [r ->]]. eauto.
      * intros [r Hr]. injection Hr as -> ->. eauto.
Qed.

Lemma contains_spec (hay needle : rstring) :
  contains hay needle = true <-> exists l r, hay = l ++ needle ++ r.
Proof.
  induction hay as [|c hay IH]; simpl; rewrite orb_true_iff, starts_with_spec.
  - split.
    + intros [[r Hr]|H]; [exists [], r; done|done].
    + intros ([|x l] & r & Hr); [left; eauto|discriminate].
  - rewrite IH. split.
    + intros [[r Hr]|(l & r & Hr)]; [exists [], r; done|].
      exists (c :: l), r. rewrite Hr. done.
    + intros ([|x l] & r & Hr); [left; eauto|].
      injection Hr as -> Hr. right. eauto.
Qed.

Lemma trim_start_whitespace (s : rstring) :
  Forall (fun ch => is_whitespace ch = true) s -> trim_start s = [].
Proof. induction 1 as [|x s Hx _ IH]; simpl; [done|by rewrite Hx]. Qed.

Lemma trim_whitespace (s : rstring) :
  Forall (fun ch => is_whitespace ch = true) s -> trim s = [].
Proof. intros H. unfold trim, trim_end. rewrite (trim_start_whitespace s H). reflexivity. Qed.

(** *** The record validator *)

(** C3, what the code does: [Contact::new] succeeds exactly when the
    trimmed name and the trimmed email are non-empty, the name as given
    (untrimmed) is at most 200 bytes long in UTF-8, the email as given at
    most 320 bytes and the phone as given, when present, at most 50 bytes;
    it then stores the trimmed name, email and phone.  A whitespace-only
    name or email is rejected as empty.  The limits are meant in characters
    of the trimmed strings (the error messages say [max 200 chars]); [len]
    on the untrimmed [&str] measures something else. *)
Theorem Contact_new_spec (u n e : rstring) (p : option rstring) :
  (forall c, Contact_new u n e p = Ok c <->
     (trim n <> [] /\ trim e <> [] /\ str_len n <= 200 /\ str_len e <= 320 /\
      (forall x, p = Some x -> str_len x <= 50)) /\
     c = mkContact u (trim n) (trim e) (option_map trim p)) /\
  (Forall (fun ch => is_whitespace ch = true) n \/
   Forall (fun ch => is_whitespace ch = true) e ->
   Contact_new u n e p = Err (EValidation NameEmailEmpty)).
Proof.
  split.
  - intros c. unfold Contact_new.
    destruct (is_empty (trim n)) eqn:Hn; simpl.
    { split; [done|]. intros [(Hn' & _) _]. destruct (trim n); done. }
    destruct (is_empty (trim e)) eqn:He; simpl.
    { split; [done|]. intros [(_ & He' & _) _]. destruct (trim e); done. }
    assert (trim n <> []) by (destruct (trim n); done).
    assert (trim e <> []) by (destruct (trim e); done).
    destruct (200 <? str_len n) eqn:L1.
    { split; [done|]. apply Z.ltb_lt in L1. lia. }
    destruct (320 <? str_len e) eqn:L2.
    { split; [done|]. apply Z.ltb_lt in L2. lia. }
    apply Z.ltb_ge in L1, L2.
    destruct p as [x|]; [destruct (50 <? str_len x) eqn:L3|].
    + split; [done|]. intros [(_ & _ & _ & _ & Hp) _].
      apply Z.ltb_lt in L3. specialize (Hp x eq_refl). lia.
    + apply Z.ltb_ge in L3. split.
      * intros Hc. injection Hc as <-. split; [|done].
        repeat split; try done. intros y Hy. injection Hy as <-. done.
      * intros [_ ->]. done.
    + split.
      * intros Hc. injection Hc as <-. split; [|done].
        repeat split; try done.
      * intros [_ ->]. done.
  - intros Hws. unfold Contact_new.
    destruct Hws as [Hws|Hws]; rewrite (trim_whitespace _ Hws); simpl;
      [done|by rewrite orb_true_r].
Qed.

(** C3 does not hold of the code: the length limits are checked on the
    untrimmed input and count UTF-8 bytes.  A name of 5 spaces and 196
    letters (196 characters once trimmed) and a name of 101 letters
    U+00E9 (101 characters, 202 bytes) are both rejected as too long. *)
Lemma Contact_new_length_counterexample :
  let n1 := repeat 32 5 ++ repeat 97 196 in
  let n2 := repeat 233 101 in
  trim n1 <> [] /\ Z.of_nat (length (trim n1)) <= 200 /\
  Contact_new (zs "u") n1 (zs "a@b.com") None = Err (EValidation NameTooLong) /\
  trim n2 <> [] /\ Z.of_nat (length (trim n2)) <= 200 /\
  Contact_new (zs "u") n2 (zs "a@b.com") None = Err (EValidation NameTooLong).
Proof. vm_compute. repeat split; try discriminate; reflexivity. Qed.

(** *** The collection *)

(** C9: [remove] keeps exactly the records whose id differs, in their
    order, and returns [true] exactly when some record had the id. *)
Theorem Store_remove_spec (st : Store) (i : rstring) :
  filtered (fun c => id c <> i) (contacts st) (contacts (fst (Store_remove st i))) /\
  path (fst (Store_remove st i)) = path st /\
  (snd (Store_remove st i) = true <-> Exists (fun c => id c = i) (contacts st)).
Proof.
  unfold Store_remove; simpl. split; [|split; [done|]].
  - apply filtered_filter. intros c. rewrite negb_true_iff, bool_decide_eq_false.
    done.
  - rewrite negb_true_iff, Nat.eqb_neq. split.
    + intros Hne. destruct (decide (Exists (fun c => id c = i) (contacts st)))
        as [|Hno]; [done|]. exfalso.
      apply Hne. symmetry. apply length_filter_eq.
      apply Forall_forall. intros x Hin.
      rewrite negb_true_iff, bool_decide_eq_false. intros Hx.
      apply Hno, Exists_exists. eauto.
    + intros Hex Heq. symmetry in Heq. apply length_filter_eq in Heq.
      apply Exists_exists in Hex as (x & Hin & Hx).
      rewrite Forall_forall in Heq. specialize (Heq x Hin). simpl in Heq.
      rewrite negb_true_iff, bool_decide_eq_false in Heq. done.
Qed.

(** C8: [find] returns exactly the records whose name or email contains the
    query after lower-casing both (the phone plays no part), in their
    order; the empty query matches every record. *)
Theorem Store_find_spec (to_lowercase : rstring -> rstring) (st : Store) (q : rstring) :
  to_lowercase [] = [] ->
  filtered (fun c => ci_contains to_lowercase q (name c) \/
                     ci_contains to_lowercase q (email c))
           (contacts st) (Store_find to_lowercase st q) /\
  Store_find to_lowercase st [] = contacts st.
Proof.
  intros Hnil. unfold Store_find. split.
  - apply filtered_filter. intros c. rewrite orb_true_iff, !contains_spec. done.
  - rewrite Hnil. induction (contacts st) as [|c cs IH]; simpl; [done|].
    rewrite IH. destruct (contains (to_lowercase (name c)) []) eqn:Hc; [done|].
    exfalso. assert (Hs : contains (to_lowercase (name c)) [] = true)
      by (apply contains_spec; exists [], (to_lowercase (name c));
          reflexivity).
    congruence.
Qed.

(** Lower-casing of ASCII letters, an instance of [str::to_lowercase] on
    ASCII text. *)
Lemma Store_find_spec_witness :
  (fun s : rstring => map (fun ch => if (65 <=? ch) && (ch <=? 90) then ch + 32 else ch) s) [] = [] /\
  Store_find (map (fun ch => if (65 <=? ch) && (ch <=? 90) then ch + 32 else ch))
             (mkStore [mkContact (zs "1") (zs "Alice") (zs "a@x.com") None] ["c.json"])
             [] = [mkContact (zs "1") (zs "Alice") (zs "a@x.com") None].
Proof.
  split; [reflexivity|].
  apply (Store_find_spec (map (fun ch => if (65 <=? ch) && (ch <=? 90) then ch + 32 else ch))
           (mkStore [mkContact (zs "1") (zs "Alice") (zs "a@x.com") None] ["c.json"]) []).
  reflexivity.
Defined.

(** *** The I/O monad and the system calls *)

Lemma bind_inv_ok {A B : Type} (m : M A) (k : A -> M B) s b s' :
  bind m k s = (Ok b, s') -> exists a s1, m s = (Ok a, s1) /\ k a s1 = (Ok b, s').
Proof. unfold bind. destruct (m s) as [[a|x] s1]; [eauto|discriminate]. Qed.

Lemma bind_inv_err {A B : Type} (m : M A) (k : A -> M B) s x s' :
  bind m k s = (Err x, s') ->
  m s = (Err x, s') \/ exists a s1, m s = (Ok a, s1) /\ k a s1 = (Err x, s').
Proof. unfold bind. destruct (m s) as [[a|y] s1]; [eauto|]. intros [= -> ->]. auto. Qed.

Lemma syscall_ok {A : Type} e o (act : fs -> option (A * fs)) s a s' :
  syscall e o act s = (Ok a, s') ->
  fails e o = false /\ exists s1, act s = Some (a, s1) /\ s' = log_op o s1.
Proof.
  unfold syscall. destruct (fails e o); [discriminate|].
  destruct (act s) as [[a' s1]|]; [|discriminate]. intros [= -> <-]. eauto.
Qed.

Lemma syscall_err {A : Type} e o (act : fs -> option (A * fs)) s x s' :
  syscall e o act s = (Err x, s') -> s' = s.
Proof.
  unfold syscall. destruct (fails e o); [congruence|].
  destruct (act s) as [[a' s1]|]; congruence.
Qed.

Lemma syscall_err_op {A : Type} e o (act : fs -> option (A * fs)) s x s' :
  syscall e o act s = (Err x, s') -> x = EIo o.
Proof.
  unfold syscall. destruct (fails e o); [congruence|].
  destruct (act s) as [[a' s1]|]; congruence.
Qed.

Lemma create_dir_all_ok e d s s1 :
  create_dir_all e d s = (Ok tt, s1) ->
  fs_files s1 = fs_files s /\
  (fs_log s1 = fs_log s \/ fs_log s1 = fs_log s ++ [OpCreateDirAll]).
Proof.
  unfold create_dir_all. case_decide; [unfold ret; intros [= <-]; auto|].
  intros Hs. apply syscall_ok in Hs as (_ & s2 & Hact & ->).
  destruct (existsb _ _); [discriminate|]. injection Hact as <-. simpl. auto.
Qed.

Lemma create_dir_all_err e d s x s1 :
  create_dir_all e d s = (Err x, s1) -> s1 = s.
Proof.
  unfold create_dir_all. case_decide; [unfold ret; discriminate|].
  apply syscall_err.
Qed.

Lemma open_target_ok e p s s1 :
  open_target e p s = (Ok tt, s1) ->
  fs_log s1 = fs_log s ++ [OpOpenTarget] /\
  ((exists f, fs_files s !! p = Some f /\ fs_files s1 = fs_files s) \/
   (fs_files s !! p = None /\
    fs_files s1 = <[p := mkFile [] (default_mode e) false]> (fs_files s))).
Proof.
  unfold open_target. intros Hs. apply syscall_ok in Hs as (_ & s2 & Hact & ->).
  destruct (fs_files s !! p) as [f|] eqn:Hp.
  - injection Hact as <-. simpl. eauto.
  - case_bool_decide; [discriminate|].
    destruct (parent p); [|discriminate]. destruct (dir_exists s l); [|discriminate].
    injection Hact as <-. simpl. auto.
Qed.

Lemma lock_exclusive_ok e s s1 :
  lock_exclusive e s = (Ok tt, s1) -> s1 = log_op OpLockExclusive s.
Proof.
  unfold lock_exclusive. intros Hs. apply syscall_ok in Hs as (_ & s2 & Hact & ->).
  by injection Hact as <-.
Qed.

Lemma create_temp_ok e d s t s1 :
  create_temp e d s = (Ok t, s1) ->
  t = d ++ [tmp_name e] /\ fs_files s !! t = None /\
  fs_files s1 = <[t := mkFile [] 384 false]> (fs_files s) /\
  fs_log s1 = fs_log s ++ [OpCreateTemp].
Proof.
  unfold create_temp. intros Hs. apply syscall_ok in Hs as (_ & s2 & Hact & ->).
  destruct (dir_exists s d && negb (path_exists s (d ++ [tmp_name e]))) eqn:Hc;
    [|discriminate].
  injection Hact as <- <-. simpl. split; [done|]. split; [|done].
  apply andb_true_iff in Hc as [_ Hc]. apply negb_true_iff in Hc.
  unfold path_exists, file_exists in Hc. apply orb_false_iff in Hc as [Hc _].
  apply bool_decide_eq_false in Hc. destruct (fs_files s !! _); [|done].
  exfalso. apply Hc. done.
Qed.

Lemma update_file_some t g s s1 :
  update_file t g s = Some s1 ->
  exists f, fs_files s !! t = Some f /\ fs_files s1 = <[t := g f]> (fs_files s) /\
            fs_log s1 = fs_log s.
Proof.
  unfold update_file. destruct (fs_files s !! t) as [f|]; [|discriminate].
  intros [= <-]. eauto.
Qed.

Lemma write_all_ok e t j s s1 :
  write_all e t j s = (Ok tt, s1) ->
  exists f, fs_files s !! t = Some f /\
    fs_files s1 = <[t := mkFile j (f_mode f) false]> (fs_files s) /\
    fs_log s1 = fs_log s ++ [OpWrite].
Proof.
  unfold write_all. intros Hs. apply syscall_ok in Hs as (_ & s2 & Hact & ->).
  destruct (update_file _ _ s) as [s3|] eqn:Hu; [|discriminate].
  injection Hact as <-. apply update_file_some in Hu as (f & Hf & Hfiles & Hlog).
  exists f. simpl. rewrite Hfiles, Hlog. done.
Qed.

Lemma flush_ok e s s1 : flush e s = (Ok tt, s1) -> s1 = log_op OpFlush s.
Proof.
  unfold flush. intros Hs. apply syscall_ok in Hs as (_ & s2 & Hact & ->).
  by injection Hact as <-.
Qed.

Lemma set_permissions_ok e t m s s1 :
  set_permissions e t m s = (Ok tt, s1) ->
  exists f, fs_files s !! t = Some f /\
    fs_files s1 = <[t := mkFile (f_data f) m (f_synced f)]> (fs_files s) /\
    fs_log s1 = fs_log s ++ [OpSetPermissions].
Proof.
  unfold set_permissions. intros Hs. apply syscall_ok in Hs as (_ & s2 & Hact & ->).
  destruct (update_file _ _ s) as [s3|] eqn:Hu; [|discriminate].
  injection Hact as <-. apply update_file_some in Hu as (f & Hf & Hfiles & Hlog).
  exists f. simpl. rewrite Hfiles, Hlog. done.
Qed.

Lemma sync_all_ok e t s s1 :
  sync_all e t s = (Ok tt, s1) ->
  exists f, fs_files s !! t = Some f /\
    fs_files s1 = <[t := mkFile (f_data f) (f_mode f) true]> (fs_files s) /\
    fs_log s1 = fs_log s ++ [OpSync].
Proof.
  unfold sync_all. intros Hs. apply syscall_ok in Hs as (_ & s2 & Hact & ->).
  destruct (update_file _ _ s) as [s3|] eqn:Hu; [|discriminate].
  injection Hact as <-. apply update_file_some in Hu as (f & Hf & Hfiles & Hlog).
  exists f. simpl. rewrite Hfiles, Hlog. done.
Qed.

Lemma persist_ok e t p s s1 :
  persist e t p s = (Ok tt, s1) ->
  exists f, fs_files s !! t = Some f /\
    fs_files s1 = <[p := f]> (delete t (fs_files s)) /\
    fs_log s1 = fs_log s ++ [OpPersist].
Proof.
  unfold persist. intros Hs. apply syscall_ok in Hs as (_ & s2 & Hact & ->).
  destruct (fs_files s !! t) as [f|]; [|discriminate].
  case_bool_decide; [discriminate|]. injection Hact as <-. simpl. eauto.
Qed.

Lemma on_error_remove_ok {A : Type} t (m : M A) s a s' :
  on_error_remove t m s = (Ok a, s') -> m s = (Ok a, s').
Proof. unfold on_error_remove. destruct (m s) as [[b|y] s1]; congruence. Qed.

(** What a successful [save] did: the system calls it made, in order, and
    the file now at the target path. *)
Lemma Store_save_ok e st s s' :
  Store_save e st s = (Ok tt, s') ->
  (exists pre, (pre = [] \/ pre = [OpCreateDirAll]) /\
     fs_log s' = fs_log s ++ pre ++
       [OpOpenTarget; OpLockExclusive; OpCreateTemp; OpWrite; OpFlush;
        OpSetPermissions; OpSync; OpPersist]) /\
  fs_files s' !! path st = Some (mkFile (to_vec_pretty (contacts st)) 384 true).
Proof.
  unfold Store_save. intros H.
  apply bind_inv_ok in H as ([] & s1 & H1 & H).
  assert (Hl1 : exists pre, (pre = [] \/ pre = [OpCreateDirAll]) /\
                            fs_log s1 = fs_log s ++ pre).
  { destruct (parent (path st)).
    - apply create_dir_all_ok in H1 as [_ [Hl|Hl]].
      + exists []. rewrite app_nil_r. auto.
      + eauto.
    - unfold ret in H1. injection H1 as <-. exists []. rewrite app_nil_r. auto. }
  destruct Hl1 as (pre & Hpre & Hl1).
  apply bind_inv_ok in H as ([] & s2 & H2 & H). apply open_target_ok in H2 as [Hl2 _].
  apply bind_inv_ok in H as ([] & s3 & H3 & H). apply lock_exclusive_ok in H3 as ->.
  apply bind_inv_ok in H as (t & s4 & H4 & H).
  apply create_temp_ok in H4 as (_ & _ & Hf4 & Hl4).
  apply on_error_remove_ok in H.
  apply bind_inv_ok in H as ([] & s5 & H5 & H).
  apply write_all_ok in H5 as (f5 & Hf5 & Hfiles5 & Hl5).
  apply bind_inv_ok in H as ([] & s6 & H6 & H). apply flush_ok in H6 as ->.
  apply bind_inv_ok in H as ([] & s7 & H7 & H).
  apply set_permissions_ok in H7 as (f7 & Hf7 & Hfiles7 & Hl7).
  apply bind_inv_ok in H as ([] & s8 & H8 & H).
  apply sync_all_ok in H8 as (f8 & Hf8 & Hfiles8 & Hl8).
  apply persist_ok in H as (f9 & Hf9 & Hfiles9 & Hl9).
  simpl in *. split.
  - exists pre. split; [done|].
    rewrite Hl9, Hl8, Hl7, Hl5, Hl4, Hl2, Hl1. rewrite <- !app_assoc. done.
  - rewrite Hfiles9, lookup_insert_eq.
    rewrite Hfiles8, lookup_insert_eq in Hf9. injection Hf9 as <-.
    rewrite Hfiles7, lookup_insert_eq in Hf8. injection Hf8 as <-.
    rewrite Hfiles5, lookup_insert_eq in Hf7. injection Hf7 as <-.
    rewrite Hf4, lookup_insert_eq in Hf5. injection Hf5 as <-.
    done.
Qed.

(** *** The atomic save *)

(** C5: after a successful [save] the file at the target path has the
    permission bits 0o600 (owner read and write only). *)
Theorem Store_save_mode_600 (e : env) (st : Store) (s s' : fs) :
  Store_save e st s = (Ok tt, s') ->
  exists f, fs_files s' !! path st = Some f /\ f_mode f = 384.
Proof.
  intros H. apply Store_save_ok in H as [_ H]. eexists; split; [exact H|done].
Qed.

Lemma Store_save_mode_600_witness :
  Store_save env_ok store_ab fs_empty = (Ok tt, snd (Store_save env_ok store_ab fs_empty)) /\
  exists f, fs_files (snd (Store_save env_ok store_ab fs_empty)) !! path store_ab = Some f /\
            f_mode f = 384.
Proof.
  split; [vm_compute; reflexivity|].
  apply (Store_save_mode_600 env_ok store_ab fs_empty).
  vm_compute; reflexivity.
Defined.

(** C4 (as amended): a successful [save] writes the temporary file, flushes
    it, sets its permissions to 0o600, syncs it to stable storage and only
    then renames it over the target: the permissions are set before the
    sync, and both come before the rename. *)
Theorem Store_save_order (e : env) (st : Store) (s s' : fs) :
  Store_save e st s = (Ok tt, s') ->
  exists pre, (pre = [] \/ pre = [OpCreateDirAll]) /\
    fs_log s' = fs_log s ++ pre ++
      [OpOpenTarget; OpLockExclusive; OpCreateTemp; OpWrite; OpFlush;
       OpSetPermissions; OpSync; OpPersist].
Proof. intros H. apply Store_save_ok in H as [H _]. exact H. Qed.

Lemma Store_save_order_witness :
  Store_save env_ok store_ab fs_empty = (Ok tt, snd (Store_save env_ok store_ab fs_empty)) /\
  exists pre, (pre = [] \/ pre = [OpCreateDirAll]) /\
    fs_log (snd (Store_save env_ok store_ab fs_empty)) = fs_log fs_empty ++ pre ++
      [OpOpenTarget; OpLockExclusive; OpCreateTemp; OpWrite; OpFlush;
       OpSetPermissions; OpSync; OpPersist].
Proof.
  split; [vm_compute; reflexivity|].
  apply (Store_save_order env_ok store_ab fs_empty).
  vm_compute; reflexivity.
Defined.

(** C4 fails as stated: the sync of the temporary file does not come
    before the permission change; in a successful save the permissions are
    set first. *)
Lemma Store_save_sync_after_permissions :
  fst (Store_save env_ok store_ab fs_empty) = Ok tt /\
  fs_log (snd (Store_save env_ok store_ab fs_empty)) =
    [OpCreateDirAll; OpOpenTarget; OpLockExclusive; OpCreateTemp; OpWrite;
     OpFlush; OpSetPermissions; OpSync; OpPersist] /\
  before OpSetPermissions OpSync (fs_log (snd (Store_save env_ok store_ab fs_empty))) /\
  ~ before OpSync OpSetPermissions (fs_log (snd (Store_save env_ok store_ab fs_empty))).
Proof.
  assert (Hlog : fs_log (snd (Store_save env_ok store_ab fs_empty)) =
    [OpCreateDirAll; OpOpenTarget; OpLockExclusive; OpCreateTemp; OpWrite;
     OpFlush; OpSetPermissions; OpSync; OpPersist]) by (vm_compute; reflexivity).
  split; [vm_compute; reflexivity|]. rewrite Hlog. split; [done|]. split.
  - exists 6%nat, 7%nat. split; [lia|split; reflexivity].
  - intros (i & j & Hij & Hi & Hj).
    destruct i as [|[|[|[|[|[|[|[|[|i]]]]]]]]]; simpl in Hi; try discriminate.
    destruct j as [|[|[|[|[|[|[|[|[|j]]]]]]]]]; simpl in Hj; try discriminate.
    lia.
Qed.

(** Reading an existing file: the outcome is decided by the UTF-8 check and
    the deserializer. *)
Lemma Store_open_read e p s f :
  fails e OpOpenRead = false -> fails e OpLockShared = false ->
  fails e OpRead = false ->
  fs_files s !! p = Some f ->
  fst (Store_open e p s) =
    match from_utf8 (f_data f) with
    | None => Err (EIo OpRead)
    | Some t =>
      match from_str t with
      | Ok cs => Ok (mkStore cs p)
      | Err je => Err (EParse je)
      end
    end.
Proof.
  intros H1 H2 H3 Hf.
  unfold Store_open, path_exists, file_exists. rewrite Hf.
  rewrite (bool_decide_eq_true_2 (is_Some (Some f))) by eauto. simpl.
  unfold bind, open_read, lock_shared, read_to_string, syscall.
  rewrite H1. unfold path_exists, file_exists. rewrite Hf.
  rewrite (bool_decide_eq_true_2 (is_Some (Some f))) by eauto. simpl.
  rewrite H2, H3. simpl. rewrite Hf.
  destruct (from_utf8 (f_data f)) as [t|]; [|reflexivity].
  destruct (from_str t); reflexivity.
Qed.

(** *** Failure paths of [save] *)

Lemma insert_lookup_ne_files (m : gmap Path file) t p f :
  t <> p -> <[t := f]> m !! p = m !! p.
Proof. intros Hne. by rewrite lookup_insert_ne. Qed.

(** The steps on the temporary file [t] touch no other path, whether they
    succeed or fail; a failing rename changes nothing. *)
Lemma save_inner_err e t p j s x s' :
  t <> p ->
  (let! _ := write_all e t j in
   let! _ := flush e in
   let! _ := set_permissions e t 384 in
   let! _ := sync_all e t in
   persist e t p) s = (Err x, s') ->
  fs_files s' !! p = fs_files s !! p.
Proof.
  intros Hne H.
  apply bind_inv_err in H as [H|([] & s1 & H1 & H)].
  { unfold write_all in H. apply syscall_err in H. by subst. }
  apply write_all_ok in H1 as (f1 & _ & Hf1 & _).
  apply bind_inv_err in H as [H|([] & s2 & H2 & H)].
  { unfold flush in H. apply syscall_err in H. subst. rewrite Hf1.
    by apply insert_lookup_ne_files. }
  apply flush_ok in H2 as ->.
  apply bind_inv_err in H as [H|([] & s3 & H3 & H)].
  { unfold set_permissions in H. apply syscall_err in H. subst. simpl.
    rewrite Hf1. by apply insert_lookup_ne_files. }
  apply set_permissions_ok in H3 as (f3 & _ & Hf3 & _). simpl in Hf3.
  apply bind_inv_err in H as [H|([] & s4 & H4 & H)].
  { unfold sync_all in H. apply syscall_err in H. subst.
    rewrite Hf3, Hf1, !insert_lookup_ne_files by done. done. }
  apply sync_all_ok in H4 as (f4 & _ & Hf4 & _).
  unfold persist in H. apply syscall_err in H. subst.
  rewrite Hf4, Hf3, Hf1, !insert_lookup_ne_files by done. done.
Qed.

(** A failed [save] leaves the target path as it was, except that a target
    that did not exist may now exist as the empty file created to take the
    lock. *)
Lemma Store_save_err e st s x s' :
  Store_save e st s = (Err x, s') ->
  fs_files s' !! path st = fs_files s !! path st \/
  (fs_files s !! path st = None /\
   fs_files s' !! path st = Some (mkFile [] (default_mode e) false)).
Proof.
  unfold Store_save. intros H.
  apply bind_inv_err in H as [H|([] & s1 & H1 & H)].
  { destruct (parent (path st)).
    - apply create_dir_all_err in H. subst. auto.
    - discriminate. }
  assert (Hf1 : fs_files s1 = fs_files s).
  { destruct (parent (path st)).
    - by apply create_dir_all_ok in H1 as [-> _].
    - by injection H1 as <-. }
  apply bind_inv_err in H as [H|([] & s2 & H2 & H)].
  { unfold open_target in H. apply syscall_err in H. subst. rewrite Hf1. auto. }
  apply open_target_ok in H2 as [_ Hf2].
  assert (Hrest : fs_files s' !! path st = fs_files s2 !! path st /\
                  is_Some (fs_files s2 !! path st)).
  { assert (Hp : is_Some (fs_files s2 !! path st)).
    { destruct Hf2 as [(f & Hf & ->)|(_ & ->)].
      - rewrite Hf. eauto.
      - rewrite lookup_insert_eq. eauto. }
    split; [|done].
    apply bind_inv_err in H as [H|([] & s3 & H3 & H)].
    { unfold lock_exclusive in H. apply syscall_err in H. by subst. }
    apply lock_exclusive_ok in H3 as ->.
    apply bind_inv_err in H as [H|(t & s4 & H4 & H)].
    { unfold create_temp in H. apply syscall_err in H. by subst. }
    apply create_temp_ok in H4 as (_ & Ht & Hf4 & _). simpl in Ht.
    assert (Hne : t <> path st).
    { intros ->. destruct Hp as [f Hp]. congruence. }
    unfold on_error_remove in H.
    match type of H with
    | (match ?m s4 with _ => _ end) = _ => destruct (m s4) as [[y|y] s5] eqn:Hin
    end; [discriminate|].
    injection H as -> <-. simpl. rewrite lookup_delete_ne by done.
    apply save_inner_err in Hin; [|done]. rewrite Hin, Hf4.
    by apply insert_lookup_ne_files. }
  destruct Hrest as [-> _].
  destruct Hf2 as [(f & Hf & ->)|(Hn & ->)].
  - rewrite Hf1. auto.
  - right. rewrite Hf1 in Hn. rewrite lookup_insert_eq. auto.
Qed.

(** The error of a failed write, flush, permission change, sync or rename
    on the temporary file names that step. *)
Lemma save_inner_err_op e t p j s x s' :
  (let! _ := write_all e t j in
   let! _ := flush e in
   let! _ := set_permissions e t 384 in
   let! _ := sync_all e t in
   persist e t p) s = (Err x, s') ->
  x ∈ [EIo OpWrite; EIo OpFlush; EIo OpSetPermissions; EIo OpSync; EIo OpPersist].
Proof.
  intros H.
  apply bind_inv_err in H as [H|([] & s1 & _ & H)].
  { unfold write_all in H. apply syscall_err_op in H. subst. set_solver. }
  apply bind_inv_err in H as [H|([] & s2 & _ & H)].
  { unfold flush in H. apply syscall_err_op in H. subst. set_solver. }
  apply bind_inv_err in H as [H|([] & s3 & _ & H)].
  { unfold set_permissions in H. apply syscall_err_op in H. subst. set_solver. }
  apply bind_inv_err in H as [H|([] & s4 & _ & H)].
  { unfold sync_all in H. apply syscall_err_op in H. subst. set_solver. }
  unfold persist in H. apply syscall_err_op in H. subst. set_solver.
Qed.

(** A failed [save], by the step that failed: before the target is opened,
    the target path is as it was; from the lock on, it holds what it held,
    or the empty file created to take the lock. *)
Lemma Store_save_err_cases e st s x s' :
  Store_save e st s = (Err x, s') ->
  ((x = EIo OpCreateDirAll \/ x = EIo OpOpenTarget) /\
   fs_files s' !! path st = fs_files s !! path st) \/
  (x ∈ [EIo OpLockExclusive; EIo OpCreateTemp; EIo OpWrite; EIo OpFlush;
        EIo OpSetPermissions; EIo OpSync; EIo OpPersist] /\
   fs_files s' !! path st =
     match fs_files s !! path st with
     | Some f => Some f
     | None => Some (mkFile [] (default_mode e) false)
     end).
Proof.
  unfold Store_save. intros H.
  apply bind_inv_err in H as [H|([] & s1 & H1 & H)].
  { destruct (parent (path st)).
    - unfold create_dir_all in H. case_decide; [unfold ret in H; discriminate|].
      pose proof (syscall_err_op _ _ _ _ _ _ H). apply syscall_err in H. subst. auto.
    - discriminate. }
  assert (Hf1 : fs_files s1 = fs_files s).
  { destruct (parent (path st)).
    - by apply create_dir_all_ok in H1 as [-> _].
    - by injection H1 as <-. }
  apply bind_inv_err in H as [H|([] & s2 & H2 & H)].
  { unfold open_target in H. pose proof (syscall_err_op _ _ _ _ _ _ H).
    apply syscall_err in H. subst. rewrite Hf1. auto. }
  apply open_target_ok in H2 as [_ Hf2].
  assert (Hp2 : fs_files s2 !! path st =
     match fs_files s !! path st with
     | Some f => Some f
     | None => Some (mkFile [] (default_mode e) false)
     end).
  { destruct Hf2 as [(f & Hf & ->)|(Hn & ->)].
    - rewrite Hf1 in Hf |- *. by rewrite Hf.
    - rewrite Hf1 in Hn |- *. by rewrite Hn, lookup_insert_eq. }
  right.
  assert (Hp : is_Some (fs_files s2 !! path st)) by (rewrite Hp2; case_match; eauto).
  apply bind_inv_err in H as [H|([] & s3 & H3 & H)].
  { unfold lock_exclusive in H. pose proof (syscall_err_op _ _ _ _ _ _ H).
    apply syscall_err in H. subst. split; [set_solver|done]. }
  apply lock_exclusive_ok in H3 as ->.
  apply bind_inv_err in H as [H|(t & s4 & H4 & H)].
  { unfold create_temp in H. pose proof (syscall_err_op _ _ _ _ _ _ H).
    apply syscall_err in H. subst. split; [set_solver|done]. }
  apply create_temp_ok in H4 as (_ & Ht & Hf4 & _). simpl in Ht.
  assert (Hne : t <> path st).
  { intros ->. destruct Hp as [f Hp]. simpl in Ht. congruence. }
  unfold on_error_remove in H.
  match type of H with
  | (match ?m s4 with _ => _ end) = _ => destruct (m s4) as [[y|y] s5] eqn:Hin
  end; [discriminate|].
  injection H as -> <-. simpl. rewrite lookup_delete_ne by done.
  pose proof (save_inner_err_op _ _ _ _ _ _ _ Hin) as Hx.
  apply save_inner_err in Hin; [|done]. rewrite Hin, Hf4.
  rewrite insert_lookup_ne_files by done. split; [set_solver|done].
Qed.

(** C1 (as amended): when [save] fails at any step, the file that was at
    the target path is still there, unchanged.  A target path where no
    file existed stays free only if the failure is in creating the parent
    directories or in opening the target; a failure at any later step
    (lock, temporary file, write, flush, permissions, sync, rename) leaves
    the empty file, with the default creation mode, that [save] created to
    take its lock, and a later [open] of that path (whose system calls
    succeed) then fails to parse it. *)
Theorem Store_save_failure_target (e : env) (st : Store) (s s' : fs) (x : err) :
  Store_save e st s = (Err x, s') ->
  (forall f, fs_files s !! path st = Some f -> fs_files s' !! path st = Some f) /\
  (fs_files s !! path st = None ->
   ((x = EIo OpCreateDirAll \/ x = EIo OpOpenTarget) /\
    fs_files s' !! path st = None) \/
   (x ∈ [EIo OpLockExclusive; EIo OpCreateTemp; EIo OpWrite; EIo OpFlush;
         EIo OpSetPermissions; EIo OpSync; EIo OpPersist] /\
    fs_files s' !! path st = Some (mkFile [] (default_mode e) false) /\
    forall e' : env,
      fails e' OpOpenRead = false -> fails e' OpLockShared = false ->
      fails e' OpRead = false ->
      fst (Store_open e' (path st) s') = Err (EParse EofWhileParsingValue))).
Proof.
  intros H. apply Store_save_err_cases in H as [(Hx & Hp)|(Hx & Hp)].
  - rewrite Hp. split; [auto|]. intros Hn. left. by rewrite Hn.
  - split.
    + intros f Hf. by rewrite Hp, Hf.
    + intros Hn. rewrite Hn in Hp. right. split; [done|]. split; [done|].
      intros e' H1 H2 H3. rewrite (Store_open_read e' (path st) s' _ H1 H2 H3 Hp).
      reflexivity.
Qed.

Lemma Store_save_failure_target_witness :
  Store_save (env_failing OpSync) store_ab fs_empty =
    (Err (EIo OpSync), snd (Store_save (env_failing OpSync) store_ab fs_empty)) /\
  ((forall f, fs_files fs_empty !! path store_ab = Some f ->
     fs_files (snd (Store_save (env_failing OpSync) store_ab fs_empty)) !! path store_ab = Some f) /\
   (fs_files fs_empty !! path store_ab = None ->
    ((EIo OpSync = EIo OpCreateDirAll \/ EIo OpSync = EIo OpOpenTarget) /\
     fs_files (snd (Store_save (env_failing OpSync) store_ab fs_empty)) !! path store_ab = None) \/
    (EIo OpSync ∈ [EIo OpLockExclusive; EIo OpCreateTemp; EIo OpWrite; EIo OpFlush;
                   EIo OpSetPermissions; EIo OpSync; EIo OpPersist] /\
     fs_files (snd (Store_save (env_failing OpSync) store_ab fs_empty)) !! path store_ab =
       Some (mkFile [] (default_mode (env_failing OpSync)) false) /\
     forall e' : env,
       fails e' OpOpenRead = false -> fails e' OpLockShared = false ->
       fails e' OpRead = false ->
       fst (Store_open e' (path store_ab) (snd (Store_save (env_failing OpSync) store_ab fs_empty))) =
         Err (EParse EofWhileParsingValue)))).
Proof.
  split; [vm_compute; reflexivity|].
  apply (Store_save_failure_target (env_failing OpSync) store_ab fs_empty _ (EIo OpSync)).
  vm_compute; reflexivity.
Defined.

(** C1 fails as stated: on a path where no file existed, a [save] whose lock
    acquisition fails leaves an empty file behind (created to be locked),
    and the next [open] of that path fails to parse it. *)
Lemma Store_save_failure_leaves_empty_file :
  fs_files fs_empty !! path store_ab = None /\
  fst (Store_save (env_failing OpLockExclusive) store_ab fs_empty) =
    Err (EIo OpLockExclusive) /\
  fs_files (snd (Store_save (env_failing OpLockExclusive) store_ab fs_empty))
    !! path store_ab = Some (mkFile [] 420 false) /\
  fst (Store_open env_ok (path store_ab)
         (snd (Store_save (env_failing OpLockExclusive) store_ab fs_empty))) =
    Err (EParse EofWhileParsingValue).
Proof. vm_compute. repeat split. Qed.

(** *** [open] *)

(** C7: on a path where nothing exists, [open] returns the empty collection
    and leaves the file system as it was: no file is created. *)
Theorem Store_open_missing (e : env) (p : Path) (s : fs) :
  fs_files s !! p = None -> p ∉ fs_dirs s ->
  Store_open e p s = (Ok (mkStore [] p), s).
Proof.
  intros Hf Hd. unfold Store_open, path_exists, file_exists.
  rewrite Hf. rewrite (bool_decide_eq_false_2 (is_Some None)) by apply is_Some_None.
  rewrite bool_decide_eq_false_2 by exact Hd. reflexivity.
Qed.

Lemma Store_open_missing_witness :
  fs_files fs_empty !! path store_ab = None /\ (path store_ab ∉ fs_dirs fs_empty) /\
  Store_open env_ok (path store_ab) fs_empty = (Ok (mkStore [] (path store_ab)), fs_empty).
Proof.
  assert (Hf : fs_files fs_empty !! path store_ab = None) by (vm_compute; reflexivity).
  assert (Hd : path store_ab ∉ fs_dirs fs_empty) by (simpl; set_solver).
  split; [exact Hf|]. split; [exact Hd|].
  apply (Store_open_missing env_ok (path store_ab) fs_empty Hf Hd).
Defined.

(** C6 fails as stated: a file holding a record written as a JSON array
    (not an object) opens without error, and a file that is not UTF-8 fails
    with a read error, not a parse error. *)
Lemma Store_open_accepts_array_record :
  fst (Store_open env_ok (path store_ab) (fs_with (path store_ab) array_record_file)) =
    Ok (mkStore [mkContact (zs "1") (zs "n") (zs "e") None] (path store_ab)) /\
  fst (Store_open env_ok (path store_ab) (fs_with (path store_ab) [255])) =
    Err (EIo OpRead).
Proof. split; vm_compute; reflexivity. Qed.

(** *** The JSON round trip *)

Ltac zlia := Z.div_mod_to_equations; lia.

Ltac zbool :=
  repeat match goal with
  | |- context [Z.ltb ?a ?b] =>
    first [rewrite (proj2 (Z.ltb_lt a b)) by zlia | rewrite (proj2 (Z.ltb_ge a b)) by zlia]
  | |- context [Z.leb ?a ?b] =>
    first [rewrite (proj2 (Z.leb_le a b)) by zlia | rewrite (proj2 (Z.leb_gt a b)) by zlia]
  | |- context [Z.eqb ?a ?b] =>
    first [rewrite (proj2 (Z.eqb_eq a b)) by zlia | rewrite (proj2 (Z.eqb_neq a b)) by zlia]
  end.

Lemma from_utf8_cons b1 rest :
  from_utf8 (b1 :: rest) =
    if (0 <=? b1) && (b1 <? 0x80) then
      match from_utf8 rest with Some s => Some (b1 :: s) | None => None end
    else if (0xC2 <=? b1) && (b1 <=? 0xDF) then
      match rest with
      | b2 :: rest2 =>
        if is_cont b2 then
          match from_utf8 rest2 with
          | Some s => Some ((b1 - 0xC0) * 64 + (b2 - 0x80) :: s)
          | None => None
          end
        else None
      | [] => None
      end
    else if (0xE0 <=? b1) && (b1 <=? 0xEF) then
      match rest with
      | b2 :: b3 :: rest3 =>
        let lo := if b1 =? 0xE0 then 0xA0 else 0x80 in
        let hi := if b1 =? 0xED then 0x9F else 0xBF in
        if (lo <=? b2) && (b2 <=? hi) && is_cont b3 then
          match from_utf8 rest3 with
          | Some s =>
            Some ((b1 - 0xE0) * 4096 + (b2 - 0x80) * 64 + (b3 - 0x80) :: s)
          | None => None
          end
        else None
      | _ => None
      end
    else if (0xF0 <=? b1) && (b1 <=? 0xF4) then
      match rest with
      | b2 :: b3 :: b4 :: rest4 =>
        let lo := if b1 =? 0xF0 then 0x90 else 0x80 in
        let hi := if b1 =? 0xF4 then 0x8F else 0xBF in
        if (lo <=? b2) && (b2 <=? hi) && is_cont b3 && is_cont b4 then
          match from_utf8 rest4 with
          | Some s =>
            Some ((b1 - 0xF0) * 262144 + (b2 - 0x80) * 4096
                  + (b3 - 0x80) * 64 + (b4 - 0x80) :: s)
          | None => None
          end
        else None
      | _ => None
      end
    else None.
Proof. reflexivity. Qed.

Lemma from_utf8_encode c bs :
  valid_scalar c ->
  from_utf8 (encode_utf8_char c ++ bs) =
  match from_utf8 bs with Some s => Some (c :: s) | None => None end.
Proof.
  intros [Hr Hs]. unfold encode_utf8_char.
  destruct (Z.ltb_spec c 0x80).
  { cbn [app]. rewrite from_utf8_cons. zbool. reflexivity. }
  destruct (Z.ltb_spec c 0x800).
  { cbn [app]. rewrite from_utf8_cons. unfold is_cont. zbool. cbn [andb].
    replace ((0xC0 + c / 64 - 0xC0) * 64 + (0x80 + c mod 64 - 0x80)) with c by zlia.
    reflexivity. }
  destruct (Z.ltb_spec c 0x10000).
  { cbn [app]. rewrite from_utf8_cons. unfold is_cont. zbool.
    repeat match goal with |- context [Z.eqb ?a ?b] => destruct (Z.eqb_spec a b) end;
    zbool; cbn [andb];
    replace ((0xE0 + c / 4096 - 0xE0) * 4096 + (0x80 + (c / 64) mod 64 - 0x80) * 64
             + (0x80 + c mod 64 - 0x80)) with c by zlia;
    reflexivity. }
  { cbn [app]. rewrite from_utf8_cons. unfold is_cont. zbool.
    repeat match goal with |- context [Z.eqb ?a ?b] => destruct (Z.eqb_spec a b) end;
    zbool; cbn [andb];
    replace ((0xF0 + c / 262144 - 0xF0) * 262144 + (0x80 + (c / 4096) mod 64 - 0x80) * 4096
             + (0x80 + (c / 64) mod 64 - 0x80) * 64 + (0x80 + c mod 64 - 0x80)) with c by zlia;
    reflexivity. }
Qed.
Lemma parse_str_body_escape c r :
  0 <= c -> parse_str_body (escape_char c ++ r) = cons_str c (parse_str_body r).
Proof.
  intros Hc. destruct (Z.ltb_spec c 32).
  - assert (exists n : nat, c = Z.of_nat n /\ (n < 32)%nat) as (n & -> & Hn).
    { exists (Z.to_nat c). lia. }
    do 32 (destruct n as [|n]; [reflexivity|]). lia.
  - destruct (Z.eqb_spec c QUOTE) as [->|Hq]; [reflexivity|].
    destruct (Z.eqb_spec c BSLASH) as [->|Hb]; [reflexivity|].
    unfold escape_char. unfold QUOTE, BSLASH, NL, CR, TAB in *. zbool.
    cbn [app parse_str_body]. unfold QUOTE, BSLASH. zbool. reflexivity.
Qed.

Lemma parse_str_body_ser s r :
  Forall (fun c => 0 <= c) s ->
  parse_str_body (flat_map escape_char s ++ QUOTE :: r) = Ok (s, r).
Proof.
  induction 1 as [|c s Hc Hs IH]; [reflexivity|].
  cbn [flat_map]. rewrite <- app_assoc, parse_str_body_escape by done.
  rewrite IH. reflexivity.
Qed.

Lemma parse_whitespace_app ws r :
  forallb is_ws ws = true -> parse_whitespace (ws ++ r) = parse_whitespace r.
Proof.
  induction ws as [|c ws IH]; [done|]. cbn. intros Hw.
  apply andb_true_iff in Hw as [-> Hw]. auto.
Qed.

Lemma parse_whitespace_stop c r :
  is_ws c = false -> parse_whitespace (c :: r) = c :: r.
Proof. cbn. intros ->. done. Qed.

Lemma spaces_ws n : forallb is_ws (repeat SPACE n) = true.
Proof. induction n as [|n IH]; [done|]. exact IH. Qed.

Lemma indent_ws st lvl : forallb is_ws (indent st lvl) = true.
Proof. destruct st; [done|]. apply spaces_ws. Qed.

Lemma end_nonempty_ws st lvl : forallb is_ws (end_nonempty st lvl) = true.
Proof. destruct st; [done|]. cbn. apply spaces_ws. Qed.
Lemma from_utf8_to_utf8 t : valid_rstring t -> from_utf8 (to_utf8 t) = Some t.
Proof.
  induction 1 as [|c t Hc Ht IH]; [reflexivity|].
  unfold to_utf8. cbn [flat_map]. rewrite from_utf8_encode by done.
  unfold to_utf8 in IH. rewrite IH. reflexivity.
Qed.

Lemma ser_str_app s r :
  ser_str s ++ r = QUOTE :: flat_map escape_char s ++ QUOTE :: r.
Proof. unfold ser_str. cbn. by rewrite <- app_assoc. Qed.

Lemma deserialize_string_ser ws s r :
  forallb is_ws ws = true -> Forall (fun c => 0 <= c) s ->
  deserialize_string (ws ++ ser_str s ++ r) = Ok (s, r).
Proof.
  intros Hws Hs. unfold deserialize_string.
  rewrite parse_whitespace_app, ser_str_app by done.
  cbn. apply parse_str_body_ser, Hs.
Qed.

Lemma valid_nonneg s : valid_rstring s -> Forall (fun c => 0 <= c) s.
Proof. intros H. eapply Forall_impl; [exact H|]. intros c [[? _] _]. done. Qed.

Lemma visit_field_id : visit_field (zs "id") = F_id.
Proof. reflexivity. Qed.
Lemma visit_field_name : visit_field (zs "name") = F_name.
Proof. reflexivity. Qed.
Lemma visit_field_email : visit_field (zs "email") = F_email.
Proof. reflexivity. Qed.
Lemma visit_field_phone : visit_field (zs "phone") = F_phone.
Proof. reflexivity. Qed.

Lemma parse_object_colon_sep st Z0 :
  exists ws, forallb is_ws ws = true /\
    parse_object_colon (key_sep st ++ Z0) = Ok (ws ++ Z0).
Proof. destruct st; [exists []|exists [SPACE]]; split; reflexivity. Qed.

Lemma visit_field_value_ok acc k v st r :
  field_ok (k, v) -> valid_jval v -> slot_free acc (visit_field k) ->
  visit_field_value (visit_field k) acc (key_sep st ++ ser_val v ++ r) =
    Ok (add_field acc (k, v), r).
Proof.
  intros Hf Hv Hfree.
  destruct (parse_object_colon_sep st (ser_val v ++ r)) as (ws & Hws & Hc).
  unfold add_field. cbn [fst snd].
  unfold field_ok in Hf. cbn [fst snd] in Hf.
  destruct Hf as [[Hk [s ->]]|Hk].
  - apply valid_nonneg in Hv.
    destruct Hk as [-> | [-> | ->]];
      [rewrite visit_field_id in *|rewrite visit_field_name in *|rewrite visit_field_email in *];
      cbn [visit_field_value ser_val sl_id sl_name sl_email sl_phone] in Hfree, Hc |- *;
      rewrite Hfree, Hc; cbn [bind_r]; rewrite deserialize_string_ser by done; reflexivity.
  - subst k. rewrite visit_field_phone in *.
    cbn [visit_field_value sl_phone] in Hfree |- *. rewrite Hfree, Hc. cbn [bind_r].
    unfold deserialize_option_string. rewrite parse_whitespace_app by done.
    destruct v as [s|]; cbn [ser_val].
    + apply valid_nonneg in Hv. rewrite ser_str_app. cbn.
      rewrite <- ser_str_app, deserialize_string_ser by done. reflexivity.
    + reflexivity.
Qed.

Lemma visit_map_key f first acc st lvl Y :
  visit_map (S f) first acc (begin_value st lvl first ++ QUOTE :: Y) =
    (let? (k, s4) := parse_str_body Y in
     let? (acc', s6) := visit_field_value (visit_field k) acc s4 in
     visit_map f false acc' s6).
Proof.
  destruct st, first; cbn [begin_value indent app].
  - reflexivity.
  - reflexivity.
  - cbn [visit_map parse_whitespace is_ws NL SPACE TAB CR Z.eqb orb].
    rewrite parse_whitespace_app by apply spaces_ws. reflexivity.
  - cbn [visit_map parse_whitespace is_ws NL COMMA SPACE TAB CR Z.eqb orb].
    cbn. rewrite parse_whitespace_app by apply spaces_ws. reflexivity.
Qed.

Lemma visit_field_cases k :
  (k = zs "id" /\ visit_field k = F_id) \/ (k = zs "name" /\ visit_field k = F_name) \/
  (k = zs "email" /\ visit_field k = F_email) \/ (k = zs "phone" /\ visit_field k = F_phone) \/
  (k <> zs "id" /\ k <> zs "name" /\ k <> zs "email" /\ k <> zs "phone" /\
   visit_field k = F_ignore).
Proof.
  unfold visit_field.
  case_decide; [left; done|]. case_decide; [right; left; done|].
  case_decide; [right; right; left; done|]. case_decide; [right; right; right; left; done|].
  right; right; right; right. done.
Qed.

Lemma slot_free_add acc k v k' :
  k <> k' -> slot_free acc (visit_field k') ->
  slot_free (add_field acc (k, v)) (visit_field k').
Proof.
  intros Hne Hfree. unfold add_field. cbn [fst snd].
  destruct (visit_field_cases k) as [[-> ->]|[[-> ->]|[[-> ->]|[[-> ->]|(_ & _ & _ & _ & ->)]]]];
  destruct (visit_field_cases k') as [[-> Hk']|[[-> Hk']|[[-> Hk']|[[-> Hk']|(_ & _ & _ & _ & Hk')]]]];
  rewrite Hk' in *; cbn; try done; congruence.
Qed.

Lemma length_write_fields st lvl first fs :
  (length fs <= length (write_fields st lvl first fs))%nat.
Proof.
  revert first. induction fs as [|[k v] fs IH]; intros first; [cbn; lia|].
  cbn [write_fields]. rewrite !length_app. unfold ser_str. rewrite !length_app.
  cbn [length]. specialize (IH false). lia.
Qed.

Lemma lookup_key_notin k fs : k ∉ map fst fs -> lookup_key k fs = None.
Proof.
  induction fs as [|[k' v] fs IH]; [done|]. cbn. intros Hn.
  case_decide; [subst; set_solver|]. apply IH. set_solver.
Qed.

Lemma visit_map_fields st lvl lvl' fuel first acc fs rest :
  NoDup (map fst fs) -> Forall field_ok fs -> Forall (fun kv => valid_jval (snd kv)) fs ->
  Forall (fun kv => slot_free acc (visit_field (fst kv))) fs ->
  (length fs < fuel)%nat ->
  visit_map fuel first acc
    (write_fields st lvl first fs ++ end_nonempty st lvl' ++ RBRACE :: rest) =
  Ok (fill acc fs, RBRACE :: rest).
Proof.
  revert fuel first acc.
  induction fs as [|[k v] fs IH]; intros fuel first acc Hnd Hok Hv Hfree Hfuel;
    (destruct fuel as [|fuel]; [lia|]).
  - cbn [write_fields app visit_map].
    rewrite parse_whitespace_app by apply end_nonempty_ws. reflexivity.
  - cbn [write_fields]. rewrite <- !app_assoc, ser_str_app, visit_map_key.

    rewrite parse_str_body_ser.
    2: { inversion Hok as [|? ? Hk]; subst. destruct Hk as [[Hk _]|Hk]; cbn in Hk;
         [destruct Hk as [-> | [-> | ->]]|subst]; repeat constructor; lia. }
    cbn [bind_r].
    inversion Hok as [|? ? Hk Hok']; inversion Hv as [|? ? Hv1 Hv']; subst.
    inversion Hfree as [|? ? Hf1 Hfree']; subst. cbn in Hnd.
    apply NoDup_cons in Hnd as [Hnin Hnd].
    rewrite visit_field_value_ok by done. cbn [bind_r].
    rewrite IH; [reflexivity|done|done|done| |cbn in Hfuel; lia].
    apply Forall_forall. intros [k' v'] Hin. apply slot_free_add.
    + intros ->. apply Hnin. apply list_elem_of_In. change k' with (fst (k', v')).
      apply in_map. first [exact Hin | by apply list_elem_of_In].
    + rewrite Forall_forall in Hfree'. apply (Hfree' (k', v')), Hin.
Qed.

Lemma fill_slots acc fs :
  NoDup (map fst fs) ->
  sl_id (fill acc fs) =
    match lookup_key (zs "id") fs with Some v => str_of (Some v) | None => sl_id acc end /\
  sl_name (fill acc fs) =
    match lookup_key (zs "name") fs with Some v => str_of (Some v) | None => sl_name acc end /\
  sl_email (fill acc fs) =
    match lookup_key (zs "email") fs with Some v => str_of (Some v) | None => sl_email acc end /\
  sl_phone (fill acc fs) =
    match lookup_key (zs "phone") fs with Some v => Some (phone_of v) | None => sl_phone acc end.
Proof.
  revert acc. induction fs as [|[k v] fs IH]; intros acc Hnd; [done|].
  cbn in Hnd. apply NoDup_cons in Hnd as [Hnin Hnd].
  unfold fill. cbn [fold_left]. fold (fill (add_field acc (k, v)) fs).
  destruct (IH (add_field acc (k, v)) Hnd) as (Hi & Hn & He & Hp).
  rewrite Hi, Hn, He, Hp. cbn [lookup_key]. unfold add_field. cbn [fst snd].
  destruct (visit_field_cases k) as [[-> ->]|[[-> ->]|[[-> ->]|[[-> ->]|(H1 & H2 & H3 & H4 & ->)]]]].
  all: rewrite ?(lookup_key_notin _ fs Hnin).
  all: repeat case_decide; try done; cbn; repeat split; reflexivity.
Qed.

Lemma finish_map_fill o c :
  NoDup (map fst o) -> obj_record o = Some c -> finish_map (fill no_slots o) = Ok c.
Proof.
  intros Hnd Hc. destruct (fill_slots no_slots o Hnd) as (Hi & Hn & He & Hp).
  unfold finish_map. rewrite Hi, Hn, He, Hp. unfold obj_record in Hc.
  destruct (lookup_key (zs "id") o) as [[]|]; try discriminate;
  destruct (lookup_key (zs "name") o) as [[]|]; try discriminate;
  destruct (lookup_key (zs "email") o) as [[]|]; try discriminate.
  destruct (lookup_key (zs "phone") o); cbn in Hc |- *; injection Hc as <-; reflexivity.
Qed.

Lemma write_object_lbrace st lvl o : exists W, write_object st lvl o = LBRACE :: W.
Proof. destruct o; cbn; eauto. Qed.

Lemma deserialize_contact_object st o c rest :
  store_object o -> Forall (fun kv => valid_jval (snd kv)) o -> obj_record o = Some c ->
  deserialize_contact (write_object st 1 o ++ rest) = Ok (c, rest).
Proof.
  intros [Hnd Hok] Hv Hc. destruct o as [|kv o'].
  { discriminate. }
  unfold write_object. cbn [app]. unfold deserialize_contact.
  cbn [parse_whitespace is_ws]. cbn - [visit_map write_fields end_nonempty finish_map end_map].
  rewrite <- !app_assoc. cbn [app].
  rewrite visit_map_fields.
  - cbn [bind_r]. rewrite (finish_map_fill _ c) by done. cbn [bind_r]. reflexivity.
  - done.
  - done.
  - done.
  - apply Forall_forall. intros kv' _. destruct (visit_field (fst kv')); done.
  - rewrite length_app. pose proof (length_write_fields st 2 true (kv :: o')). lia.
Qed.

Lemma has_next_begin st first Y :
  has_next_element first (begin_value st 1 first ++ LBRACE :: Y) = Ok (true, LBRACE :: Y).
Proof.
  destruct st, first; cbn [begin_value indent app]; try reflexivity;
    cbn; rewrite parse_whitespace_app by apply spaces_ws; reflexivity.
Qed.

Lemma has_next_object st first o X :
  has_next_element first (begin_value st 1 first ++ write_object st 1 o ++ X) =
    Ok (true, write_object st 1 o ++ X).
Proof.
  destruct (write_object_lbrace st 1 o) as [W ->]. apply has_next_begin.
Qed.

Lemma length_write_elems st first objs :
  (length objs <= length (write_elems st first objs))%nat.
Proof.
  revert first. induction objs as [|o objs IH]; intros first; [cbn; lia|].
  cbn [write_elems]. rewrite !length_app.
  destruct (write_object_lbrace st 1 o) as [W ->]. cbn [length].
  specialize (IH false). lia.
Qed.

Lemma visit_seq_vec_elems st fuel first objs cs rest :
  Forall store_object objs ->
  Forall (fun o => Forall (fun kv => valid_jval (snd kv)) o) objs ->
  Forall2 (fun o c => obj_record o = Some c) objs cs ->
  (length objs < fuel)%nat ->
  visit_seq_vec fuel first
    (write_elems st first objs ++ end_nonempty st 0 ++ RBRACK :: rest) =
  Ok (cs, RBRACK :: rest).
Proof.
  intros Hso Hv Hcs. revert fuel first Hso Hv.
  induction Hcs as [|o c objs cs Hc Hcs IH]; intros fuel first Hso Hv Hfuel;
    (destruct fuel as [|fuel]; [lia|]).
  - cbn [write_elems app visit_seq_vec]. unfold has_next_element.
    rewrite parse_whitespace_app by apply end_nonempty_ws. reflexivity.
  - inversion Hso as [|? ? Ho Hso']; inversion Hv as [|? ? Hvo Hv']; subst.
    cbn [write_elems visit_seq_vec]. rewrite <- !app_assoc.
    rewrite has_next_object. cbn [bind_r].
    rewrite (deserialize_contact_object _ _ c) by done. cbn [bind_r].
    rewrite IH; [reflexivity|done|done|cbn in Hfuel; lia].
Qed.

Lemma from_str_write_array st objs cs :
  Forall store_object objs ->
  Forall (fun o => Forall (fun kv => valid_jval (snd kv)) o) objs ->
  Forall2 (fun o c => obj_record o = Some c) objs cs ->
  from_str (write_array st objs) = Ok cs.
Proof.
  intros Hso Hv Hcs. destruct objs as [|o objs'].
  { inversion Hcs. reflexivity. }
  unfold write_array, from_str, deserialize_vec. cbn [app parse_whitespace is_ws].
  cbn - [visit_seq_vec write_elems end_nonempty end_seq].
  rewrite <- ?app_assoc. cbn [app].
  rewrite (visit_seq_vec_elems st _ true (o :: objs') cs); [reflexivity|done|done|done|].
  rewrite length_app. pose proof (length_write_elems st true (o :: objs')). lia.
Qed.

Lemma valid_scalar_b_spec c : valid_scalar_b c = true -> valid_scalar c.
Proof.
  unfold valid_scalar_b, valid_scalar. intros H.
  apply andb_true_iff in H as [H H3]. apply andb_true_iff in H as [H1 H2].
  apply Z.leb_le in H1. apply Z.leb_le in H2. apply negb_true_iff in H3.
  split; [lia|]. intros [Ha Hb]. apply Z.leb_le in Ha. apply Z.leb_le in Hb.
  rewrite Ha, Hb in H3. discriminate.
Qed.

Lemma valid_ascii l : forallb valid_scalar_b l = true -> valid_rstring l.
Proof.
  intros H. apply Forall_forall. intros c Hc. apply valid_scalar_b_spec.
  eapply forallb_forall; [exact H|]. first [exact Hc | by apply list_elem_of_In].
Qed.

Lemma HEX_valid n : 0 <= n < 16 -> valid_scalar (HEX_DIGITS n).
Proof.
  intros Hn. unfold HEX_DIGITS, valid_scalar. destruct (Z.ltb_spec n 10); lia.
Qed.

Lemma escape_valid c : valid_scalar c -> valid_rstring (escape_char c).
Proof.
  intros Hc. pose proof Hc as [[H0 _] _]. unfold escape_char.
  repeat match goal with |- context [if ?b then _ else _] => destruct b eqn:? end;
    try (apply valid_ascii; reflexivity).
  - rewrite Z.ltb_lt in *. unfold valid_rstring.
    repeat (apply List.Forall_cons;
            [first [apply HEX_valid; zlia | unfold valid_scalar, BSLASH; lia]|]).
    apply List.Forall_nil.
  - apply List.Forall_cons; [exact Hc|apply List.Forall_nil].
Qed.

Lemma valid_app l1 l2 : valid_rstring l1 -> valid_rstring l2 -> valid_rstring (l1 ++ l2).
Proof. intros. by apply Forall_app. Qed.

Lemma ser_str_valid s : valid_rstring s -> valid_rstring (ser_str s).
Proof.
  intros Hs. unfold ser_str. apply valid_app; [apply valid_ascii; reflexivity|].
  apply valid_app; [|apply valid_ascii; reflexivity].
  induction Hs as [|c s Hc Hs IH]; [constructor|].
  cbn [flat_map]. apply valid_app; [apply escape_valid|]; done.
Qed.

Lemma ser_val_valid v : valid_jval v -> valid_rstring (ser_val v).
Proof. destruct v; cbn; [apply ser_str_valid|intros; apply valid_ascii; reflexivity]. Qed.

Lemma spaces_valid n : valid_rstring (repeat SPACE n).
Proof. induction n; constructor; [apply valid_scalar_b_spec; reflexivity|done]. Qed.

Lemma begin_value_valid st lvl first : valid_rstring (begin_value st lvl first).
Proof.
  destruct st, first; cbn [begin_value indent];
    try (apply valid_ascii; reflexivity);
    (apply valid_app; [apply valid_ascii; reflexivity|apply spaces_valid]).
Qed.

Lemma end_nonempty_valid st lvl : valid_rstring (end_nonempty st lvl).
Proof.
  destruct st; cbn [end_nonempty indent]; [constructor|].
  apply valid_app; [apply valid_ascii; reflexivity|apply spaces_valid].
Qed.

Lemma key_sep_valid st : valid_rstring (key_sep st).
Proof. destruct st; apply valid_ascii; reflexivity. Qed.

Lemma key_valid kv : field_ok kv -> valid_rstring (fst kv).
Proof.
  intros [[[-> | [-> | ->]] _] | ->]; apply valid_ascii; reflexivity.
Qed.

Lemma write_fields_valid st lvl first fs :
  Forall field_ok fs -> Forall (fun kv => valid_jval (snd kv)) fs ->
  valid_rstring (write_fields st lvl first fs).
Proof.
  intros Hok Hv. revert first.
  induction Hok as [|[k v] fs Hk Hok IH]; intros first; [constructor|].
  inversion Hv as [|? ? Hv1 Hv']; subst. cbn [write_fields].
  apply valid_app; [apply begin_value_valid|].
  apply valid_app; [apply ser_str_valid, (key_valid (k, v) Hk)|].
  apply valid_app; [apply key_sep_valid|].
  apply valid_app; [apply ser_val_valid, Hv1|].
  apply IH, Hv'.
Qed.

Lemma write_array_valid st objs :
  Forall store_object objs ->
  Forall (fun o => Forall (fun kv => valid_jval (snd kv)) o) objs ->
  valid_rstring (write_array st objs).
Proof.
  intros Hso Hv.
  assert (He : forall first, valid_rstring (write_elems st first objs)).
  { induction Hso as [|o objs [_ Hok] Hso IH]; intros first; [constructor|].
    inversion Hv as [|? ? Hv1 Hv']; subst. cbn [write_elems].
    apply valid_app; [apply begin_value_valid|]. apply valid_app; [|auto].
    destruct o; [apply valid_ascii; reflexivity|]. unfold write_object.
    apply valid_app; [apply valid_ascii; reflexivity|].
    apply valid_app; [apply write_fields_valid; done|].
    apply valid_app; [apply end_nonempty_valid|apply valid_ascii; reflexivity]. }
  destruct objs; [apply valid_ascii; reflexivity|]. unfold write_array.
  apply valid_app; [apply valid_ascii; reflexivity|].
  apply valid_app; [apply He|].
  apply valid_app; [apply end_nonempty_valid|apply valid_ascii; reflexivity].
Qed.

Lemma contact_fields_store_object c : store_object (contact_fields c).
Proof.
  split.
  - apply (bool_decide_unpack _). vm_compute. exact I.
  - unfold contact_fields. repeat apply List.Forall_cons; try apply List.Forall_nil;
      unfold field_ok; cbn [fst snd]; eauto 6.
Qed.

Lemma contact_fields_valid c :
  valid_contact c -> Forall (fun kv => valid_jval (snd kv)) (contact_fields c).
Proof.
  intros (Hi & Hn & He & Hp). unfold contact_fields.
  repeat apply List.Forall_cons; try apply List.Forall_nil; cbn [snd valid_jval]; try done.
  destruct (phone c); done.
Qed.

Lemma contact_fields_record c : obj_record (contact_fields c) = Some c.
Proof. destruct c as [i n e [p|]]; reflexivity. Qed.

Lemma contact_fields_records cs :
  Forall2 (fun o c => obj_record o = Some c) (map contact_fields cs) cs.
Proof.
  induction cs as [|c cs IH]; constructor; [apply contact_fields_record|exact IH].
Qed.

Lemma contacts_fields_store_object cs :
  Forall store_object (map contact_fields cs).
Proof.
  induction cs as [|c cs IH]; cbn [map]; constructor;
    [apply contact_fields_store_object|exact IH].
Qed.

Lemma contacts_fields_valid cs :
  Forall valid_contact cs ->
  Forall (fun o => Forall (fun kv => valid_jval (snd kv)) o) (map contact_fields cs).
Proof.
  induction 1 as [|c cs Hc Hcs IH]; cbn [map]; constructor;
    [apply contact_fields_valid, Hc|exact IH].
Qed.


(** *** Round trip through the backing file *)


(** C2: saving a collection of records (Rust strings) and opening the same
    path again gives back the same records in the same order, an absent
    phone included, when the reads of [open] do not fail. *)
Theorem Store_save_open_roundtrip (e e' : env) (st : Store) (s s' : fs) :
  Forall valid_contact (contacts st) ->
  Store_save e st s = (Ok tt, s') ->
  fails e' OpOpenRead = false -> fails e' OpLockShared = false ->
  fails e' OpRead = false ->
  fst (Store_open e' (path st) s') = Ok st.
Proof.
  intros Hval Hsave H1 H2 H3. apply Store_save_ok in Hsave as [_ Hf].
  rewrite (Store_open_read e' (path st) s' _ H1 H2 H3 Hf). cbn [f_data].
  unfold to_vec_pretty.
  pose proof (contacts_fields_store_object (contacts st)) as Hso.
  pose proof (contacts_fields_valid (contacts st) Hval) as Hv.
  rewrite from_utf8_to_utf8 by (apply write_array_valid; done).
  rewrite (from_str_write_array Pretty _ (contacts st)); [|done|done|].
  - destruct st; reflexivity.
  - apply contact_fields_records.
Qed.

Lemma Store_save_open_roundtrip_witness :
  Store_save env_ok store_ab fs_empty =
    (Ok tt, snd (Store_save env_ok store_ab fs_empty)) /\
  fst (Store_open env_ok (path store_ab) (snd (Store_save env_ok store_ab fs_empty))) =
    Ok store_ab.
Proof.
  split; [vm_compute; reflexivity|].
  apply (Store_save_open_roundtrip env_ok env_ok store_ab fs_empty).
  - repeat (apply List.Forall_cons;
            [repeat split; simpl; apply valid_ascii; reflexivity|]).
    apply List.Forall_nil.
  - vm_compute. reflexivity.
  - reflexivity.
  - reflexivity.
  - reflexivity.
Defined.

(** ** Further properties of the program *)

(** The footprint of [Store::open] on the file system. *)
Lemma Store_open_footprint e p s :
  fs_files (snd (Store_open e p s)) = fs_files s /\
  fs_dirs (snd (Store_open e p s)) = fs_dirs s /\
  exists l, l `prefix_of` [OpOpenRead; OpLockShared; OpRead] /\
            fs_log (snd (Store_open e p s)) = fs_log s ++ l.
Proof.
  unfold Store_open. destruct (path_exists s p).
  2:{ simpl. split; [done|split; [done|]]. exists []. rewrite app_nil_r.
      split; [apply prefix_nil|done]. }
  unfold bind, open_read, lock_shared, read_to_string, syscall.
  destruct (fails e OpOpenRead).
  { simpl. split; [done|split; [done|]]. exists []. rewrite app_nil_r.
    split; [apply prefix_nil|done]. }
  destruct (path_exists s p).
  2:{ simpl. split; [done|split; [done|]]. exists []. rewrite app_nil_r.
      split; [apply prefix_nil|done]. }
  destruct (fails e OpLockShared).
  { simpl. split; [done|split; [done|]]. exists [OpOpenRead].
    split; [by apply prefix_cons, prefix_nil|done]. }
  destruct (fails e OpRead).
  { simpl. split; [done|split; [done|]]. exists [OpOpenRead; OpLockShared].
    split; [by apply prefix_cons, prefix_cons, prefix_nil|].
    simpl. by rewrite <- app_assoc. }
  simpl. destruct (fs_files s !! p) as [f|].
  2:{ simpl. split; [done|split; [done|]]. exists [OpOpenRead; OpLockShared].
      split; [by apply prefix_cons, prefix_cons, prefix_nil|].
      simpl. by rewrite <- app_assoc. }
  destruct (from_utf8 (f_data f)) as [t|].
  2:{ simpl. split; [done|split; [done|]]. exists [OpOpenRead; OpLockShared].
      split; [by apply prefix_cons, prefix_cons, prefix_nil|].
      simpl. by rewrite <- app_assoc. }
  destruct (from_str t); simpl; (split; [done|split; [done|]]);
    exists [OpOpenRead; OpLockShared; OpRead]; (split; [done|]);
    by rewrite <- !app_assoc.
Qed.

(** When the data path is a directory, [Store::open] fails with an I/O
    error of one of its read calls; it does not return an empty collection. *)
Lemma Store_open_directory e p s :
  fs_files s !! p = None -> p ∈ fs_dirs s ->
  exists o, o ∈ [OpOpenRead; OpLockShared; OpRead] /\
            fst (Store_open e p s) = Err (EIo o).
Proof.
  intros Hf Hd. unfold Store_open.
  assert (Hp : path_exists s p = true).
  { unfold path_exists. rewrite orb_true_iff. right. by apply bool_decide_eq_true_2. }
  rewrite Hp. unfold bind, open_read, lock_shared, read_to_string, syscall.
  rewrite Hp.
  destruct (fails e OpOpenRead); [exists OpOpenRead; split; [set_solver|done]|].
  destruct (fails e OpLockShared); [exists OpLockShared; split; [set_solver|done]|].
  exists OpRead. split; [set_solver|]. destruct (fails e OpRead); [done|].
  cbn. rewrite Hf. done.
Qed.

Lemma from_utf8_ascii bs :
  Forall (fun b => 0 <= b < 0x80) bs -> from_utf8 bs = Some bs.
Proof.
  induction 1 as [|b bs Hb _ IH]; [done|].
  rewrite from_utf8_cons.
  rewrite (proj2 (andb_true_iff _ _)) by (split; apply Z.leb_le || apply Z.ltb_lt; lia).
  rewrite IH. done.
Qed.

Lemma parse_whitespace_all t :
  Forall (fun c => is_ws c = true) t -> parse_whitespace t = [].
Proof. induction 1 as [|c t Hc _ IH]; simpl; [done|by rewrite Hc]. Qed.

(** A backing file that is empty or holds only JSON whitespace is not read
    as an empty collection: when the reads succeed, [open] fails with the
    parse error EOF while parsing a value. *)
Lemma Store_open_whitespace e p s f :
  fails e OpOpenRead = false -> fails e OpLockShared = false ->
  fails e OpRead = false ->
  fs_files s !! p = Some f ->
  Forall (fun b => is_ws b = true) (f_data f) ->
  fst (Store_open e p s) = Err (EParse EofWhileParsingValue).
Proof.
  intros H1 H2 H3 Hf Hws.
  rewrite (Store_open_read e p s f H1 H2 H3 Hf).
  rewrite from_utf8_ascii.
  2:{ eapply Forall_impl; [exact Hws|]. intros b Hb. unfold is_ws in Hb.
      rewrite !orb_true_iff, !Z.eqb_eq in Hb. unfold SPACE, NL, TAB, CR in Hb. lia. }
  unfold from_str, deserialize_vec. rewrite parse_whitespace_all by done. done.
Qed.


Lemma save_dirs_files e st s s1 :
  (match parent (path st) with
   | Some d => create_dir_all e d
   | None => ret tt
   end) s = (Ok tt, s1) -> fs_files s1 = fs_files s.
Proof.
  destruct (parent (path st)).
  - by intros [-> _]%create_dir_all_ok.
  - by intros [= <-].
Qed.

Lemma open_target_other e p s s1 q :
  open_target e p s = (Ok tt, s1) -> q <> p ->
  fs_files s1 !! q = fs_files s !! q /\ is_Some (fs_files s1 !! p).
Proof.
  intros H Hq. apply open_target_ok in H as [_ [(f & Hf & ->)|(_ & ->)]].
  - rewrite Hf. eauto.
  - rewrite lookup_insert_ne by done. rewrite lookup_insert_eq. eauto.
Qed.

Lemma save_inner_err_other e t p j s x s' q :
  q <> t ->
  (let! _ := write_all e t j in
   let! _ := flush e in
   let! _ := set_permissions e t 384 in
   let! _ := sync_all e t in
   persist e t p) s = (Err x, s') ->
  fs_files s' !! q = fs_files s !! q.
Proof.
  intros Hne H.
  apply bind_inv_err in H as [H|([] & s1 & H1 & H)].
  { unfold write_all in H. apply syscall_err in H. by subst. }
  apply write_all_ok in H1 as (f1 & _ & Hf1 & _).
  apply bind_inv_err in H as [H|([] & s2 & H2 & H)].
  { unfold flush in H. apply syscall_err in H. subst. rewrite Hf1.
    by apply insert_lookup_ne_files. }
  apply flush_ok in H2 as ->.
  apply bind_inv_err in H as [H|([] & s3 & H3 & H)].
  { unfold set_permissions in H. apply syscall_err in H. subst. simpl.
    rewrite Hf1. by apply insert_lookup_ne_files. }
  apply set_permissions_ok in H3 as (f3 & _ & Hf3 & _). simpl in Hf3.
  apply bind_inv_err in H as [H|([] & s4 & H4 & H)].
  { unfold sync_all in H. apply syscall_err in H. subst.
    rewrite Hf3, Hf1, !insert_lookup_ne_files by done. done. }
  apply sync_all_ok in H4 as (f4 & _ & Hf4 & _).
  unfold persist in H. apply syscall_err in H. subst.
  rewrite Hf4, Hf3, Hf1, !insert_lookup_ne_files by done. done.
Qed.

(** The paths that [save] may change. *)
Lemma Store_save_footprint e st s r s' q :
  Store_save e st s = (r, s') -> q <> path st ->
  fs_files s' !! q = fs_files s !! q.
Proof.
  intros H Hq. unfold Store_save in H.
  destruct r as [[]|x].
  - apply bind_inv_ok in H as ([] & s1 & H1 & H).
    apply save_dirs_files in H1.
    apply bind_inv_ok in H as ([] & s2 & H2 & H).
    apply (open_target_other _ _ _ _ q) in H2 as [Hq2 Hp2]; [|done].
    apply bind_inv_ok in H as ([] & s3 & H3 & H). apply lock_exclusive_ok in H3 as ->.
    apply bind_inv_ok in H as (t & s4 & H4 & H).
    apply create_temp_ok in H4 as (_ & Ht & Hf4 & _). simpl in Ht.
    assert (Hne : t <> path st) by (intros ->; destruct Hp2; congruence).
    apply on_error_remove_ok in H.
    apply bind_inv_ok in H as ([] & s5 & H5 & H).
    apply write_all_ok in H5 as (f5 & _ & Hfiles5 & _).
    apply bind_inv_ok in H as ([] & s6 & H6 & H). apply flush_ok in H6 as ->.
    apply bind_inv_ok in H as ([] & s7 & H7 & H).
    apply set_permissions_ok in H7 as (f7 & _ & Hfiles7 & _).
    apply bind_inv_ok in H as ([] & s8 & H8 & H).
    apply sync_all_ok in H8 as (f8 & _ & Hfiles8 & _).
    apply persist_ok in H as (f9 & _ & Hfiles9 & _).
    simpl in *. rewrite Hfiles9, lookup_insert_ne by done.
    destruct (decide (q = t)) as [->|Hqt].
    + rewrite lookup_delete_eq. rewrite <- H1, <- Hq2, Ht. done.
    + rewrite lookup_delete_ne by done.
      rewrite Hfiles8, Hfiles7, Hfiles5, Hf4, !insert_lookup_ne_files by done.
      rewrite Hq2, H1. done.
  - apply bind_inv_err in H as [H|([] & s1 & H1 & H)].
    { destruct (parent (path st)).
      - apply create_dir_all_err in H. by subst.
      - discriminate. }
    apply save_dirs_files in H1.
    apply bind_inv_err in H as [H|([] & s2 & H2 & H)].
    { unfold open_target in H. apply syscall_err in H. subst. by rewrite H1. }
    apply (open_target_other _ _ _ _ q) in H2 as [Hq2 Hp2]; [|done].
    rewrite <- H1, <- Hq2.
    apply bind_inv_err in H as [H|([] & s3 & H3 & H)].
    { unfold lock_exclusive in H. apply syscall_err in H. by subst. }
    apply lock_exclusive_ok in H3 as ->.
    apply bind_inv_err in H as [H|(t & s4 & H4 & H)].
    { unfold create_temp in H. apply syscall_err in H. by subst. }
    apply create_temp_ok in H4 as (_ & Ht & Hf4 & _). simpl in Ht.
    assert (Hne : t <> path st) by (intros ->; destruct Hp2; congruence).
    unfold on_error_remove in H.
    match type of H with
    | (match ?m s4 with _ => _ end) = _ => destruct (m s4) as [[y|y] s5] eqn:Hin
    end; [discriminate|].
    injection H as -> <-. simpl.
    destruct (decide (q = t)) as [->|Hqt].
    + rewrite lookup_delete_eq. done.
    + rewrite lookup_delete_ne by done.
      apply (save_inner_err_other _ _ _ _ _ _ _ q) in Hin; [|done]. rewrite Hin, Hf4.
      by apply insert_lookup_ne_files.
Qed.

(** Directories. *)
Lemma syscall_dirs {A : Type} e o (act : fs -> option (A * fs)) s :
  (forall s1 a s2, act s1 = Some (a, s2) -> fs_dirs s2 = fs_dirs s1) ->
  fs_dirs (snd (syscall e o act s)) = fs_dirs s.
Proof.
  intros Hact. unfold syscall. destruct (fails e o); [done|].
  destruct (act s) as [[a s2]|] eqn:Ha; [|done]. simpl. by apply Hact in Ha.
Qed.

Lemma bind_dirs {A B : Type} (m : M A) (k : A -> M B) s :
  (forall s, fs_dirs (snd (m s)) = fs_dirs s) ->
  (forall a s, fs_dirs (snd (k a s)) = fs_dirs s) ->
  fs_dirs (snd (bind m k s)) = fs_dirs s.
Proof.
  intros Hm Hk. unfold bind. specialize (Hm s).
  destruct (m s) as [[a|x] s1]; simpl in *; [by rewrite Hk|done].
Qed.

Ltac act_dirs :=
  intros ? ? ? Ha; unfold update_file, set_files in Ha;
  repeat (case_match || case_bool_decide); simplify_eq; done.

Lemma save_steps_dirs e st t s :
  fs_dirs (snd (on_error_remove t (
    let j := to_vec_pretty (contacts st) in
    let! _ := write_all e t j in
    let! _ := flush e in
    let! _ := set_permissions e t 384 in
    let! _ := sync_all e t in
    persist e t (path st)) s)) = fs_dirs s.
Proof.
  unfold on_error_remove.
  match goal with |- context [match ?m s with _ => _ end] =>
    assert (Hm : fs_dirs (snd (m s)) = fs_dirs s);
    [|destruct (m s) as [[a|x] s1]; simpl in *; done]
  end.
  apply bind_dirs; [intros; apply syscall_dirs; act_dirs|intros _ s1].
  apply bind_dirs; [intros; apply syscall_dirs; act_dirs|intros _ s2].
  apply bind_dirs; [intros; apply syscall_dirs; act_dirs|intros _ s3].
  apply bind_dirs; [intros; apply syscall_dirs; act_dirs|intros _ s4].
  apply syscall_dirs; act_dirs.
Qed.

Lemma create_dir_all_dirs e d s s1 :
  create_dir_all e d s = (Ok tt, s1) ->
  fs_dirs s1 = list_to_set (prefixes d) ∪ fs_dirs s \/ (d = [] /\ s1 = s).
Proof.
  unfold create_dir_all. case_decide; [unfold ret; intros [= <-]; auto|].
  intros Hs. apply syscall_ok in Hs as (_ & s2 & Hact & ->).
  destruct (existsb _ _); [discriminate|]. injection Hact as <-. simpl. auto.
Qed.

(** [save] never removes a directory, and after a successful save every
    directory on the way to the parent of the data path exists. *)
Lemma Store_save_dirs e st s r s' :
  Store_save e st s = (r, s') ->
  fs_dirs s ⊆ fs_dirs s' /\
  (r = Ok tt -> forall d q, parent (path st) = Some d -> q ∈ prefixes d -> q ∈ fs_dirs s').
Proof.
  intros H. unfold Store_save in H.
  destruct (match parent (path st) with
            | Some d => create_dir_all e d | None => ret tt end s)
    as [[[]|x] s1] eqn:H1.
  2:{ unfold bind in H. rewrite H1 in H. injection H as <- <-.
      split; [|discriminate].
      destruct (parent (path st)); [|discriminate].
      apply create_dir_all_err in H1 as ->. done. }
  assert (Hd1 : fs_dirs s ⊆ fs_dirs s1 /\
                (forall d q, parent (path st) = Some d -> q ∈ prefixes d -> q ∈ fs_dirs s1)).
  { destruct (parent (path st)) as [d|].
    - apply create_dir_all_dirs in H1 as [Hd|[-> ->]].
      + rewrite Hd. split; [set_solver|]. intros d' q [= <-] Hq.
        apply elem_of_union_l, elem_of_list_to_set. done.
      + split; [done|]. intros d' q [= <-] Hq. unfold prefixes in Hq. simpl in Hq. set_solver.
    - injection H1 as <-. split; [done|]. discriminate. }
  unfold bind at 1 in H. rewrite H1 in H.
  replace s' with (snd (r, s')) by done. rewrite <- H.
  match goal with |- context [fs_dirs (snd ?T)] =>
    assert (Hrest : fs_dirs (snd T) = fs_dirs s1); [|rewrite Hrest]
  end.
  { apply bind_dirs; [intros; apply syscall_dirs; act_dirs|intros _ s2].
    apply bind_dirs; [intros; apply syscall_dirs; act_dirs|intros _ s3].
    apply bind_dirs; [intros; apply syscall_dirs; act_dirs|intros t s4].
    apply save_steps_dirs. }
  destruct Hd1 as [Hs Hp]. split; [done|]. intros _. exact Hp.
Qed.


Lemma trim_start_infix s : exists l, s = l ++ trim_start s.
Proof.
  induction s as [|c s IH]; simpl; [by exists []|].
  destruct (is_whitespace c); [|by exists []].
  destruct IH as [l Hl]. exists (c :: l). simpl. by rewrite <- Hl.
Qed.

Lemma trim_start_head s :
  trim_start s = [] \/ exists c r, trim_start s = c :: r /\ is_whitespace c = false.
Proof.
  induction s as [|c s IH]; simpl; [auto|].
  destruct (is_whitespace c) eqn:Hc; [done|eauto].
Qed.

Lemma trim_start_idem s : trim_start (trim_start s) = trim_start s.
Proof.
  destruct (trim_start_head s) as [->|(c & r & -> & Hc)]; [done|].
  simpl. by rewrite Hc.
Qed.

Lemma trim_start_snoc l c :
  is_whitespace c = false -> exists k, trim_start (l ++ [c]) = k ++ [c].
Proof.
  intros Hc. induction l as [|a l IH]; simpl.
  - rewrite Hc. by exists [].
  - destruct (is_whitespace a); [done|]. by exists (a :: l).
Qed.

Lemma trim_infix s : exists l r, s = l ++ trim s ++ r.
Proof.
  destruct (trim_start_infix s) as [l Hl].
  destruct (trim_start_infix (rev (trim_start s))) as [m Hm].
  exists l, (rev m). unfold trim, trim_end.
  rewrite <- rev_app_distr, <- Hm, rev_involutive. done.
Qed.

Lemma trim_idem s : trim (trim s) = trim s.
Proof.
  unfold trim at 2 3. unfold trim.
  assert (Hst : trim_start (trim_end (trim_start s)) = trim_end (trim_start s)).
  { destruct (trim_start_head s) as [->|(c & r & -> & Hc)]; [done|].
    unfold trim_end. simpl.
    destruct (trim_start_snoc (rev r) c Hc) as [k ->].
    rewrite rev_app_distr. simpl. by rewrite Hc. }
  rewrite Hst. unfold trim_end. rewrite rev_involutive, trim_start_idem. done.
Qed.

Lemma str_len_app a b : str_len (a ++ b) = str_len a + str_len b.
Proof. unfold str_len, to_utf8. rewrite flat_map_app, length_app. lia. Qed.

Lemma str_len_nonneg a : 0 <= str_len a.
Proof. unfold str_len. lia. Qed.

Lemma str_len_trim s : str_len (trim s) <= str_len s.
Proof.
  destruct (trim_infix s) as (l & r & Hs). rewrite Hs at 2.
  rewrite !str_len_app. pose proof (str_len_nonneg l). pose proof (str_len_nonneg r). lia.
Qed.

Lemma valid_trim s : valid_rstring s -> valid_rstring (trim s).
Proof.
  destruct (trim_infix s) as (l & r & Hs). rewrite Hs at 1.
  unfold valid_rstring. rewrite !Forall_app. tauto.
Qed.

(** Success of [Contact::new], read off its code. *)
Lemma Contact_new_ok u n e p c :
  Contact_new u n e p = Ok c ->
  trim n <> [] /\ trim e <> [] /\ str_len n <= 200 /\ str_len e <= 320 /\
  (forall x, p = Some x -> str_len x <= 50) /\
  c = mkContact u (trim n) (trim e) (option_map trim p).
Proof.
  unfold Contact_new.
  destruct (is_empty (trim n)) eqn:Hn; [done|].
  destruct (is_empty (trim e)) eqn:He; [done|]. simpl.
  assert (trim n <> []) by (destruct (trim n); done).
  assert (trim e <> []) by (destruct (trim e); done).
  destruct (200 <? str_len n) eqn:L1; [done|].
  destruct (320 <? str_len e) eqn:L2; [done|].
  apply Z.ltb_ge in L1, L2.
  destruct p as [x|]; [destruct (50 <? str_len x) eqn:L3|].
  - done.
  - apply Z.ltb_ge in L3. intros [= <-]. repeat split; try done.
    intros y [= <-]. done.
  - intros [= <-]. repeat split; done.
Qed.

Lemma Contact_new_intro u n e p :
  trim n <> [] -> trim e <> [] -> str_len n <= 200 -> str_len e <= 320 ->
  (forall x, p = Some x -> str_len x <= 50) ->
  Contact_new u n e p = Ok (mkContact u (trim n) (trim e) (option_map trim p)).
Proof.
  intros Hn He L1 L2 L3. unfold Contact_new.
  destruct (trim n); [done|]. destruct (trim e); [done|]. simpl.
  rewrite (proj2 (Z.ltb_ge _ _) L1), (proj2 (Z.ltb_ge _ _) L2).
  destruct p as [x|]; [|done].
  by rewrite (proj2 (Z.ltb_ge _ _) (L3 x eq_refl)).
Qed.

(** A contact built by [Contact::new] has a non-empty, trimmed name and
    email within 200 and 320 bytes and a trimmed phone within 50 bytes, and
    building it again from its own fields gives the same contact. *)
Theorem Contact_new_normalized u n e p c :
  Contact_new u n e p = Ok c ->
  name c <> [] /\ email c <> [] /\
  trim (name c) = name c /\ trim (email c) = email c /\
  str_len (name c) <= 200 /\ str_len (email c) <= 320 /\
  (forall x, phone c = Some x -> trim x = x /\ str_len x <= 50) /\
  Contact_new (id c) (name c) (email c) (phone c) = Ok c.
Proof.
  intros H. apply Contact_new_ok in H as (Hn & He & L1 & L2 & L3 & ->). simpl.
  pose proof (str_len_trim n). pose proof (str_len_trim e).
  assert (L3' : forall x, option_map trim p = Some x -> trim x = x /\ str_len x <= 50).
  { intros x Hx. destruct p as [y|]; [|done]. injection Hx as <-.
    split; [apply trim_idem|]. pose proof (str_len_trim y). specialize (L3 y eq_refl). lia. }
  split; [done|]. split; [done|].
  split; [apply trim_idem|]. split; [apply trim_idem|].
  split; [lia|]. split; [lia|]. split; [done|].
  rewrite Contact_new_intro.
  - rewrite !trim_idem. f_equal. f_equal.
    destruct p; simpl; [by rewrite trim_idem|done].
  - by rewrite trim_idem.
  - by rewrite trim_idem.
  - lia.
  - lia.
  - intros x Hx. apply L3'. done.
Qed.

Lemma Contact_new_valid u n e p c :
  valid_rstring u -> valid_rstring n -> valid_rstring e ->
  (forall x, p = Some x -> valid_rstring x) ->
  Contact_new u n e p = Ok c -> valid_contact c.
Proof.
  intros Hu Hn He Hp H. apply Contact_new_ok in H as (_ & _ & _ & _ & _ & ->).
  unfold valid_contact. simpl. split; [done|].
  split; [by apply valid_trim|]. split; [by apply valid_trim|].
  destruct p as [x|]; [apply valid_trim, Hp; done|done].
Qed.

(** The collection. *)
Lemma filter_idem {A : Type} (f : A -> bool) (l : list A) :
  List.filter f (List.filter f l) = List.filter f l.
Proof.
  induction l as [|x l IH]; simpl; [done|].
  destruct (f x) eqn:Hx; simpl; [rewrite Hx, IH|]; done.
Qed.

(** Removing an id a second time removes nothing and returns [false]. *)
Theorem Store_remove_idempotent (st : Store) (i : rstring) :
  Store_remove (fst (Store_remove st i)) i = (fst (Store_remove st i), false).
Proof.
  unfold Store_remove. simpl. rewrite filter_idem, Nat.eqb_refl. done.
Qed.

Lemma filter_all {A : Type} (f : A -> bool) (l : list A) :
  Forall (fun x => f x = true) l -> List.filter f l = l.
Proof. induction 1 as [|x l Hx _ IH]; simpl; [done|by rewrite Hx, IH]. Qed.

(** Adding a contact whose id no stored contact has and then removing that
    id gives back the original collection, and [remove] returns [true]. *)
Theorem Store_add_remove (st : Store) (c : Contact) :
  Forall (fun c' => id c' <> id c) (contacts st) ->
  Store_remove (Store_add st c) (id c) = (st, true).
Proof.
  intros Hfresh. unfold Store_remove, Store_add. simpl.
  rewrite List.filter_app, filter_all.
  - simpl. rewrite bool_decide_eq_true_2 by done. simpl. rewrite app_nil_r.
    rewrite length_app. simpl. destruct st as [cs p]. simpl.
    replace (Nat.eqb (length cs + 1) (length cs)) with false; [done|].
    symmetry. apply Nat.eqb_neq. lia.
  - eapply Forall_impl; [exact Hfresh|]. intros x Hx.
    rewrite negb_true_iff. by apply bool_decide_eq_false_2.
Qed.


Ltac bool_hyps :=
  repeat match goal with
  | H : _ && _ = true |- _ => apply andb_true_iff in H as [? ?]
  | H : (_ <=? _) = true |- _ => apply Z.leb_le in H
  | H : (_ <? _) = true |- _ => apply Z.ltb_lt in H
  | H : (_ =? _) = true |- _ => apply Z.eqb_eq in H
  | H : (_ =? _) = false |- _ => apply Z.eqb_neq in H
  | H : is_cont _ = true |- _ => unfold is_cont in H
  | H : _ || _ = false |- _ => apply orb_false_iff in H as [? ?]
  | H : _ && _ = false |- _ => apply andb_false_iff in H as [?|?]
  | H : (_ <=? _) = false |- _ => apply Z.leb_gt in H
  | H : (_ <? _) = false |- _ => apply Z.ltb_ge in H
  | H : negb _ = false |- _ => apply negb_false_iff in H
  | H : negb _ = true |- _ => apply negb_true_iff in H
  end.

Lemma from_utf8_valid bs t : from_utf8 bs = Some t -> valid_rstring t.
Proof.
  revert t. induction bs as [bs IH] using (induction_ltof1 _ (@length Z)).
  unfold ltof in IH. intros t H. destruct bs as [|b1 rest].
  { injection H as <-. constructor. }
  rewrite from_utf8_cons in H. cbv zeta in H.
  repeat (case_match; try discriminate); injection H as <-; bool_hyps;
    (constructor; [unfold valid_scalar; subst; lia|]);
    (eapply IH; [|eassumption]; subst; simpl; lia).
Qed.

Lemma lor_bound a b k :
  0 <= a < 2 ^ k -> 0 <= b < 2 ^ k -> 0 <= Z.lor a b < 2 ^ k.
Proof.
  intros Ha Hb. split; [apply Z.lor_nonneg; lia|].
  destruct (Z.eq_dec (Z.lor a b) 0) as [->|Hn]; [lia|].
  assert (Hk : 0 <= k).
  { destruct (Z.neg_nonneg_cases k) as [Hk|Hk]; [|done].
    rewrite Z.pow_neg_r in Ha by done. lia. }
  assert (Hk0 : k <> 0).
  { intros ->. simpl in *. assert (a = 0) by lia. assert (b = 0) by lia. by subst. }
  apply Z.log2_lt_pow2; [pose proof (Z.lor_nonneg a b); lia|].
  rewrite Z.log2_lor by lia. apply Z.max_lub_lt.
  - destruct (Z.eq_dec a 0) as [->|]; [simpl; lia|apply Z.log2_lt_pow2; lia].
  - destruct (Z.eq_dec b 0) as [->|]; [simpl; lia|apply Z.log2_lt_pow2; lia].
Qed.

Lemma hex_val_bound c v : hex_val c = Some v -> 0 <= v < 16.
Proof. unfold hex_val. repeat case_match; intros; simplify_eq; bool_hyps; lia. Qed.

Lemma shiftl_bound x n k :
  0 <= n -> 0 <= x < 2 ^ (k - n) -> n <= k -> 0 <= Z.shiftl x n < 2 ^ k.
Proof.
  intros Hn Hx Hk. rewrite Z.shiftl_mul_pow2 by done.
  replace (2 ^ k) with (2 ^ (k - n) * 2 ^ n)
    by (rewrite <- Z.pow_add_r by lia; f_equal; lia).
  pose proof (Z.pow_pos_nonneg 2 n). nia.
Qed.

Lemma hex4_bound a b c d n : hex4 a b c d = Some n -> 0 <= n < 65536.
Proof.
  unfold hex4. repeat case_match; try discriminate. intros [= <-].
  repeat match goal with H : hex_val _ = Some _ |- _ => apply hex_val_bound in H end.
  change 65536 with (2 ^ 16).
  apply lor_bound; apply lor_bound;
    try (apply shiftl_bound; [lia| |lia]; cbn; lia); cbn; lia.
Qed.

Lemma simple_escape_valid e ch : simple_escape e = Some ch -> valid_scalar ch.
Proof.
  unfold simple_escape. unfold QUOTE, BSLASH, SLASH, NL, CR, TAB.
  repeat case_match; intros; simplify_eq; unfold valid_scalar; lia.
Qed.

Lemma valid_suffix r s : r `suffix_of` s -> valid_rstring s -> valid_rstring r.
Proof. intros [k ->]. unfold valid_rstring. rewrite Forall_app. tauto. Qed.

Lemma parse_str_body_valid s x r :
  parse_str_body s = Ok (x, r) ->
  r `suffix_of` s /\ (valid_rstring s -> valid_rstring x).
Proof.
  revert x r. induction s as [s IH] using (induction_ltof1 _ (@length Z)).
  unfold ltof in IH. intros x r H. destruct s as [|c s1]; [done|].
  cbn [parse_str_body] in H. unfold cons_str in H.
  repeat (case_match; try discriminate); simplify_eq;
    [split; [apply suffix_cons_r; reflexivity|intros; constructor]|..];
  match goal with Hp : parse_str_body ?y = Ok (?l, r) |- _ =>
    destruct (IH y ltac:(simpl; lia) _ _ Hp) as [Hs Hv] end;
  (split; [repeat apply suffix_cons_r; exact Hs|]);
  intros Hval; (constructor; [|apply Hv; eapply valid_suffix; [|exact Hval];
                                repeat apply suffix_cons_r; reflexivity]).
  - eapply simple_escape_valid; eassumption.
  - repeat match goal with H : hex4 _ _ _ _ = Some _ |- _ => apply hex4_bound in H end.
    bool_hyps;
    (assert (Hb : 0 <= Z.lor (Z.shiftl (z4 - 55296) 10) (z11 - 56320) < 2 ^ 20)
      by (apply lor_bound; [apply shiftl_bound; [lia| |lia]; cbn; lia|cbn; lia]));
    unfold valid_scalar; cbn in Hb; lia.
  - repeat match goal with H : hex4 _ _ _ _ = Some _ |- _ => apply hex4_bound in H end.
    bool_hyps; unfold valid_scalar; lia.
  - inversion Hval. done.
Qed.

Lemma sfx_trans (a b c : list Z) : a `suffix_of` b -> b `suffix_of` c -> a `suffix_of` c.
Proof. intros H1 H2. by transitivity b. Qed.

Lemma parse_whitespace_suffix s : parse_whitespace s `suffix_of` s.
Proof.
  induction s as [|c s IH]; simpl; [done|].
  destruct (is_ws c); [by apply suffix_cons_r|done].
Qed.

Lemma skip_digits_suffix s : skip_digits s `suffix_of` s.
Proof.
  induction s as [|c s IH]; simpl; [done|].
  destruct (is_digit c); [by apply suffix_cons_r|done].
Qed.

Ltac sfx_prep :=
  repeat match goal with
  | |- context [skip_digits ?l] =>
    let k := fresh "k" in let Ek := fresh "Ek" in let Hk := fresh "Hk" in
    remember (skip_digits l) as k eqn:Ek;
    pose proof (skip_digits_suffix l) as Hk; rewrite <- Ek in Hk; clear Ek
  end;
  repeat match goal with
  | H : parse_whitespace ?s = ?l |- _ =>
    let Hs := fresh "Hs" in
    pose proof (parse_whitespace_suffix s) as Hs; rewrite H in Hs; clear H
  end;
  repeat match goal with
  | H : ?x :: ?l `suffix_of` ?m |- _ =>
    let Hs := fresh "Hs" in
    assert (Hs : l `suffix_of` m) by (exact (suffix_cons_l _ _ _ H));
    revert H
  end; intros.

Ltac sfx_step :=
  first [ reflexivity | assumption
        | match goal with H : ?r `suffix_of` ?m |- ?r `suffix_of` _ =>
            apply (sfx_trans _ _ _ H); clear H end
        | apply suffix_cons_r ].

Ltac sfx := sfx_prep; solve [repeat sfx_step].

Lemma parse_ident_suffix i s r : parse_ident i s = Ok r -> r `suffix_of` s.
Proof.
  revert s. induction i as [|a i IH]; intros s H; simpl in H; [by injection H as <-|].
  destruct s as [|c s]; [done|]. destruct (c =? a); [|done].
  apply IH in H. sfx.
Qed.

Lemma ignore_str_suffix s r : ignore_str s = Ok r -> r `suffix_of` s.
Proof.
  revert r. induction s as [s IH] using (induction_ltof1 _ (@length Z)).
  unfold ltof in IH. intros r H. destruct s as [|c s1]; [done|].
  cbn [ignore_str] in H.
  repeat (case_match; try discriminate); subst; simplify_eq; try sfx;
  match goal with Hp : ignore_str ?y = Ok r |- _ =>
    pose proof (IH y ltac:(simpl; lia) _ Hp) end; sfx.
Qed.



Lemma ignore_exponent_suffix s r : ignore_exponent s = Ok r -> r `suffix_of` s.
Proof.
  unfold ignore_exponent. repeat (case_match; try discriminate); subst; intros; simplify_eq;
  sfx.
Qed.

Lemma ignore_decimal_suffix s r : ignore_decimal s = Ok r -> r `suffix_of` s.
Proof.
  unfold ignore_decimal. intros H.
  repeat (case_match; try discriminate); subst; simplify_eq;
  try match goal with H : ignore_exponent _ = Ok _ |- _ => apply ignore_exponent_suffix in H end;
  try match goal with H : skip_digits ?l = ?m |- _ =>
    pose proof (skip_digits_suffix l) as Hk; rewrite H in Hk; clear H end;
  sfx.
Qed.

Lemma ignore_integer_suffix s r : ignore_integer s = Ok r -> r `suffix_of` s.
Proof.
  unfold ignore_integer, bind_r. intros H.
  repeat (case_match; try discriminate); subst; simplify_eq;
  try match goal with H : ignore_exponent _ = Ok _ |- _ => apply ignore_exponent_suffix in H end;
  try match goal with H : ignore_decimal _ = Ok _ |- _ => apply ignore_decimal_suffix in H end;
  try match goal with H : skip_digits ?l = ?m |- _ =>
    pose proof (skip_digits_suffix l) as Hk; rewrite H in Hk; clear H end;
  sfx.
Qed.

Lemma ignore_value_suffix fuel :
  (forall s r, ignore_value fuel s = Ok r -> r `suffix_of` s) /\
  (forall s r, ignore_array_rest fuel s = Ok r -> r `suffix_of` s) /\
  (forall s r, ignore_object_rest fuel s = Ok r -> r `suffix_of` s).
Proof.
  induction fuel as [|f (IHv & IHa & IHo)]; [repeat split; discriminate|].
  split; [|split]; intros s r H;
    cbn [ignore_value ignore_array_rest ignore_object_rest] in H; unfold bind_r in H;
    repeat (case_match; try discriminate); subst; simplify_eq;
    repeat match goal with
    | H : parse_ident _ _ = Ok _ |- _ => apply parse_ident_suffix in H
    | H : ignore_str _ = Ok _ |- _ => apply ignore_str_suffix in H
    | H : ignore_integer _ = Ok _ |- _ => apply ignore_integer_suffix in H
    | H : ignore_value f _ = Ok _ |- _ => apply IHv in H
    | H : ignore_array_rest f _ = Ok _ |- _ => apply IHa in H
    | H : ignore_object_rest f _ = Ok _ |- _ => apply IHo in H
    end; sfx.
Qed.

Lemma deserialize_string_valid s x r :
  deserialize_string s = Ok (x, r) ->
  r `suffix_of` s /\ (valid_rstring s -> valid_rstring x).
Proof.
  unfold deserialize_string. intros H.
  destruct (parse_whitespace s) as [|c s1] eqn:Hw; [done|].
  destruct (c =? QUOTE); [|done].
  apply parse_str_body_valid in H as [Hs Hv].
  split; [sfx|]. intros Hval. apply Hv.
  pose proof (parse_whitespace_suffix s) as Hw'. rewrite Hw in Hw'.
  eapply valid_suffix; [|exact Hval]. by apply suffix_cons_l in Hw'.
Qed.

Lemma deserialize_option_string_valid s o r :
  deserialize_option_string s = Ok (o, r) ->
  r `suffix_of` s /\ (valid_rstring s -> forall x, o = Some x -> valid_rstring x).
Proof.
  unfold deserialize_option_string, bind_r. intros H.
  destruct (parse_whitespace s) as [|c s1] eqn:Hw; [done|].
  destruct (c =? 110).
  - destruct (parse_ident _ s1) as [r'|] eqn:Hi; [|done]. injection H as <- <-.
    apply parse_ident_suffix in Hi. split; [sfx|done].
  - destruct (deserialize_string s) as [[x' r']|] eqn:Hd; [|done].
    injection H as <- <-. apply deserialize_string_valid in Hd as [Hs Hv].
    split; [done|]. intros Hval x [= <-]. auto.
Qed.

Lemma parse_object_colon_suffix s r : parse_object_colon s = Ok r -> r `suffix_of` s.
Proof. unfold parse_object_colon. intros H. repeat (case_match; try discriminate); simplify_eq; sfx. Qed.

Lemma visit_field_value_valid f acc s acc' r :
  visit_field_value f acc s = Ok (acc', r) ->
  r `suffix_of` s /\ (valid_rstring s -> slots_valid acc -> slots_valid acc').
Proof.
  unfold visit_field_value, bind_r. intros H.
  destruct f; repeat (case_match; try discriminate); simplify_eq;
  repeat match goal with
  | Hp : parse_object_colon _ = Ok _ |- _ => apply parse_object_colon_suffix in Hp
  | Hd : deserialize_string _ = Ok _ |- _ => apply deserialize_string_valid in Hd as [Hs Hv]
  | Hd : deserialize_option_string _ = Ok _ |- _ =>
      apply deserialize_option_string_valid in Hd as [Hs Hv]
  | Hd : ignore_value _ _ = Ok _ |- _ => apply ignore_value_suffix in Hd as Hs
  end; (split; [sfx|]); intros Hval (Ha1 & Ha2 & Ha3 & Ha4);
  try match goal with Hv : valid_rstring ?a -> _ |- _ =>
    specialize (Hv ltac:(eapply valid_suffix; [|exact Hval]; sfx)) end;
  unfold slots_valid; simpl; (split; [|split; [|split]]);
  intros x Hx; simplify_eq; eauto.
Qed.

Lemma visit_map_valid fuel first acc s acc' r :
  visit_map fuel first acc s = Ok (acc', r) ->
  r `suffix_of` s /\ (valid_rstring s -> slots_valid acc -> slots_valid acc').
Proof.
  revert first acc s acc' r. induction fuel as [|f IH]; intros first acc s acc' r H; [done|].
  cbn [visit_map] in H. unfold bind_r in H.
  repeat (case_match; try discriminate); subst; simplify_eq;
    [split; [sfx|done]|..];
  repeat match goal with
  | Hp : parse_str_body _ = Ok _ |- _ => apply parse_str_body_valid in Hp as [? _]
  | Hp : parse_object_colon _ = Ok _ |- _ => apply parse_object_colon_suffix in Hp
  | Hp : visit_field_value _ _ _ = Ok _ |- _ => apply visit_field_value_valid in Hp as [? Hv1]
  | Hp : visit_map f _ _ _ = Ok _ |- _ => apply IH in Hp as [? Hv2]
  end.
  all: (split; [sfx|]); intros Hval Hacc; apply Hv2; [|apply Hv1; [|done]];
  eapply valid_suffix; try exact Hval; sfx.
Qed.

Lemma finish_map_valid acc c : finish_map acc = Ok c -> slots_valid acc -> valid_contact c.
Proof.
  unfold finish_map. intros H (H1 & H2 & H3 & H4).
  repeat (case_match; try discriminate); simplify_eq; unfold valid_contact; simpl;
    repeat split; eauto; repeat case_match; simplify_eq; eauto.
Qed.

Lemma end_map_suffix s r : end_map s = Ok r -> r `suffix_of` s.
Proof. unfold end_map. intros H. repeat (case_match; try discriminate); simplify_eq; sfx. Qed.

Lemma end_seq_suffix s r : end_seq s = Ok r -> r `suffix_of` s.
Proof. unfold end_seq. intros H. repeat (case_match; try discriminate); simplify_eq; sfx. Qed.

Lemma has_next_element_suffix first s b r :
  has_next_element first s = Ok (b, r) -> r `suffix_of` s.
Proof.
  unfold has_next_element, bind_r. intros H.
  repeat (case_match; try discriminate); subst; simplify_eq; sfx.
Qed.

Lemma visit_seq_contact_valid s c r :
  visit_seq_contact s = Ok (c, r) ->
  r `suffix_of` s /\ (valid_rstring s -> valid_contact c).
Proof.
  unfold visit_seq_contact, bind_r. intros H.
  repeat (case_match; try discriminate); subst; simplify_eq;
  repeat match goal with
  | Hp : has_next_element _ _ = Ok _ |- _ => apply has_next_element_suffix in Hp
  | Hp : deserialize_string _ = Ok _ |- _ =>
      let Hv := fresh "Hv" in apply deserialize_string_valid in Hp as [? Hv]
  | Hp : deserialize_option_string _ = Ok _ |- _ =>
      let Hv := fresh "Hv" in apply deserialize_option_string_valid in Hp as [? Hv]
  end.
  split; [sfx|]. intros Hval. unfold valid_contact. simpl.
  split; [|split; [|split]];
  try match goal with Hv : valid_rstring ?a -> valid_rstring ?x |- valid_rstring ?x =>
    apply Hv; eapply valid_suffix; [|exact Hval]; sfx end.
  case_match; [|done].
  match goal with Hv : valid_rstring ?a -> forall x, _ = Some x -> valid_rstring x |- _ =>
    eapply Hv; [eapply valid_suffix; [|exact Hval]; sfx|done] end.
Qed.

Lemma deserialize_contact_valid s c r :
  deserialize_contact s = Ok (c, r) ->
  r `suffix_of` s /\ (valid_rstring s -> valid_contact c).
Proof.
  unfold deserialize_contact, bind_r. intros H.
  repeat (case_match; try discriminate); subst; simplify_eq;
  repeat match goal with
  | Hp : end_seq _ = Ok _ |- _ => apply end_seq_suffix in Hp
  | Hp : end_map _ = Ok _ |- _ => apply end_map_suffix in Hp
  | Hp : visit_seq_contact _ = Ok _ |- _ => apply visit_seq_contact_valid in Hp as [? Hv]
  | Hp : visit_map _ _ _ _ = Ok _ |- _ => apply visit_map_valid in Hp as [? Hv]
  end.
  - split; [sfx|]. intros Hval. apply Hv. eapply valid_suffix; [|exact Hval]. sfx.
  - split; [sfx|]. intros Hval. eapply finish_map_valid; [eassumption|].
    apply Hv; [eapply valid_suffix; [|exact Hval]; sfx|].
    unfold slots_valid, no_slots. simpl. repeat split; discriminate.
Qed.

Lemma visit_seq_vec_valid fuel first s cs r :
  visit_seq_vec fuel first s = Ok (cs, r) ->
  r `suffix_of` s /\ (valid_rstring s -> Forall valid_contact cs).
Proof.
  revert first s cs r. induction fuel as [|f IH]; intros first s cs r H; [done|].
  cbn [visit_seq_vec] in H. unfold bind_r in H.
  repeat (case_match; try discriminate); subst; simplify_eq;
  repeat match goal with
  | Hp : has_next_element _ _ = Ok _ |- _ => apply has_next_element_suffix in Hp
  | Hp : deserialize_contact _ = Ok _ |- _ => apply deserialize_contact_valid in Hp as [? Hv1]
  | Hp : visit_seq_vec f _ _ = Ok _ |- _ => apply IH in Hp as [? Hv2]
  end.
  - split; [sfx|]. intros Hval. constructor.
    + apply Hv1. eapply valid_suffix; [|exact Hval]. sfx.
    + apply Hv2. eapply valid_suffix; [|exact Hval]. sfx.
  - split; [sfx|]. constructor.
Qed.

Lemma from_str_valid t cs : from_str t = Ok cs -> valid_rstring t -> Forall valid_contact cs.
Proof.
  unfold from_str, deserialize_vec, bind_r. intros H Hval.
  repeat (case_match; try discriminate); subst; simplify_eq.
  match goal with Hp : visit_seq_vec _ _ _ = Ok _ |- _ =>
    apply visit_seq_vec_valid in Hp as [_ Hv] end.
  apply Hv. eapply valid_suffix; [|exact Hval]. sfx.
Qed.


(** What a successful [open] returns. *)
Lemma Store_open_ok e p s st s1 :
  Store_open e p s = (Ok st, s1) ->
  path st = p /\ Forall valid_contact (contacts st).
Proof.
  unfold Store_open. destruct (path_exists s p).
  2:{ intros [= <- _]. split; [done|constructor]. }
  unfold bind, open_read, lock_shared, read_to_string, syscall, ret, fail.
  repeat (case_match; try discriminate); intros; simplify_eq.
  split; [done|]. eapply from_str_valid; [eassumption|].
  eapply from_utf8_valid. eassumption.
Qed.

Lemma path_exists_eq s s2 p :
  fs_files s2 = fs_files s -> fs_dirs s2 = fs_dirs s -> path_exists s2 p = path_exists s p.
Proof. intros Hf Hd. unfold path_exists, file_exists. by rewrite Hf, Hd. Qed.

(** [open] again on a state with the same files and directories, when the
    reads do not fail, gives the same collection. *)
Lemma Store_open_reopen e e' p s st s1 s2 :
  Store_open e p s = (Ok st, s1) ->
  fails e' OpOpenRead = false -> fails e' OpLockShared = false ->
  fails e' OpRead = false ->
  fs_files s2 = fs_files s -> fs_dirs s2 = fs_dirs s ->
  fst (Store_open e' p s2) = Ok st.
Proof.
  intros Ho H1 H2 H3 Hf Hd. unfold Store_open in *.
  rewrite (path_exists_eq s s2 p Hf Hd).
  destruct (path_exists s p) eqn:Hp; [|by injection Ho as <- _].
  unfold bind, open_read, lock_shared, read_to_string, syscall, ret in *.
  rewrite H1, H2, H3. rewrite (path_exists_eq s s2 p Hf Hd), Hp. cbn. rewrite Hf.
  rewrite Hp in Ho.
  repeat (case_match; try discriminate); simplify_eq; cbn in *; simplify_eq; congruence.
Qed.

Lemma save_open_roundtrip e e' st s s' :
  Forall valid_contact (contacts st) ->
  Store_save e st s = (Ok tt, s') ->
  fails e' OpOpenRead = false -> fails e' OpLockShared = false ->
  fails e' OpRead = false ->
  fst (Store_open e' (path st) s') = Ok st.
Proof.
  intros Hval Hsave H1 H2 H3. apply Store_save_ok in Hsave as [_ Hf].
  rewrite (Store_open_read e' (path st) s' _ H1 H2 H3 Hf). cbn [f_data].
  unfold to_vec_pretty.
  pose proof (contacts_fields_store_object (contacts st)) as Hso.
  pose proof (contacts_fields_valid (contacts st) Hval) as Hv.
  rewrite from_utf8_to_utf8 by (apply write_array_valid; done).
  rewrite (from_str_write_array Pretty _ (contacts st)); [|done|done|].
  - destruct st; reflexivity.
  - apply contact_fields_records.
Qed.

Lemma filter_length_same {A : Type} (f : A -> bool) (l : list A) :
  length (List.filter f l) = length l -> List.filter f l = l.
Proof. intros H. apply filter_all. by apply length_filter_eq. Qed.

Lemma Forall_filter' {A : Type} (P : A -> Prop) (f : A -> bool) (l : list A) :
  Forall P l -> Forall P (List.filter f l).
Proof.
  induction 1 as [|x l Hx _ IH]; simpl; [constructor|].
  destruct (f x); [constructor|]; done.
Qed.

(** ** [main] *)

(** When [Store::open] fails, [main] fails with that error for every
    command, prints nothing and changes neither files nor directories. *)
Theorem main_open_error e u to_lowercase p cmd s x :
  fst (Store_open e p s) = Err x ->
  exists s', main_run e u to_lowercase p cmd s = (Err x, [], s') /\
             fs_files s' = fs_files s /\ fs_dirs s' = fs_dirs s.
Proof.
  intros Ho. pose proof (Store_open_footprint e p s) as (Hf & Hd & _).
  unfold main_run. destruct (Store_open e p s) as [[st|y] s1]; simpl in *; [done|].
  injection Ho as ->. eauto.
Qed.

(** The [list] and [find] commands change neither files nor directories;
    the only calls they make are the reads of [open]. *)
Theorem main_list_find_read_only e u to_lowercase p cmd s :
  match cmd with
  | CList | CFind _ =>
    fs_files (snd (main_run e u to_lowercase p cmd s)) = fs_files s /\
    fs_dirs (snd (main_run e u to_lowercase p cmd s)) = fs_dirs s /\
    exists l, l `prefix_of` [OpOpenRead; OpLockShared; OpRead] /\
              fs_log (snd (main_run e u to_lowercase p cmd s)) = fs_log s ++ l
  | _ => True
  end.
Proof.
  pose proof (Store_open_footprint e p s) as H.
  destruct cmd; try done; unfold main_run;
    destruct (Store_open e p s) as [[st|y] s1]; exact H.
Qed.

(** [remove] of an id that no stored contact has prints
    No contact with id [i], succeeds without saving, and changes neither
    files nor directories. *)
Theorem main_remove_absent e u to_lowercase p i s st :
  fst (Store_open e p s) = Ok st ->
  Forall (fun c => id c <> i) (contacts st) ->
  exists s', main_run e u to_lowercase p (CRemove i) s =
               (Ok tt, [zs "No contact with id " ++ i], s') /\
             fs_files s' = fs_files s /\ fs_dirs s' = fs_dirs s.
Proof.
  intros Ho Hi. pose proof (Store_open_footprint e p s) as (Hf & Hd & _).
  unfold main_run. destruct (Store_open e p s) as [[st'|y] s1]; simpl in *; [|done].
  injection Ho as ->. unfold Store_remove.
  rewrite filter_all.
  2:{ eapply Forall_impl; [exact Hi|]. intros c Hc. simpl.
      rewrite negb_true_iff. by apply bool_decide_eq_false_2. }
  rewrite Nat.eqb_refl. simpl. eauto.
Qed.

(** An [add] whose fields [Contact::new] rejects fails, with the error of
    [open] if that failed and with the validation error otherwise; it
    prints nothing and changes neither files nor directories. *)
Theorem main_add_invalid e u to_lowercase p n em ph s x :
  Contact_new u n em ph = Err x ->
  exists s', main_run e u to_lowercase p (CAdd n em ph) s =
               (Err (match fst (Store_open e p s) with Err y => y | Ok _ => x end), [], s') /\
             fs_files s' = fs_files s /\ fs_dirs s' = fs_dirs s.
Proof.
  intros Hc. pose proof (Store_open_footprint e p s) as (Hf & Hd & _).
  unfold main_run. destruct (Store_open e p s) as [[st|y] s1]; simpl in *;
    [rewrite Hc|]; eauto.
Qed.

(** A successful [add] prints the line Adding contact: name <email> and the
    line Saved., and opening the data file afterwards gives the previous
    contacts followed by the new one. *)
Theorem main_add_reopen e e' u to_lowercase p n em ph s st c out s' :
  valid_rstring u -> valid_rstring n -> valid_rstring em ->
  (forall x, ph = Some x -> valid_rstring x) ->
  fst (Store_open e p s) = Ok st ->
  Contact_new u n em ph = Ok c ->
  main_run e u to_lowercase p (CAdd n em ph) s = (Ok tt, out, s') ->
  fails e' OpOpenRead = false -> fails e' OpLockShared = false ->
  fails e' OpRead = false ->
  out = [zs "Adding contact: " ++ name c ++ zs " <" ++ email c ++ zs ">"; zs "Saved."] /\
  fst (Store_open e' p s') = Ok (mkStore (contacts st ++ [c]) p).
Proof.
  intros Hu Hn He Hph Ho Hc H H1 H2 H3. unfold main_run in H.
  destruct (Store_open e p s) as [[st'|y] s1] eqn:Ho'; simpl in Ho; [|done].
  injection Ho as ->. rewrite Hc in H.
  destruct (Store_save e (Store_add st c) s1) as [[[]|y] s2] eqn:Hs; [|done].
  injection H as <- <-. split; [done|].
  apply Store_open_ok in Ho' as [Hp Hv].
  apply (save_open_roundtrip e e') in Hs; [|simpl; apply Forall_app; split;
    [done|constructor; [apply (Contact_new_valid u n em ph c); assumption|constructor]]|done|done|done].
  simpl in Hs. rewrite Hp in Hs. rewrite Hs. unfold Store_add. by rewrite Hp.
Qed.

(** A successful [remove] prints one line saying whether the id was found,
    and opening the data file afterwards gives the collection without the
    contacts of that id. *)
Theorem main_remove_reopen e e' u to_lowercase p i s st out s' :
  fst (Store_open e p s) = Ok st ->
  main_run e u to_lowercase p (CRemove i) s = (Ok tt, out, s') ->
  fails e' OpOpenRead = false -> fails e' OpLockShared = false ->
  fails e' OpRead = false ->
  out = [if snd (Store_remove st i) then zs "Removed contact " ++ i
         else zs "No contact with id " ++ i] /\
  fst (Store_open e' p s') = Ok (fst (Store_remove st i)).
Proof.
  intros Ho H H1 H2 H3. unfold main_run in H.
  destruct (Store_open e p s) as [[st'|y] s1] eqn:Ho'; simpl in Ho; [|done].
  injection Ho as ->.
  pose proof (Store_open_footprint e p s) as (Hf & Hd & _). rewrite Ho' in Hf, Hd.
  simpl in Hf, Hd.
  apply Store_open_ok in Ho' as Hok. destruct Hok as [Hp Hv].
  destruct (Store_remove st i) as [st2 removed] eqn:Hr. simpl.
  destruct removed.
  - destruct (Store_save e st2 s1) as [[[]|y] s2] eqn:Hs; [|done].
    injection H as <- <-. split; [done|].
    unfold Store_remove in Hr. injection Hr as <- _.
    apply (save_open_roundtrip e e') in Hs; [|simpl; by apply Forall_filter'|done|done|done].
    simpl in Hs. rewrite Hp in Hs |- *. done.
  - injection H as <- <-. split; [done|].
    unfold Store_remove in Hr. injection Hr as <- Hn.
    apply negb_false_iff, Nat.eqb_eq in Hn. symmetry in Hn.
    apply filter_length_same in Hn. rewrite Hn.
    rewrite (Store_open_reopen e e' p s st s1 s1 Ho' H1 H2 H3 Hf Hd).
    destruct st. simpl in *. by subst.
Qed.

(** No command of [main] changes a file other than the data file. *)
Theorem main_other_files e u to_lowercase p cmd s r out s' q :
  main_run e u to_lowercase p cmd s = (r, out, s') -> q <> p ->
  fs_files s' !! q = fs_files s !! q.
Proof.
  intros H Hq. pose proof (Store_open_footprint e p s) as (Hf & _ & _).
  unfold main_run in H.
  destruct (Store_open e p s) as [[st|y] s1] eqn:Ho; simpl in Hf.
  2:{ injection H as _ _ <-. by rewrite Hf. }
  apply Store_open_ok in Ho as [Hp _].
  destruct cmd as [n em ph|i| |qq].
  - destruct (Contact_new u n em ph) as [c|y]; [|injection H as _ _ <-; by rewrite Hf].
    destruct (Store_save e (Store_add st c) s1) as [r' s2] eqn:Hs.
    apply Store_save_footprint with (q := q) in Hs; [|simpl; by rewrite Hp].
    destruct r' as [[]|y]; injection H as _ _ <-; by rewrite Hs, Hf.
  - destruct (Store_remove st i) as [st2 []] eqn:Hr.
    + destruct (Store_save e st2 s1) as [r' s2] eqn:Hs.
      apply Store_save_footprint with (q := q) in Hs.
      2:{ unfold Store_remove in Hr. injection Hr as <-. simpl. by rewrite Hp. }
      destruct r' as [[]|y]; injection H as _ _ <-; by rewrite Hs, Hf.
    + injection H as _ _ <-. by rewrite Hf.
  - injection H as _ _ <-. by rewrite Hf.
  - injection H as _ _ <-. by rewrite Hf.
Qed.
(** [Store::open] changes neither the files nor the directories: it only
    appends to the log a prefix of its three read calls (open, shared lock,
    read). *)
Theorem Store_open_effect e p s :
  fs_files (snd (Store_open e p s)) = fs_files s /\
  fs_dirs (snd (Store_open e p s)) = fs_dirs s /\
  exists l, l `prefix_of` [OpOpenRead; OpLockShared; OpRead] /\
            fs_log (snd (Store_open e p s)) = fs_log s ++ l.
Proof. apply Store_open_footprint. Qed.

(** [save], whether it succeeds or fails, leaves every path other than the
    data path as it was: a temporary file it created is renamed or removed. *)
Theorem Store_save_other_paths e st s r s' q :
  Store_save e st s = (r, s') -> q <> path st ->
  fs_files s' !! q = fs_files s !! q.
Proof. apply Store_save_footprint. Qed.



(** When the data path is an existing directory, [save] fails with an error
    of [create_dir_all] or of opening the target, and leaves the files as
    they were. *)
Theorem Store_save_directory e st s :
  fs_files s !! path st = None -> path st ∈ fs_dirs s ->
  exists o, o ∈ [OpCreateDirAll; OpOpenTarget] /\
    fst (Store_save e st s) = Err (EIo o) /\
    fs_files (snd (Store_save e st s)) = fs_files s.
Proof.
  intros Hf Hd. unfold Store_save.
  destruct (match parent (path st) with
            | Some d => create_dir_all e d | None => ret tt end s)
    as [[[]|x] s1] eqn:H1.
  2:{ exists OpCreateDirAll. unfold bind. rewrite H1.
      destruct (parent (path st)) as [d|]; [|discriminate].
      pose proof H1 as H1'. apply create_dir_all_err in H1' as ->.
      unfold create_dir_all in H1. case_decide; [discriminate|].
      apply syscall_err_op in H1 as ->. split; [set_solver|split; done]. }
  assert (Hf1 : fs_files s1 = fs_files s) by (eapply save_dirs_files; exact H1).
  assert (Hd1 : path st ∈ fs_dirs s1).
  { destruct (parent (path st)) as [d|].
    - apply create_dir_all_dirs in H1 as [-> | [-> ->]]; [set_solver|done].
    - by injection H1 as <-. }
  exists OpOpenTarget. unfold bind. rewrite H1.
  unfold bind, open_target, syscall.
  destruct (fails e OpOpenTarget); [split; [set_solver|split; done]|].
  rewrite Hf1, Hf. rewrite bool_decide_eq_true_2 by done.
  split; [set_solver|split; done].
Qed.


Lemma Store_open_directory_witness :
  fs_files (fs_dir (path store_ab)) !! path store_ab = None /\
  path store_ab ∈ fs_dirs (fs_dir (path store_ab)) /\
  exists o, o ∈ [OpOpenRead; OpLockShared; OpRead] /\
            fst (Store_open env_ok (path store_ab) (fs_dir (path store_ab))) = Err (EIo o).
Proof.
  assert (Hf : fs_files (fs_dir (path store_ab)) !! path store_ab = None) by (vm_compute; reflexivity).
  assert (Hd : path store_ab ∈ fs_dirs (fs_dir (path store_ab))) by (simpl; set_solver).
  split; [exact Hf|]. split; [exact Hd|].
  apply (Store_open_directory env_ok (path store_ab) (fs_dir (path store_ab)) Hf Hd).
Defined.

Lemma Store_open_whitespace_witness :
  fs_files (fs_with (path store_ab) [32; 10]) !! path store_ab = Some (mkFile [32; 10] 384 true) /\
  fst (Store_open env_ok (path store_ab) (fs_with (path store_ab) [32; 10])) =
    Err (EParse EofWhileParsingValue).
Proof.
  assert (Hf : fs_files (fs_with (path store_ab) [32; 10]) !! path store_ab =
               Some (mkFile [32; 10] 384 true)) by (vm_compute; reflexivity).
  split; [exact Hf|].
  apply (Store_open_whitespace env_ok (path store_ab) (fs_with (path store_ab) [32; 10])
           (mkFile [32; 10] 384 true));
    [reflexivity|reflexivity|reflexivity|exact Hf|repeat constructor].
Defined.

Lemma Store_save_other_paths_witness :
  fs_files (snd (Store_save env_ok store_ab fs_empty)) !! ["data"; "tmp1"] =
    fs_files fs_empty !! ["data"; "tmp1"].
Proof.
  apply (Store_save_other_paths env_ok store_ab fs_empty
           (fst (Store_save env_ok store_ab fs_empty)) (snd (Store_save env_ok store_ab fs_empty))
           ["data"; "tmp1"]).
  - vm_compute. reflexivity.
  - vm_compute. discriminate.
Defined.

Lemma Store_save_dirs_witness :
  fs_dirs fs_empty ⊆ fs_dirs saved_ab /\
  (fst (Store_save env_ok store_ab fs_empty) = Ok tt ->
   forall d q, parent (path store_ab) = Some d -> q ∈ prefixes d -> q ∈ fs_dirs saved_ab).
Proof.
  apply (Store_save_dirs env_ok store_ab fs_empty
           (fst (Store_save env_ok store_ab fs_empty)) saved_ab).
  vm_compute. reflexivity.
Defined.

Lemma Store_save_directory_witness :
  fs_files (fs_dir (path store_ab)) !! path store_ab = None /\
  path store_ab ∈ fs_dirs (fs_dir (path store_ab)) /\
  exists o, o ∈ [OpCreateDirAll; OpOpenTarget] /\
    fst (Store_save env_ok store_ab (fs_dir (path store_ab))) = Err (EIo o) /\
    fs_files (snd (Store_save env_ok store_ab (fs_dir (path store_ab)))) =
      fs_files (fs_dir (path store_ab)).
Proof.
  assert (Hf : fs_files (fs_dir (path store_ab)) !! path store_ab = None) by (vm_compute; reflexivity).
  assert (Hd : path store_ab ∈ fs_dirs (fs_dir (path store_ab))) by (simpl; set_solver).
  split; [exact Hf|]. split; [exact Hd|].
  apply (Store_save_directory env_ok store_ab (fs_dir (path store_ab)) Hf Hd).
Defined.

Lemma Contact_new_normalized_witness :
  Contact_new (zs "u") (zs " Ann ") (zs "a@x") None = Ok (mkContact (zs "u") (zs "Ann") (zs "a@x") None) /\
  trim (zs "Ann") = zs "Ann" /\
  Contact_new (zs "u") (zs "Ann") (zs "a@x") None = Ok (mkContact (zs "u") (zs "Ann") (zs "a@x") None).
Proof.
  assert (H : Contact_new (zs "u") (zs " Ann ") (zs "a@x") None =
              Ok (mkContact (zs "u") (zs "Ann") (zs "a@x") None)) by (vm_compute; reflexivity).
  split; [exact H|].
  destruct (Contact_new_normalized (zs "u") (zs " Ann ") (zs "a@x") None _ H)
    as (_ & _ & Ht & _ & _ & _ & _ & Hc).
  split; [exact Ht|exact Hc].
Defined.

Lemma Store_add_remove_witness :
  Forall (fun c' => id c' <> id carol) (contacts store_ab) /\
  Store_remove (Store_add store_ab carol) (id carol) = (store_ab, true).
Proof.
  assert (H : Forall (fun c' => id c' <> id carol) (contacts store_ab))
    by (repeat constructor; vm_compute; discriminate).
  split; [exact H|]. apply (Store_add_remove store_ab carol H).
Defined.

Lemma main_open_error_witness :
  fst (Store_open env_ok (path store_ab) (fs_with (path store_ab) [255])) = Err (EIo OpRead) /\
  exists s', main_run env_ok (zs "3") (fun x => x) (path store_ab) CList
               (fs_with (path store_ab) [255]) = (Err (EIo OpRead), [], s') /\
             fs_files s' = fs_files (fs_with (path store_ab) [255]) /\
             fs_dirs s' = fs_dirs (fs_with (path store_ab) [255]).
Proof.
  assert (H : fst (Store_open env_ok (path store_ab) (fs_with (path store_ab) [255])) =
              Err (EIo OpRead)) by (vm_compute; reflexivity).
  split; [exact H|]. apply (main_open_error _ _ _ _ _ _ _ H).
Defined.

Lemma main_remove_absent_witness :
  fst (Store_open env_ok (path store_ab) saved_ab) = Ok store_ab /\
  exists s', main_run env_ok (zs "3") (fun x => x) (path store_ab) (CRemove (zs "zzz")) saved_ab =
               (Ok tt, [zs "No contact with id " ++ zs "zzz"], s') /\
             fs_files s' = fs_files saved_ab /\ fs_dirs s' = fs_dirs saved_ab.
Proof.
  assert (H : fst (Store_open env_ok (path store_ab) saved_ab) = Ok store_ab)
    by (vm_compute; reflexivity).
  split; [exact H|]. apply (main_remove_absent _ _ _ _ _ _ _ H).
  repeat constructor; vm_compute; discriminate.
Defined.

Lemma main_add_invalid_witness :
  Contact_new (zs "3") [] (zs "c@x") None = Err (EValidation NameEmailEmpty) /\
  exists s', main_run env_ok (zs "3") (fun x => x) (path store_ab) (CAdd [] (zs "c@x") None) saved_ab =
               (Err (match fst (Store_open env_ok (path store_ab) saved_ab) with
                     | Err y => y | Ok _ => EValidation NameEmailEmpty end), [], s') /\
             fs_files s' = fs_files saved_ab /\ fs_dirs s' = fs_dirs saved_ab.
Proof.
  assert (H : Contact_new (zs "3") [] (zs "c@x") None = Err (EValidation NameEmailEmpty))
    by (vm_compute; reflexivity).
  split; [exact H|]. apply (main_add_invalid _ _ _ _ _ _ _ _ _ H).
Defined.

Lemma main_add_reopen_witness :
  Contact_new (zs "3") (zs "Cy") (zs "c@x") None = Ok carol /\
  main_run env_ok (zs "3") (fun x => x) (path store_ab) (CAdd (zs "Cy") (zs "c@x") None) saved_ab =
    (Ok tt, snd (fst (main_run env_ok (zs "3") (fun x => x) (path store_ab)
                         (CAdd (zs "Cy") (zs "c@x") None) saved_ab)),
     snd (main_run env_ok (zs "3") (fun x => x) (path store_ab) (CAdd (zs "Cy") (zs "c@x") None) saved_ab)) /\
  fst (Store_open env_ok (path store_ab)
         (snd (main_run env_ok (zs "3") (fun x => x) (path store_ab)
                 (CAdd (zs "Cy") (zs "c@x") None) saved_ab))) =
    Ok (mkStore (contacts store_ab ++ [carol]) (path store_ab)).
Proof.
  assert (Hc : Contact_new (zs "3") (zs "Cy") (zs "c@x") None = Ok carol)
    by (vm_compute; reflexivity).
  assert (Hm : main_run env_ok (zs "3") (fun x => x) (path store_ab) (CAdd (zs "Cy") (zs "c@x") None) saved_ab =
    (Ok tt, snd (fst (main_run env_ok (zs "3") (fun x => x) (path store_ab)
                         (CAdd (zs "Cy") (zs "c@x") None) saved_ab)),
     snd (main_run env_ok (zs "3") (fun x => x) (path store_ab) (CAdd (zs "Cy") (zs "c@x") None) saved_ab)))
    by (vm_compute; reflexivity).
  split; [exact Hc|]. split; [exact Hm|].
  refine (proj2 (main_add_reopen env_ok env_ok (zs "3") (fun x => x) (path store_ab) (zs "Cy")
           (zs "c@x") None saved_ab store_ab carol
           (snd (fst (main_run env_ok (zs "3") (fun x => x) (path store_ab)
                        (CAdd (zs "Cy") (zs "c@x") None) saved_ab)))
           (snd (main_run env_ok (zs "3") (fun x => x) (path store_ab)
                   (CAdd (zs "Cy") (zs "c@x") None) saved_ab)) _ _ _ _ _ Hc Hm _ _ _)).
  - apply valid_ascii; reflexivity.
  - apply valid_ascii; reflexivity.
  - apply valid_ascii; reflexivity.
  - intros x Hx; discriminate.
  - vm_compute. reflexivity.
  - reflexivity.
  - reflexivity.
  - reflexivity.
Defined.

Lemma main_remove_reopen_witness :
  main_run env_ok (zs "3") (fun x => x) (path store_ab) (CRemove (zs "1")) saved_ab =
    (Ok tt, snd (fst (main_run env_ok (zs "3") (fun x => x) (path store_ab) (CRemove (zs "1")) saved_ab)),
     snd (main_run env_ok (zs "3") (fun x => x) (path store_ab) (CRemove (zs "1")) saved_ab)) /\
  fst (Store_open env_ok (path store_ab)
         (snd (main_run env_ok (zs "3") (fun x => x) (path store_ab) (CRemove (zs "1")) saved_ab))) =
    Ok (fst (Store_remove store_ab (zs "1"))).
Proof.
  assert (Hm : main_run env_ok (zs "3") (fun x => x) (path store_ab) (CRemove (zs "1")) saved_ab =
    (Ok tt, snd (fst (main_run env_ok (zs "3") (fun x => x) (path store_ab) (CRemove (zs "1")) saved_ab)),
     snd (main_run env_ok (zs "3") (fun x => x) (path store_ab) (CRemove (zs "1")) saved_ab)))
    by (vm_compute; reflexivity).
  split; [exact Hm|].
  refine (proj2 (main_remove_reopen env_ok env_ok (zs "3") (fun x => x) (path store_ab) (zs "1")
           saved_ab store_ab
           (snd (fst (main_run env_ok (zs "3") (fun x => x) (path store_ab) (CRemove (zs "1")) saved_ab)))
           (snd (main_run env_ok (zs "3") (fun x => x) (path store_ab) (CRemove (zs "1")) saved_ab))
           _ Hm _ _ _)).
  - vm_compute. reflexivity.
  - reflexivity.
  - reflexivity.
  - reflexivity.
Defined.

Lemma main_other_files_witness :
  fs_files (snd (main_run env_ok (zs "3") (fun x => x) (path store_ab) (CAdd (zs "Cy") (zs "c@x") None)
                   (fs_with ["other"] [1; 2]))) !! ["other"] =
    fs_files (fs_with ["other"] [1; 2]) !! ["other"].
Proof.
  apply (main_other_files env_ok (zs "3") (fun x => x) (path store_ab) (CAdd (zs "Cy") (zs "c@x") None)
           (fs_with ["other"] [1; 2])
           (fst (fst (main_run env_ok (zs "3") (fun x => x) (path store_ab)
                        (CAdd (zs "Cy") (zs "c@x") None) (fs_with ["other"] [1; 2]))))
           (snd (fst (main_run env_ok (zs "3") (fun x => x) (path store_ab)
                        (CAdd (zs "Cy") (zs "c@x") None) (fs_with ["other"] [1; 2]))))).
  - vm_compute. reflexivity.
  - vm_compute. discriminate.
Defined.
(** *** The backing-file grammar against the deserializer *)

Lemma json_ws_forallb w : json_ws w -> forallb is_ws w = true.
Proof.
  induction 1 as [|c w Hc Hw IH]; [done|]. cbn. rewrite IH, andb_true_r.
  unfold is_ws, SPACE, TAB, NL, CR in *.
  destruct Hc as [-> | [-> | [-> | ->]]]; reflexivity.
Qed.

Lemma json_ws_app w1 w2 : json_ws w1 -> json_ws w2 -> json_ws (w1 ++ w2).
Proof. intros. by apply Forall_app. Qed.

Lemma json_ws_nil : json_ws [].
Proof. constructor. Qed.

Lemma is_ws_true c : is_ws c = true -> c = SPACE \/ c = TAB \/ c = NL \/ c = CR.
Proof.
  unfold is_ws. intros H. repeat rewrite orb_true_iff in H.
  rewrite !Z.eqb_eq in H. tauto.
Qed.

Lemma ws_parse_app w r :
  json_ws w -> parse_whitespace (w ++ r) = parse_whitespace r.
Proof. intros H. apply parse_whitespace_app, json_ws_forallb, H. Qed.

(** [parse_whitespace] splits off a whitespace prefix. *)
Lemma parse_whitespace_split s :
  exists w, json_ws w /\ s = w ++ parse_whitespace s.
Proof.
  induction s as [|c s IH]; [exists []; split; [constructor|done]|].
  cbn. destruct (is_ws c) eqn:Hc.
  - destruct IH as (w & Hw & Hs). exists (c :: w). split.
    + constructor; [by apply is_ws_true|done].
    + cbn. congruence.
  - exists []. split; [constructor|done].
Qed.

Lemma parse_whitespace_nil_ws s : parse_whitespace s = [] -> json_ws s.
Proof.
  intros H. destruct (parse_whitespace_split s) as (w & Hw & Hs).
  rewrite H, app_nil_r in Hs. by subst.
Qed.

Lemma parse_whitespace_cons s c r :
  parse_whitespace s = c :: r -> is_ws c = false.
Proof.
  induction s as [|d s IH]; cbn; [done|].
  destruct (is_ws d) eqn:Hd; [done|]. by intros [= <- _].
Qed.

Lemma parse_whitespace_not_ws c r :
  is_ws c = false -> parse_whitespace (c :: r) = c :: r.
Proof. cbn. intros ->. done. Qed.

Lemma parse_whitespace_idem s :
  parse_whitespace (parse_whitespace s) = parse_whitespace s.
Proof.
  destruct (parse_whitespace s) as [|c r] eqn:H; [done|].
  apply parse_whitespace_not_ws. by eapply parse_whitespace_cons.
Qed.

Lemma parse_ident_app i r : parse_ident i (i ++ r) = Ok r.
Proof. induction i as [|a i IH]; [done|]. cbn. rewrite Z.eqb_refl. exact IH. Qed.

Lemma parse_ident_ok i s r : parse_ident i s = Ok r -> s = i ++ r.
Proof.
  revert s. induction i as [|a i IH]; intros s H; cbn in H; [by injection H|].
  destruct s as [|c s]; [done|]. destruct (Z.eqb_spec c a); [|done].
  subst. cbn. f_equal. by apply IH.
Qed.

(** Hex digits and code units. *)

Lemma lor_mul_pow2 x y k :
  0 <= k -> 0 <= y < 2 ^ k -> Z.lor (x * 2 ^ k) y = x * 2 ^ k + y.
Proof.
  intros Hk Hy.
  assert (Hl : Z.land (x * 2 ^ k) y = 0).
  { apply Z.bits_inj'. intros n Hn. rewrite Z.land_spec, Z.testbit_0_l.
    destruct (Z.lt_ge_cases n k).
    - rewrite Z.mul_pow2_bits_low by lia. reflexivity.
    - rewrite <- (Z.mod_small y (2 ^ k)) by lia.
      rewrite Z.mod_pow2_bits_high by lia. apply andb_false_r. }
  rewrite <- Z.lxor_lor by done. rewrite <- Z.add_nocarry_lxor by done. reflexivity.
Qed.

Lemma hex_val_digit c v : hex_val c = Some v <-> hex_digit c v.
Proof.
  unfold hex_val, hex_digit. split.
  - repeat case_match; intros; simplify_eq; bool_hyps; lia.
  - intros [[? ->]|[[? ->]|[? ->]]]; zbool; reflexivity.
Qed.

Lemma hex_digit_bound c v : hex_digit c v -> 0 <= v < 16.
Proof. unfold hex_digit. lia. Qed.

Lemma hex4_value x y z w :
  0 <= x < 16 -> 0 <= y < 16 -> 0 <= z < 16 -> 0 <= w < 16 ->
  Z.lor (Z.lor (Z.shiftl x 12) (Z.shiftl y 8)) (Z.lor (Z.shiftl z 4) w) =
  x * 4096 + y * 256 + z * 16 + w.
Proof.
  intros Hx Hy Hz Hw. rewrite !Z.shiftl_mul_pow2 by lia.
  rewrite (lor_mul_pow2 z w 4) by (cbn; lia).
  rewrite (lor_mul_pow2 x (y * 2 ^ 8) 12) by (cbn; lia).
  replace (x * 2 ^ 12 + y * 2 ^ 8) with ((x * 16 + y) * 2 ^ 8) by (cbn; lia).
  rewrite (lor_mul_pow2 (x * 16 + y) (z * 2 ^ 4 + w) 8) by (cbn; lia).
  cbn. lia.
Qed.

Lemma hex4_unit a b c d n : hex4 a b c d = Some n <-> hex_unit [a; b; c; d] n.
Proof.
  unfold hex4, hex_unit. split.
  - destruct (hex_val a) as [x|] eqn:Ha; [|done].
    destruct (hex_val b) as [y|] eqn:Hb; [|done].
    destruct (hex_val c) as [z|] eqn:Hc; [|done].
    destruct (hex_val d) as [w|] eqn:Hd; [|done].
    intros [= <-]. apply hex_val_digit in Ha, Hb, Hc, Hd.
    exists a, b, c, d, x, y, z, w. repeat split; try done.
    apply hex4_value; eapply hex_digit_bound; eassumption.
  - intros (c1 & c2 & c3 & c4 & v1 & v2 & v3 & v4 & [= <- <- <- <-] & H1 & H2 & H3 & H4 & ->).
    pose proof (hex_digit_bound _ _ H1). pose proof (hex_digit_bound _ _ H2).
    pose proof (hex_digit_bound _ _ H3). pose proof (hex_digit_bound _ _ H4).
    apply hex_val_digit in H1, H2, H3, H4. rewrite H1, H2, H3, H4.
    f_equal. by apply hex4_value.
Qed.

Lemma hex_unit_shape h n :
  hex_unit h n -> exists a b c d, h = [a; b; c; d] /\ hex4 a b c d = Some n.
Proof.
  intros Hh. destruct Hh as (c1 & c2 & c3 & c4 & v1 & v2 & v3 & v4 & Heq & Hr).
  exists c1, c2, c3, c4. split; [done|]. apply hex4_unit. subst h.
  exists c1, c2, c3, c4, v1, v2, v3, v4. done.
Qed.

Lemma hex_unit_bound h n : hex_unit h n -> 0 <= n < 65536.
Proof.
  intros (c1 & c2 & c3 & c4 & v1 & v2 & v3 & v4 & _ & H1 & H2 & H3 & H4 & ->).
  apply hex_digit_bound in H1, H2, H3, H4. lia.
Qed.

Lemma simple_escape_pair e ch : simple_escape e = Some ch <-> escape_pair e ch.
Proof.
  unfold simple_escape, escape_pair. unfold QUOTE, BSLASH, SLASH, NL, CR, TAB.
  split.
  - repeat case_match; intros; simplify_eq; bool_hyps; lia.
  - intros H. repeat destruct H as [[-> ->]|H]; [..|destruct H as [-> ->]]; reflexivity.
Qed.

Lemma surrogate_value n n2 :
  0xD800 <= n <= 0xDBFF -> 0xDC00 <= n2 <= 0xDFFF ->
  Z.lor (Z.shiftl (n - 0xD800) 10) (n2 - 0xDC00) + 0x10000 =
  0x10000 + (n - 0xD800) * 1024 + (n2 - 0xDC00).
Proof.
  intros H1 H2. rewrite Z.shiftl_mul_pow2 by lia.
  rewrite lor_mul_pow2 by (cbn; lia). cbn. lia.
Qed.


(** Strings, both ways. *)

Lemma parse_str_body_chars t v r :
  str_chars t v -> parse_str_body (t ++ QUOTE :: r) = Ok (v, r).
Proof.
  induction 1 as [|c t v Hc Hq Hb Ht IH|e ch t v He Ht IH
                  |h n t v Hh Hn Ht IH|h1 n1 h2 n2 t v Hh1 Hn1 Hh2 Hn2 Ht IH].
  - cbn. reflexivity.
  - cbn [app parse_str_body]. unfold QUOTE, BSLASH in *. zbool. rewrite IH. reflexivity.
  - cbn [app parse_str_body]. unfold QUOTE, BSLASH in *. zbool.
    apply simple_escape_pair in He. rewrite He. rewrite IH. reflexivity.
  - apply hex_unit_shape in Hh as (a & b & c & d & -> & Hx).
    pose proof Hx as Hb. apply hex4_unit, hex_unit_bound in Hb.
    cbn [app parse_str_body simple_escape Z.eqb Pos.eqb QUOTE BSLASH SLASH NL CR TAB].
    rewrite Hx.
    destruct (Z.lt_ge_cases n 0xD800); zbool; cbn [andb]; rewrite IH; reflexivity.
  - apply hex_unit_shape in Hh1 as (a & b & c & d & -> & Hx).
    apply hex_unit_shape in Hh2 as (a2 & b2 & c2 & d2 & -> & Hx2).
    cbn [app parse_str_body simple_escape Z.eqb Pos.eqb QUOTE BSLASH SLASH NL CR TAB].
    rewrite Hx. zbool. cbn [andb negb]. rewrite Hx2. zbool.
    cbn [orb]. unfold cons_str. rewrite IH, surrogate_value by lia. reflexivity.
Qed.

Lemma ignore_str_chars t r : any_chars t -> ignore_str (t ++ QUOTE :: r) = Ok r.
Proof.
  induction 1 as [|c t Hc Hq Hb Ht IH|e ch t He Ht IH|h n t Hh Ht IH].
  - cbn. reflexivity.
  - cbn [app ignore_str]. unfold QUOTE, BSLASH in *. zbool. exact IH.
  - cbn [app ignore_str]. unfold QUOTE, BSLASH in *. zbool.
    apply simple_escape_pair in He. rewrite He. exact IH.
  - apply hex_unit_shape in Hh as (a & b & c & d & -> & Hx).
    cbn [app ignore_str simple_escape Z.eqb Pos.eqb QUOTE BSLASH SLASH NL CR TAB].
    rewrite Hx. exact IH.
Qed.


Lemma parse_str_body_sound s v r :
  parse_str_body s = Ok (v, r) -> exists t, s = t ++ QUOTE :: r /\ str_chars t v.
Proof.
  revert v r. induction s as [s IH] using (induction_ltof1 _ (@length Z)).
  unfold ltof in IH. intros v r H. destruct s as [|c s1]; [done|].
  cbn [parse_str_body] in H. unfold cons_str in H.
  destruct (Z.eqb_spec c QUOTE) as [->|Hq].
  { injection H as <- <-. exists []. split; [done|constructor]. }
  destruct (Z.eqb_spec c BSLASH) as [->|Hb].
  - destruct s1 as [|e s2]; [done|].
    destruct (simple_escape e) as [ch|] eqn:He.
    + destruct (parse_str_body s2) as [[v' r']|] eqn:Hp; [|done]. injection H as <- <-.
      destruct (IH s2 ltac:(cbn; lia) _ _ Hp) as (t & -> & Ht).
      exists (BSLASH :: e :: t). split; [done|].
      constructor; [by apply simple_escape_pair|done].
    + destruct (Z.eqb_spec e 117) as [->|]; [|done].
      destruct s2 as [|h1 [|h2 [|h3 [|h4 s3]]]]; try done.
      destruct (hex4 h1 h2 h3 h4) as [n|] eqn:Hx; [|done].
      destruct ((0xDC00 <=? n) && (n <=? 0xDFFF)) eqn:Hlo; [done|].
      destruct ((0xD800 <=? n) && (n <=? 0xDBFF)) eqn:Hhi.
      * destruct s3 as [|b s4]; [done|].
        destruct (Z.eqb_spec b BSLASH) as [->|]; [|done]. cbn [negb] in H.
        destruct s4 as [|u s5]; [done|].
        destruct (Z.eqb_spec u 117) as [->|]; [|done]. cbn [negb] in H.
        destruct s5 as [|g1 [|g2 [|g3 [|g4 s6]]]]; try done.
        destruct (hex4 g1 g2 g3 g4) as [n2|] eqn:Hx2; [|done].
        destruct ((n2 <? 0xDC00) || (0xDFFF <? n2)) eqn:Hr; [done|].
        destruct (parse_str_body s6) as [[v' r']|] eqn:Hp; [|done].
        injection H as <- <-.
        destruct (IH s6 ltac:(cbn; lia) _ _ Hp) as (t & -> & Ht).
        exists (BSLASH :: 117 :: [h1; h2; h3; h4] ++ BSLASH :: 117 :: [g1; g2; g3; g4] ++ t).
        split; [done|]. bool_hyps; try lia.
        rewrite surrogate_value by lia.
        apply (sc_pair [h1; h2; h3; h4] n [g1; g2; g3; g4] n2);
          try (apply hex4_unit; assumption); try lia; done.
      * destruct (parse_str_body s3) as [[v' r']|] eqn:Hp; [|done].
        injection H as <- <-.
        destruct (IH s3 ltac:(cbn; lia) _ _ Hp) as (t & -> & Ht).
        exists (BSLASH :: 117 :: [h1; h2; h3; h4] ++ t). split; [done|].
        apply andb_false_iff in Hlo, Hhi.
        rewrite !Z.leb_gt in Hlo, Hhi.
        apply (sc_unit [h1; h2; h3; h4] n); [by apply hex4_unit| |done].
        apply hex4_unit, hex_unit_bound in Hx. lia.
  - destruct (c <? 32) eqn:Hc; [done|]. apply Z.ltb_ge in Hc.
    destruct (parse_str_body s1) as [[v' r']|] eqn:Hp; [|done]. injection H as <- <-.
    destruct (IH s1 ltac:(cbn; lia) _ _ Hp) as (t & -> & Ht).
    exists (c :: t). split; [done|]. by constructor.
Qed.

Lemma ignore_str_sound s r :
  ignore_str s = Ok r -> exists t, s = t ++ QUOTE :: r /\ any_chars t.
Proof.
  revert r. induction s as [s IH] using (induction_ltof1 _ (@length Z)).
  unfold ltof in IH. intros r H. destruct s as [|c s1]; [done|].
  cbn [ignore_str] in H.
  destruct (Z.eqb_spec c QUOTE) as [->|Hq].
  { injection H as <-. exists []. split; [done|constructor]. }
  destruct (Z.eqb_spec c BSLASH) as [->|Hb].
  - destruct s1 as [|e s2]; [done|].
    destruct (simple_escape e) as [ch|] eqn:He.
    + destruct (IH s2 ltac:(cbn; lia) _ H) as (t & -> & Ht).
      exists (BSLASH :: e :: t). split; [done|].
      econstructor; [by apply simple_escape_pair|done].
    + destruct (Z.eqb_spec e 117) as [->|]; [|done].
      destruct s2 as [|h1 [|h2 [|h3 [|h4 s3]]]]; try done.
      destruct (hex4 h1 h2 h3 h4) as [n|] eqn:Hx; [|done].
      destruct (IH s3 ltac:(cbn; lia) _ H) as (t & -> & Ht).
      exists (BSLASH :: 117 :: [h1; h2; h3; h4] ++ t). split; [done|].
      eapply (ac_unit [h1; h2; h3; h4] n); [by apply hex4_unit|done].
  - destruct (c <? 32) eqn:Hc; [done|]. apply Z.ltb_ge in Hc.
    destruct (IH s1 ltac:(cbn; lia) _ H) as (t & -> & Ht).
    exists (c :: t). split; [done|]. by constructor.
Qed.



(** Numbers, both ways. *)



Lemma json_digit_is_digit c : json_digit c <-> is_digit c = true.
Proof. unfold json_digit, is_digit. rewrite andb_true_iff, !Z.leb_le. done. Qed.

Lemma skip_digits_split s :
  exists ds, Forall json_digit ds /\ s = ds ++ skip_digits s /\ nd_head (skip_digits s).
Proof.
  induction s as [|c s IH]; [exists []; done|]. cbn.
  destruct (is_digit c) eqn:Hc.
  - destruct IH as (ds & Hds & Hs & Hn). exists (c :: ds). split; [|cbn; split; [congruence|done]].
    constructor; [by apply json_digit_is_digit|done].
  - exists []. cbn. rewrite Hc. done.
Qed.

Lemma skip_digits_app ds r :
  Forall json_digit ds -> nd_head r -> skip_digits (ds ++ r) = r.
Proof.
  induction 1 as [|d ds Hd Hds IH]; intros Hr.
  - destruct r as [|c r]; [done|]. cbn. cbn in Hr. by rewrite Hr.
  - cbn. apply json_digit_is_digit in Hd. rewrite Hd. by apply IH.
Qed.

Lemma num_follow_nd r : num_follow r -> nd_head r.
Proof. destruct r; cbn; tauto. Qed.

Lemma exp_mark_not_digit e : e = 101 \/ e = 69 -> is_digit e = false.
Proof. by intros [-> | ->]. Qed.

Lemma ignore_exponent_ok sg ds r :
  (sg = [] \/ sg = [43] \/ sg = [45]) -> ds <> [] -> Forall json_digit ds ->
  nd_head r -> ignore_exponent (sg ++ ds ++ r) = Ok r.
Proof.
  intros Hsg Hne Hds Hr. destruct ds as [|d ds]; [done|].
  inversion Hds as [|? ? Hd Hds']; subst.
  pose proof Hd as Hd'. apply json_digit_is_digit in Hd'.
  unfold ignore_exponent. unfold json_digit in Hd.
  destruct Hsg as [->|[->| ->]]; cbn [app].
  - rewrite (proj2 (Z.eqb_neq d 43)), (proj2 (Z.eqb_neq d 45)) by lia. cbn [orb].
    rewrite Hd'. by rewrite skip_digits_app.
  - cbn. rewrite Hd'. by rewrite skip_digits_app.
  - cbn. rewrite Hd'. by rewrite skip_digits_app.
Qed.

Lemma exp_part_head x r :
  exp_part x -> num_follow r ->
  match x ++ r with
  | [] => True
  | c :: _ => is_digit c = false /\ c <> 46
  end.
Proof.
  intros [->|(e & sg & ds & -> & He & _)] Hr; cbn [app].
  - destruct r as [|c r]; [done|]. cbn in Hr. tauto.
  - split; [by apply exp_mark_not_digit|lia].
Qed.

Lemma frac_exp_nd f x r :
  frac_part f -> exp_part x -> num_follow r -> nd_head (f ++ x ++ r).
Proof.
  intros [->|(ds & -> & _)] Hx Hr; cbn [app]; [|done].
  pose proof (exp_part_head x r Hx Hr) as H. destruct (x ++ r); cbn; tauto.
Qed.

Lemma exp_tail_ok x r :
  exp_part x -> num_follow r ->
  (fun s1 : list Z => match s1 with
   | e :: s2 => if (e =? 101) || (e =? 69) then ignore_exponent s2 else Ok (e :: s2)
   | [] => Ok []
   end) (x ++ r) = Ok r.
Proof.
  intros [->|(e & sg & ds & -> & He & Hsg & Hne & Hds)] Hr; cbn beta; cbn [app].
  - destruct r as [|c r]; [done|]. destruct Hr as (_ & _ & H1 & H2).
    rewrite (proj2 (Z.eqb_neq c 101)), (proj2 (Z.eqb_neq c 69)) by done. done.
  - destruct He as [-> | ->]; cbn [Z.eqb Pos.eqb orb];
      rewrite <- ?app_assoc; apply ignore_exponent_ok; try done; by apply num_follow_nd.
Qed.

Lemma frac_exp_ok f x r :
  frac_part f -> exp_part x -> num_follow r ->
  (fun s1 : list Z => match s1 with
   | d :: s2 =>
     if d =? 46 then ignore_decimal s2
     else if (d =? 101) || (d =? 69) then ignore_exponent s2
     else Ok s1
   | [] => Ok []
   end) (f ++ x ++ r) = Ok r.
Proof.
  intros Hf Hx Hr. cbn beta.
  destruct Hf as [->|(ds & -> & Hne & Hds)]; cbn [app].
  - destruct Hx as [->|(e & sg & ds & -> & He & Hsg & Hne & Hds)]; cbn [app].
    + destruct r as [|c r]; [done|]. destruct Hr as (_ & H1 & H2 & H3).
      rewrite (proj2 (Z.eqb_neq c 46)), (proj2 (Z.eqb_neq c 101)),
              (proj2 (Z.eqb_neq c 69)) by done. done.
    + destruct He as [-> | ->]; cbn [Z.eqb Pos.eqb orb];
        rewrite <- ?app_assoc; apply ignore_exponent_ok; try done; by apply num_follow_nd.
  - cbn [Z.eqb Pos.eqb]. unfold ignore_decimal.
    destruct ds as [|d ds']; [done|].
    inversion Hds as [|? ? Hd _]; subst. apply json_digit_is_digit in Hd.
    cbn [app]. rewrite Hd. change (d :: ds' ++ x ++ r) with ((d :: ds') ++ x ++ r).
    rewrite skip_digits_app.
    + exact (exp_tail_ok x r Hx Hr).
    + done.
    + pose proof (exp_part_head x r Hx Hr) as H. destruct (x ++ r); cbn; tauto.
Qed.

Lemma ignore_integer_ok i f x r :
  int_part i -> frac_part f -> exp_part x -> num_follow r ->
  ignore_integer (i ++ f ++ x ++ r) = Ok r.
Proof.
  intros Hi Hf Hx Hr. pose proof (frac_exp_nd f x r Hf Hx Hr) as Hnd.
  unfold ignore_integer.
  destruct Hi as [->|(c & ds & -> & Hc & Hds)]; cbn [app].
  - rewrite Z.eqb_refl.
    replace (match f ++ x ++ r with
             | d :: _ => if is_digit d then Err InvalidNumber else Ok (f ++ x ++ r)
             | [] => Ok (f ++ x ++ r) end) with (@Ok json_err _ (f ++ x ++ r))
      by (destruct (f ++ x ++ r); cbn in Hnd; [done|by rewrite Hnd]).
    cbn [bind_r]. exact (frac_exp_ok f x r Hf Hx Hr).
  - rewrite (proj2 (Z.eqb_neq c 48)) by lia.
    rewrite (proj2 (Z.leb_le 49 c)), (proj2 (Z.leb_le c 57)) by lia. cbn [andb].
    rewrite skip_digits_app by done. cbn [bind_r].
    exact (frac_exp_ok f x r Hf Hx Hr).
Qed.

Lemma ignore_exponent_sound s r :
  ignore_exponent s = Ok r ->
  exists sg ds, s = sg ++ ds ++ r /\ (sg = [] \/ sg = [43] \/ sg = [45]) /\
    ds <> [] /\ Forall json_digit ds.
Proof.
  unfold ignore_exponent. intros H.
  destruct s as [|c s']; [done|].
  destruct ((c =? 43) || (c =? 45)) eqn:Hs.
  - destruct s' as [|d s2]; [done|]. destruct (is_digit d) eqn:Hd; [|done].
    injection H as <-. destruct (skip_digits_split s2) as (ds & Hds & Hs2 & _).
    exists [c], (d :: ds). split; [cbn; congruence|].
    split; [apply orb_true_iff in Hs as [Hs|Hs]; apply Z.eqb_eq in Hs; subst; auto|].
    split; [done|]. constructor; [by apply json_digit_is_digit|done].
  - destruct (is_digit c) eqn:Hd; [|done].
    injection H as <-. destruct (skip_digits_split s') as (ds & Hds & Hs2 & _).
    exists [], (c :: ds). split; [cbn; congruence|].
    split; [auto|]. split; [done|]. constructor; [by apply json_digit_is_digit|done].
Qed.

Lemma exp_tail_sound s r :
  (fun s1 : list Z => match s1 with
   | e :: s2 => if (e =? 101) || (e =? 69) then ignore_exponent s2 else Ok (e :: s2)
   | [] => Ok []
   end) s = Ok r -> exists x, s = x ++ r /\ exp_part x.
Proof.
  cbn beta. destruct s as [|e s2]; intros H.
  - injection H as <-. exists []. split; [done|by left].
  - destruct ((e =? 101) || (e =? 69)) eqn:He.
    + apply ignore_exponent_sound in H as (sg & ds & -> & Hsg & Hne & Hds).
      exists (e :: sg ++ ds). split; [cbn [app]; by rewrite app_assoc|].
      right. exists e, sg, ds. split; [done|]. split; [|done].
      apply orb_true_iff in He as [He|He]; apply Z.eqb_eq in He; auto.
    + injection H as <-. exists []. split; [done|by left].
Qed.

Lemma ignore_decimal_sound s r :
  ignore_decimal s = Ok r ->
  exists ds x, s = ds ++ x ++ r /\ ds <> [] /\ Forall json_digit ds /\ exp_part x.
Proof.
  unfold ignore_decimal. intros H.
  destruct s as [|c s']; [done|]. destruct (is_digit c) eqn:Hd; [|done].
  destruct (skip_digits_split (c :: s')) as (ds & Hds & Hs & _).
  apply (exp_tail_sound (skip_digits (c :: s'))) in H as (x & Hx & He).
  exists ds, x. split; [by rewrite <- Hx|]. split; [|done].
  intros ->. cbn [app skip_digits] in Hs. rewrite Hd in Hs.
  pose proof (skip_digits_suffix s') as Hsuf. rewrite <- Hs in Hsuf.
  apply suffix_length in Hsuf. cbn in Hsuf. lia.
Qed.

Lemma frac_exp_sound s r :
  (fun s1 : list Z => match s1 with
   | d :: s2 =>
     if d =? 46 then ignore_decimal s2
     else if (d =? 101) || (d =? 69) then ignore_exponent s2
     else Ok s1
   | [] => Ok []
   end) s = Ok r -> exists f x, s = f ++ x ++ r /\ frac_part f /\ exp_part x.
Proof.
  cbn beta. intros H. destruct s as [|d s2].
  - injection H as <-. exists [], []. split; [done|]. split; by left.
  - destruct (Z.eqb_spec d 46) as [->|Hd].
    + apply ignore_decimal_sound in H as (ds & x & -> & Hne & Hds & Hx).
      exists (46 :: ds), x. split; [done|]. split; [|done]. right. eauto.
    + destruct (exp_tail_sound (d :: s2) r) as (x & Hs & Hx).
      { cbn beta. exact H. }
      exists [], x. split; [done|]. split; [by left|done].
Qed.

Lemma ignore_integer_sound s r :
  ignore_integer s = Ok r ->
  exists i f x, s = i ++ f ++ x ++ r /\ int_part i /\ frac_part f /\ exp_part x.
Proof.
  unfold ignore_integer. intros H.
  destruct s as [|c s']; [done|].
  destruct (Z.eqb_spec c 48) as [->|Hc0].
  - assert (Hs : exists s1, s1 = s' /\
       (match s' with
        | d :: _ => if is_digit d then Err InvalidNumber else Ok s'
        | [] => Ok s' end) = Ok s1).
    { destruct s' as [|d s'']; [eauto|]. destruct (is_digit d); [|eauto].
      cbn in H. done. }
    destruct Hs as (s1 & <- & Hs). rewrite Hs in H. cbn [bind_r] in H.
    apply frac_exp_sound in H as (f & x & -> & Hf & Hx).
    exists [48], f, x. split; [done|]. split; [by left|done].
  - destruct ((49 <=? c) && (c <=? 57)) eqn:Hc; [|done]. cbn [bind_r] in H.
    apply frac_exp_sound in H as (f & x & Hs & Hf & Hx).
    destruct (skip_digits_split s') as (ds & Hds & Hs' & _).
    exists (c :: ds), f, x. split; [cbn; rewrite <- Hs; congruence|].
    split; [|done]. right. exists c, ds. bool_hyps. done.
Qed.


(** Values skipped by [ignore_value], both ways. *)

Scheme json_value_ind' := Induction for json_value Sort Prop
with json_elems_ind' := Induction for json_elems Sort Prop
with json_members_ind' := Induction for json_members Sort Prop.
Combined Scheme json_text_ind from json_value_ind', json_elems_ind', json_members_ind'.

Ltac jcmp :=
  cbn [parse_whitespace is_ws
       is_digit bind_r negb andb orb Z.eqb Z.leb Z.ltb Z.compare Pos.eqb
       Pos.compare Pos.compare_cont QUOTE BSLASH LBRACK RBRACK LBRACE RBRACE
       COMMA COLON SPACE TAB NL CR app].

Ltac nrm := repeat progress (rewrite <- ?app_assoc; cbn [app]).

Ltac lenlia :=
  repeat progress (rewrite ?length_app in *; cbn [length] in * ); lia.

Ltac jstep :=
  cbn [ignore_value ignore_array_rest ignore_object_rest parse_whitespace is_ws
       is_digit bind_r negb andb orb Z.eqb Z.leb Z.ltb Z.compare Pos.eqb
       Pos.compare Pos.compare_cont QUOTE BSLASH LBRACK RBRACK LBRACE RBRACE
       COMMA COLON SPACE TAB NL CR app].

Lemma ws_char_cases c :
  c = SPACE \/ c = TAB \/ c = NL \/ c = CR ->
  is_ws c = true /\ is_digit c = false /\ c <> 46 /\ c <> 101 /\ c <> 69 /\
  c <> RBRACK /\ c <> RBRACE /\ c <> COMMA /\ c <> QUOTE.
Proof.
  intros H. repeat destruct H as [-> | H]; subst;
    unfold SPACE, TAB, NL, CR, RBRACK, RBRACE, COMMA, QUOTE; cbn;
    repeat split; discriminate.
Qed.

Lemma num_follow_ws w c r :
  json_ws w -> num_follow (c :: r) -> num_follow (w ++ c :: r).
Proof.
  intros Hw Hc. destruct w as [|d w]; [done|].
  inversion Hw as [|? ? Hd _]; subst. cbn. apply ws_char_cases in Hd. tauto.
Qed.

Lemma num_follow_delim c r :
  c = COMMA \/ c = RBRACK \/ c = RBRACE -> num_follow (c :: r).
Proof.
  intros H. repeat destruct H as [-> | H]; subst; cbn; repeat split; discriminate.
Qed.

Lemma ignore_value_ws f w s :
  json_ws w -> ignore_value (S f) (w ++ s) = ignore_value (S f) s.
Proof. intros Hw. cbn [ignore_value]. by rewrite ws_parse_app. Qed.

(** The first character of a value. *)
Lemma json_value_head v :
  json_value v ->
  exists c v', v = c :: v' /\ is_ws c = false /\ c <> RBRACK /\ c <> RBRACE.
Proof.
  intros Hv. destruct Hv as [t Ht|t Ht|t Ht|w Hw|t Ht|w Hw|t Ht].
  - destruct Ht as [-> | [-> | ->]]; eexists _, _; split; try reflexivity;
      repeat split; discriminate.
  - destruct Ht as (m & i & f & x & -> & Hm & Hi & _ & _).
    destruct Hm as [-> | ->].
    + destruct Hi as [-> | (c & ds & -> & Hc & _)].
      * eexists _, _. split; [reflexivity|]. repeat split; discriminate.
      * eexists _, _. split; [reflexivity|]. unfold is_ws, SPACE, NL, TAB, CR, RBRACK, RBRACE.
        split; [zbool; reflexivity|]. split; lia.
    + eexists _, _. split; [reflexivity|]. repeat split; discriminate.
  - eexists _, _. split; [reflexivity|]. repeat split; discriminate.
  - eexists _, _. split; [reflexivity|]. repeat split; discriminate.
  - eexists _, _. split; [reflexivity|]. repeat split; discriminate.
  - eexists _, _. split; [reflexivity|]. repeat split; discriminate.
  - eexists _, _. split; [reflexivity|]. repeat split; discriminate.
Qed.

Lemma json_elems_head t :
  json_elems t ->
  exists w c t', json_ws w /\ t = w ++ c :: t' /\ is_ws c = false /\ c <> RBRACK.
Proof.
  intros Ht. destruct Ht as [w1 v w2 Hw1 Hv Hw2|w1 v w2 t Hw1 Hv Hw2 Ht];
    destruct (json_value_head v Hv) as (c & v' & -> & Hc & Hb & _);
    exists w1, c; eexists; (split; [done|]); (split; [|done]); by rewrite <- ?app_assoc.
Qed.

Lemma json_members_head t :
  json_members t -> exists w t', json_ws w /\ t = w ++ QUOTE :: t'.
Proof.
  intros Ht. destruct Ht as [w1 k w2 w3 v w4 Hw1|w1 k w2 w3 v w4 t Hw1];
    exists w1; eexists; (split; [exact Hw1|]); by rewrite <- ?app_assoc.
Qed.

Lemma ignore_complete :
  (forall v, json_value v -> forall f r, (length v < f)%nat -> num_follow r ->
     ignore_value f (v ++ r) = Ok r) /\
  (forall t, json_elems t -> forall f r, (S (length t) < f)%nat ->
     ignore_array_rest f (t ++ RBRACK :: r) = Ok r) /\
  (forall t, json_members t -> forall f r, (S (length t) < f)%nat ->
     ignore_object_rest f (t ++ RBRACE :: r) = Ok r).
Proof.
  apply (json_text_ind
    (fun v _ => forall f r, (length v < f)%nat -> num_follow r ->
       ignore_value f (v ++ r) = Ok r)
    (fun t _ => forall f r, (S (length t) < f)%nat ->
       ignore_array_rest f (t ++ RBRACK :: r) = Ok r)
    (fun t _ => forall f r, (S (length t) < f)%nat ->
       ignore_object_rest f (t ++ RBRACE :: r) = Ok r)).
  - (* literals *)
    intros t Ht f r Hf _. destruct f as [|f]; [lia|].
    destruct Ht as [-> | [-> | ->]]; reflexivity.
  - (* numbers *)
    intros t Ht f r Hf Hr. destruct f as [|f]; [lia|].
    destruct Ht as (m & i & fr & x & -> & Hm & Hi & Hfr & Hx).
    rewrite <- !app_assoc. destruct Hm as [-> | ->].
    + destruct Hi as [-> | (c & ds & -> & Hc & Hds)].
      * jstep. exact (ignore_integer_ok [48] fr x r (or_introl eq_refl) Hfr Hx Hr).
      * cbn [ignore_value app]. rewrite parse_whitespace_not_ws
          by (unfold is_ws, SPACE, NL, TAB, CR; zbool; reflexivity).
        unfold is_digit. zbool. cbn [andb].
        apply (ignore_integer_ok (c :: ds)); [|done..]. right. eauto.
    + jstep. by apply ignore_integer_ok.
  - (* strings *)
    intros t Ht f r Hf _. destruct f as [|f]; [lia|].
    cbn [app]. rewrite <- ?app_assoc. jstep. by apply ignore_str_chars.
  - (* empty arrays *)
    intros w Hw f r Hf _. destruct f as [|f]; [lia|].
    cbn [app]. rewrite <- ?app_assoc. jstep. rewrite ws_parse_app by done. reflexivity.
  - (* arrays *)
    intros t Ht IH f r Hf _. destruct f as [|f]; [lia|].
    cbn [app]. rewrite <- ?app_assoc. jstep.
    destruct (json_elems_head t Ht) as (w & c & t' & Hw & -> & Hc & Hb).
    rewrite <- app_assoc, ws_parse_app by done. cbn [app].
    rewrite parse_whitespace_not_ws by done.
    rewrite (proj2 (Z.eqb_neq c RBRACK)) by done.
    rewrite app_comm_cons, app_assoc. apply IH.
    lenlia.
  - (* empty objects *)
    intros w Hw f r Hf _. destruct f as [|f]; [lia|].
    cbn [app]. rewrite <- ?app_assoc. jstep. rewrite ws_parse_app by done. reflexivity.
  - (* objects *)
    intros t Ht IH f r Hf _. destruct f as [|f]; [lia|].
    cbn [app]. rewrite <- ?app_assoc. jstep.
    destruct (json_members_head t Ht) as (w & t' & Hw & ->).
    rewrite <- app_assoc, ws_parse_app by done. cbn [app].
    jstep. rewrite app_comm_cons, app_assoc. apply IH.
    lenlia.
  - (* one element *)
    intros w1 v w2 Hw1 Hv IHv Hw2 f r Hf.
    destruct f as [|f]; [lia|]. cbn [ignore_array_rest].
    destruct (json_value_head v Hv) as (c & v' & Hv' & _).
    destruct f as [|f']; [subst v; lenlia|].
    rewrite <- !app_assoc, ignore_value_ws by done.
    rewrite IHv.
    + cbn [bind_r]. rewrite ws_parse_app by done. reflexivity.
    + lenlia.
    + apply num_follow_ws; [done|]. apply num_follow_delim. auto.
  - (* more elements *)
    intros w1 v w2 t Hw1 Hv IHv Hw2 Ht IHt f r Hf.
    destruct f as [|f]; [lia|]. cbn [ignore_array_rest].
    destruct (json_value_head v Hv) as (c & v' & Hv' & _).
    destruct f as [|f']; [subst v; lenlia|].
    rewrite <- !app_assoc. cbn [app]. rewrite ignore_value_ws by done.
    rewrite IHv.
    + cbn [bind_r]. rewrite ws_parse_app by done. jcmp. apply IHt.
      lenlia.
    + lenlia.
    + apply num_follow_ws; [done|]. apply num_follow_delim. auto.
  - (* one member *)
    intros w1 k w2 w3 v w4 Hw1 Hk Hw2 Hw3 Hv IHv Hw4 f r Hf.
    destruct f as [|f]; [lia|]. cbn [ignore_object_rest].
    nrm. rewrite ws_parse_app by done. jstep. nrm.
    rewrite ignore_str_chars by done. cbn [bind_r].
    rewrite ws_parse_app by done. jstep.
    destruct f as [|f']; [lenlia|].
    rewrite ignore_value_ws by done. rewrite IHv.
    + cbn [bind_r]. rewrite ws_parse_app by done. reflexivity.
    + lenlia.
    + apply num_follow_ws; [done|]. apply num_follow_delim. auto.
  - (* more members *)
    intros w1 k w2 w3 v w4 t Hw1 Hk Hw2 Hw3 Hv IHv Hw4 Ht IHt f r Hf.
    destruct f as [|f]; [lia|]. cbn [ignore_object_rest].
    nrm. rewrite ws_parse_app by done. jstep. nrm.
    rewrite ignore_str_chars by done. cbn [bind_r].
    rewrite ws_parse_app by done. jstep.
    destruct f as [|f']; [lenlia|].
    rewrite ignore_value_ws by done. rewrite IHv.
    + cbn [bind_r]. rewrite ws_parse_app by done. jcmp. apply IHt.
      lenlia.
    + lenlia.
    + apply num_follow_ws; [done|]. apply num_follow_delim. auto.
Qed.


Lemma ws_split_cons s c s1 :
  parse_whitespace s = c :: s1 -> exists w, json_ws w /\ s = w ++ c :: s1.
Proof.
  intros H. destruct (parse_whitespace_split s) as (w & Hw & Hs).
  rewrite H in Hs. eauto.
Qed.

Lemma ignore_sound f :
  (forall s r, ignore_value f s = Ok r ->
     exists w v, s = w ++ v ++ r /\ json_ws w /\ json_value v) /\
  (forall s r, ignore_array_rest f s = Ok r ->
     exists t, s = t ++ RBRACK :: r /\ json_elems t) /\
  (forall s r, ignore_object_rest f s = Ok r ->
     exists t, s = t ++ RBRACE :: r /\ json_members t).
Proof.
  induction f as [|f IH]; [repeat split; intros; discriminate|].
  destruct IH as (IHv & IHa & IHo). split; [|split].
  - intros s r H. cbn [ignore_value] in H.
    destruct (parse_whitespace s) as [|c s1] eqn:Hp; [done|].
    destruct (ws_split_cons _ _ _ Hp) as (w & Hw & ->). exists w.
    destruct (Z.eqb_spec c 110) as [->|H110].
    { apply parse_ident_ok in H as ->. exists (zs "null"). split; [reflexivity|].
      split; [done|]. apply jv_literal. by left. }
    destruct (Z.eqb_spec c 116) as [->|H116].
    { apply parse_ident_ok in H as ->. exists (zs "true"). split; [reflexivity|].
      split; [done|]. apply jv_literal. by right; left. }
    destruct (Z.eqb_spec c 102) as [->|H102].
    { apply parse_ident_ok in H as ->. exists (zs "false"). split; [reflexivity|].
      split; [done|]. apply jv_literal. by right; right. }
    destruct (Z.eqb_spec c 45) as [->|H45].
    { apply ignore_integer_sound in H as (i & fr & x & -> & Hi & Hfr & Hx).
      exists (45 :: i ++ fr ++ x). split; [nrm; reflexivity|].
      split; [done|]. apply jv_number. exists [45], i, fr, x. auto. }
    destruct (is_digit c) eqn:Hd.
    { apply ignore_integer_sound in H as (i & fr & x & Hs & Hi & Hfr & Hx).
      exists (i ++ fr ++ x). split; [rewrite Hs; nrm; reflexivity|].
      split; [done|]. apply jv_number. exists [], i, fr, x. auto. }
    destruct (Z.eqb_spec c QUOTE) as [->|Hq].
    { apply ignore_str_sound in H as (t & -> & Ht).
      exists (QUOTE :: t ++ [QUOTE]). split; [nrm; reflexivity|].
      split; [done|]. by apply jv_string. }
    destruct (Z.eqb_spec c LBRACK) as [->|Hlb].
    { destruct (parse_whitespace s1) as [|d s2] eqn:Hp1; [done|].
      destruct (ws_split_cons _ _ _ Hp1) as (w' & Hw' & ->).
      destruct (Z.eqb_spec d RBRACK) as [->|Hrb].
      - injection H as <-. exists (LBRACK :: w' ++ [RBRACK]).
        split; [nrm; reflexivity|]. split; [done|]. by apply jv_empty_array.
      - apply IHa in H as (t & Ht & Hel). rewrite Ht.
        exists (LBRACK :: t ++ [RBRACK]). split; [nrm; reflexivity|].
        split; [done|]. by apply jv_array. }
    destruct (Z.eqb_spec c LBRACE) as [->|Hlc]; [|done].
    destruct (parse_whitespace s1) as [|d s2] eqn:Hp1; [done|].
    destruct (ws_split_cons _ _ _ Hp1) as (w' & Hw' & ->).
    destruct (Z.eqb_spec d RBRACE) as [->|Hrb].
    + injection H as <-. exists (LBRACE :: w' ++ [RBRACE]).
      split; [nrm; reflexivity|]. split; [done|]. by apply jv_empty_object.
    + apply IHo in H as (t & Ht & Hm). rewrite Ht.
      exists (LBRACE :: t ++ [RBRACE]). split; [nrm; reflexivity|].
      split; [done|]. by apply jv_object.
  - intros s r H. cbn [ignore_array_rest] in H.
    destruct (ignore_value f s) as [s1|] eqn:Hv; [|done]. cbn [bind_r] in H.
    apply IHv in Hv as (w1 & v & -> & Hw1 & Hv).
    destruct (parse_whitespace s1) as [|d s2] eqn:Hp1; [done|].
    destruct (ws_split_cons _ _ _ Hp1) as (w2 & Hw2 & ->).
    destruct (Z.eqb_spec d COMMA) as [->|Hc].
    + apply IHa in H as (t & -> & Ht).
      exists (w1 ++ v ++ w2 ++ COMMA :: t). split; [nrm; reflexivity|].
      by apply je_cons.
    + destruct (Z.eqb_spec d RBRACK) as [->|Hb]; [|done]. injection H as <-.
      exists (w1 ++ v ++ w2). split; [nrm; reflexivity|].
      by apply je_one.
  - intros s r H. cbn [ignore_object_rest] in H.
    destruct (parse_whitespace s) as [|k s1] eqn:Hp; [done|].
    destruct (ws_split_cons _ _ _ Hp) as (w1 & Hw1 & ->).
    destruct (Z.eqb_spec k QUOTE) as [->|Hk]; [|done]. cbn [negb] in H.
    destruct (ignore_str s1) as [s2|] eqn:Hs; [|done]. cbn [bind_r] in H.
    apply ignore_str_sound in Hs as (kt & -> & Hkt).
    destruct (parse_whitespace s2) as [|col s3] eqn:Hp2; [done|].
    destruct (ws_split_cons _ _ _ Hp2) as (w2 & Hw2 & ->).
    destruct (Z.eqb_spec col COLON) as [->|Hcol]; [|done]. cbn [negb] in H.
    destruct (ignore_value f s3) as [s4|] eqn:Hv; [|done]. cbn [bind_r] in H.
    apply IHv in Hv as (w3 & v & -> & Hw3 & Hv).
    destruct (parse_whitespace s4) as [|d s5] eqn:Hp4; [done|].
    destruct (ws_split_cons _ _ _ Hp4) as (w4 & Hw4 & ->).
    destruct (Z.eqb_spec d COMMA) as [->|Hc].
    + apply IHo in H as (t & -> & Ht).
      exists (w1 ++ QUOTE :: kt ++ QUOTE :: w2 ++ COLON :: w3 ++ v ++ w4 ++ COMMA :: t).
      split; [nrm; reflexivity|]. by apply jm_cons.
    + destruct (Z.eqb_spec d RBRACE) as [->|Hb]; [|done]. injection H as <-.
      exists (w1 ++ QUOTE :: kt ++ QUOTE :: w2 ++ COLON :: w3 ++ v ++ w4).
      split; [nrm; reflexivity|]. by apply jm_one.
Qed.


(** Records, from the text to the deserializer's result. *)

Lemma jval_text_head t v :
  jval_text t v ->
  exists c t', t = c :: t' /\ is_ws c = false /\ c <> RBRACK /\ c <> RBRACE.
Proof.
  intros [(ct & s & -> & _ & _)|[-> _]]; eexists _, _; (split; [reflexivity|]);
    repeat split; discriminate.
Qed.

Lemma rec_text_head t c :
  rec_text t c ->
  exists d t', t = d :: t' /\ is_ws d = false /\ d <> RBRACK /\ d <> RBRACE.
Proof.
  intros []; eexists _, _; (split; [reflexivity|]); repeat split; discriminate.
Qed.

Lemma deserialize_string_text w t s r :
  json_ws w -> jval_text t (JStr s) -> deserialize_string (w ++ t ++ r) = Ok (s, r).
Proof.
  intros Hw [(ct & s' & -> & Hct & [= <-])|[_ Hv]]; [|discriminate].
  unfold deserialize_string. rewrite ws_parse_app by done. nrm.
  jcmp. by apply parse_str_body_chars.
Qed.

Lemma deserialize_option_string_text w t v r :
  json_ws w -> jval_text t v ->
  deserialize_option_string (w ++ t ++ r) = Ok (phone_of v, r).
Proof.
  intros Hw Ht. pose proof Ht as Ht'.
  destruct Ht as [(ct & s & -> & Hct & ->)|[-> ->]].
  - unfold deserialize_option_string. rewrite (deserialize_string_text w _ s r Hw Ht').
    rewrite ws_parse_app by done. reflexivity.
  - unfold deserialize_option_string. rewrite ws_parse_app by done. reflexivity.
Qed.

Lemma parse_object_colon_ws w s :
  json_ws w -> parse_object_colon (w ++ COLON :: s) = Ok s.
Proof. intros Hw. unfold parse_object_colon. by rewrite ws_parse_app. Qed.

Lemma visit_field_value_field acc k v w2 w3 vt r :
  record_key k -> field_ok (k, v) -> jval_text vt v ->
  slot_free acc (visit_field k) -> json_ws w2 -> json_ws w3 ->
  visit_field_value (visit_field k) acc (w2 ++ COLON :: w3 ++ vt ++ r) =
    Ok (add_field acc (k, v), r).
Proof.
  intros Hk Hf Hv Hfree Hw2 Hw3. unfold add_field. unfold field_ok in Hf.
  cbn [fst snd] in Hf |- *.
  destruct Hk as [-> | [-> | [-> | ->]]].
  - rewrite visit_field_id in *. cbn [visit_field_value slot_free] in *.
    rewrite Hfree, parse_object_colon_ws by done. cbn [bind_r].
    destruct Hf as [[_ [s ->]]|Hf]; [|discriminate].
    rewrite (deserialize_string_text w3 vt s) by done. reflexivity.
  - rewrite visit_field_name in *. cbn [visit_field_value slot_free] in *.
    rewrite Hfree, parse_object_colon_ws by done. cbn [bind_r].
    destruct Hf as [[_ [s ->]]|Hf]; [|discriminate].
    rewrite (deserialize_string_text w3 vt s) by done. reflexivity.
  - rewrite visit_field_email in *. cbn [visit_field_value slot_free] in *.
    rewrite Hfree, parse_object_colon_ws by done. cbn [bind_r].
    destruct Hf as [[_ [s ->]]|Hf]; [|discriminate].
    rewrite (deserialize_string_text w3 vt s) by done. reflexivity.
  - rewrite visit_field_phone in *. cbn [visit_field_value slot_free] in *.
    rewrite Hfree, parse_object_colon_ws by done. cbn [bind_r].
    rewrite (deserialize_option_string_text w3 vt v) by done. reflexivity.
Qed.

Lemma visit_field_ignore k : ~ record_key k -> visit_field k = F_ignore.
Proof.
  intros Hk. destruct (visit_field_cases k) as [[-> _]|[[-> _]|[[-> _]|[[-> _]|(_ & _ & _ & _ & ->)]]]];
    try done; exfalso; apply Hk; unfold record_key; tauto.
Qed.

Lemma visit_field_value_other acc k w2 w3 vt r :
  ~ record_key k -> json_value vt -> json_ws w2 -> json_ws w3 -> num_follow r ->
  visit_field_value (visit_field k) acc (w2 ++ COLON :: w3 ++ vt ++ r) = Ok (acc, r).
Proof.
  intros Hk Hv Hw2 Hw3 Hr. rewrite visit_field_ignore by done.
  cbn [visit_field_value]. rewrite parse_object_colon_ws by done. cbn [bind_r].
  rewrite ignore_value_ws by done.
  rewrite (proj1 ignore_complete vt Hv); [reflexivity| |done].
  rewrite !length_app. lia.
Qed.

Lemma visit_map_ws fuel first acc w s :
  json_ws w -> visit_map fuel first acc (w ++ s) = visit_map fuel first acc s.
Proof. intros Hw. destruct fuel; [done|]. cbn [visit_map]. by rewrite ws_parse_app. Qed.


Lemma visit_map_member mt o1 fuel first acc p c rest :
  rec_member mt o1 -> sep_before first p -> (c = COMMA \/ c = RBRACE) ->
  Forall field_ok o1 -> Forall (fun kv => slot_free acc (visit_field (fst kv))) o1 ->
  visit_map (S fuel) first acc (p ++ mt ++ c :: rest) =
    visit_map fuel false (fill acc o1) (c :: rest).
Proof.
  intros Hm Hp Hc Hok Hfree.
  assert (Hkey : forall w1 kt X, json_ws w1 ->
    visit_map (S fuel) first acc (p ++ (w1 ++ QUOTE :: kt ++ QUOTE :: X)) =
      (let? (k, s4) := parse_str_body (kt ++ QUOTE :: X) in
       let? (acc', s6) := visit_field_value (visit_field k) acc s4 in
       visit_map fuel false acc' s6)).
  { intros w1 kt X Hw1. destruct first; cbn in Hp.
    - subst p. cbn [app visit_map]. rewrite ws_parse_app by done. reflexivity.
    - destruct Hp as (w & Hw & ->). rewrite <- app_assoc. cbn [app visit_map].
      rewrite ws_parse_app by done. jcmp. rewrite ws_parse_app by done. reflexivity. }
  inversion Hm as [w1 kt k w2 w3 vt v w4 Hw1 Hkt Hk Hw2 Hw3 Hvt Hw4 Heq Ho
                  |w1 kt k w2 w3 vt w4 Hw1 Hkt Hk Hw2 Hw3 Hvt Hw4 Heq Ho]; subst.
  - nrm. rewrite (Hkey w1 kt) by done.
    rewrite (parse_str_body_chars kt k) by done. cbn [bind_r].
    rewrite (visit_field_value_field acc k v); try done.
    + cbn [bind_r]. rewrite visit_map_ws by done. reflexivity.
    + by inversion Hok.
    + by inversion Hfree.
  - nrm. rewrite (Hkey w1 kt) by done.
    rewrite (parse_str_body_chars kt k) by done. cbn [bind_r].
    rewrite visit_field_value_other; try done.
    + cbn [bind_r]. rewrite visit_map_ws by done. reflexivity.
    + apply num_follow_ws; [done|]. apply num_follow_delim. tauto.
Qed.

Lemma rec_member_shape mt o :
  rec_member mt o -> (3 <= length mt)%nat /\
    (o = [] \/ exists k v, o = [(k, v)]).
Proof.
  intros Hm. inversion Hm; subst; (split; [lenlia|]); eauto.
Qed.

Lemma fill_app acc o o' : fill acc (o ++ o') = fill (fill acc o) o'.
Proof. unfold fill. apply fold_left_app. Qed.

Lemma visit_map_members t o :
  rec_members t o ->
  forall fuel first acc p r,
  sep_before first p -> NoDup (map fst o) -> Forall field_ok o ->
  Forall (fun kv => slot_free acc (visit_field (fst kv))) o ->
  (length t < fuel)%nat ->
  visit_map fuel first acc (p ++ t ++ RBRACE :: r) = Ok (fill acc o, RBRACE :: r).
Proof.
  induction 1 as [mt o Hm|mt o t' o' Hm Ht' IH];
    intros fuel first acc p r Hp Hnd Hok Hfree Hfuel;
    destruct (rec_member_shape mt o Hm) as [Hlen Ho];
    (destruct fuel as [|fuel]; [lia|]).
  - rewrite visit_map_member with (o1 := o); try done; [|tauto].
    destruct fuel as [|fuel]; [lia|]. cbn. reflexivity.
  - rewrite map_app in Hnd. apply NoDup_app in Hnd as (Hnd1 & Hdisj & Hnd2).
    apply Forall_app in Hok as [Hok1 Hok2]. apply Forall_app in Hfree as [Hf1 Hf2].
    rewrite <- app_assoc. cbn [app].
    rewrite visit_map_member with (o1 := o); try done; [|tauto].
    rewrite fill_app.
    apply (IH fuel false (fill acc o) [COMMA]); try done.
    + cbn. exists []. split; [constructor|done].
    + apply Forall_forall. intros [k' v'] Hin.
      rewrite Forall_forall in Hf2. specialize (Hf2 (k', v') Hin). cbn [fst] in *.
      destruct Ho as [->|(k & v & ->)]; [done|].
      unfold fill. cbn [fold_left]. apply slot_free_add; [|done].
      intros Heq. apply (Hdisj k); [by left|]. rewrite Heq.
      apply list_elem_of_In. change k' with (fst (k', v')). apply in_map.
      first [exact Hin | by apply list_elem_of_In].
    + rewrite length_app in Hfuel. cbn [length] in Hfuel. lia.
Qed.

Lemma end_map_rbrace r : end_map (RBRACE :: r) = Ok r.
Proof. reflexivity. Qed.


Lemma jval_text_val_head t v : jval_text t v -> val_head t.
Proof.
  intros Ht. destruct (jval_text_head t v Ht) as (c & t' & -> & Hc & Hb & _).
  exists c, t'. done.
Qed.

Lemma rec_text_val_head t c : rec_text t c -> val_head t.
Proof.
  intros Ht. destruct (rec_text_head t c Ht) as (d & t' & -> & Hd & Hb & _).
  exists d, t'. done.
Qed.

Lemma has_next_true first p t rest :
  sep_before first p -> val_head t ->
  forall w, json_ws w ->
  has_next_element first (p ++ w ++ t ++ rest) = Ok (true, t ++ rest).
Proof.
  intros Hp (c & t' & -> & Hc & Hb) w Hw. unfold has_next_element.
  destruct first; cbn in Hp.
  - subst p. cbn [app]. rewrite ws_parse_app by done. cbn [app].
    rewrite parse_whitespace_not_ws by done.
    rewrite (proj2 (Z.eqb_neq c RBRACK)) by done. cbn [negb].
    rewrite andb_false_r. cbn [bind_r].
    rewrite (proj2 (Z.eqb_neq c RBRACK)) by done. reflexivity.
  - destruct Hp as (w0 & Hw0 & ->). rewrite <- app_assoc. cbn [app].
    rewrite ws_parse_app by done. jcmp. cbn [bind_r].
    rewrite ws_parse_app by done. cbn [app].
    rewrite parse_whitespace_not_ws by done.
    rewrite (proj2 (Z.eqb_neq c RBRACK)) by done. reflexivity.
Qed.

Lemma has_next_first w t rest :
  json_ws w -> val_head t -> has_next_element true (w ++ t ++ rest) = Ok (true, t ++ rest).
Proof. intros Hw Ht. exact (has_next_true true [] t rest eq_refl Ht w Hw). Qed.

Lemma has_next_more w w' t rest :
  json_ws w -> json_ws w' -> val_head t ->
  has_next_element false (w ++ COMMA :: w' ++ t ++ rest) = Ok (true, t ++ rest).
Proof.
  intros Hw Hw' Ht.
  pose proof (has_next_true false (w ++ [COMMA]) t rest (ex_intro _ w (conj Hw eq_refl)) Ht w' Hw') as H.
  rewrite <- app_assoc in H. exact H.
Qed.

Lemma has_next_false first w r :
  json_ws w -> has_next_element first (w ++ RBRACK :: r) = Ok (false, RBRACK :: r).
Proof. intros Hw. unfold has_next_element. by rewrite ws_parse_app. Qed.

Lemma end_seq_ws w r : json_ws w -> end_seq (w ++ RBRACK :: r) = Ok r.
Proof. intros Hw. unfold end_seq. by rewrite ws_parse_app. Qed.

Lemma deserialize_string_text0 t s r :
  jval_text t (JStr s) -> deserialize_string (t ++ r) = Ok (s, r).
Proof. intros Ht. exact (deserialize_string_text [] t s r json_ws_nil Ht). Qed.

Lemma deserialize_option_string_text0 t v r :
  jval_text t v -> deserialize_option_string (t ++ r) = Ok (phone_of v, r).
Proof. intros Ht. exact (deserialize_option_string_text [] t v r json_ws_nil Ht). Qed.

Lemma deserialize_contact_text w t c r :
  json_ws w -> rec_text t c -> deserialize_contact (w ++ t ++ r) = Ok (c, r).
Proof.
  intros Hw Ht. unfold deserialize_contact. rewrite ws_parse_app by done.
  destruct Ht as [t o c Hm [Hnd Hok] Hc
                 |w1 t1 i w2 w3 t2 n w4 w5 t3 e w6 w7 t4 p w8
                  Hw1 Ht1 Hw2 Hw3 Ht2 Hw4 Hw5 Ht3 Hw6 Hw7 Ht4 Hw8].
  - nrm. jcmp.
    pose proof (visit_map_members t o Hm (S (length (t ++ RBRACE :: r)))
                  true no_slots [] r eq_refl Hnd Hok) as Hvm.
    cbn [app] in Hvm. rewrite Hvm.
    + cbn [bind_r]. rewrite (finish_map_fill o c) by done. reflexivity.
    + apply Forall_forall. intros [k v] _. cbn [fst]. by destruct (visit_field k).
    + lenlia.
  - nrm. jcmp. unfold visit_seq_contact.
    rewrite (has_next_first w1 t1) by (done || by eapply jval_text_val_head).
    cbn [bind_r negb]. rewrite (deserialize_string_text0 t1 i) by done. cbn [bind_r].
    rewrite (has_next_more w2 w3 t2) by (done || by eapply jval_text_val_head).
    cbn [bind_r negb]. rewrite (deserialize_string_text0 t2 n) by done. cbn [bind_r].
    rewrite (has_next_more w4 w5 t3) by (done || by eapply jval_text_val_head).
    cbn [bind_r negb]. rewrite (deserialize_string_text0 t3 e) by done. cbn [bind_r].
    rewrite (has_next_more w6 w7 t4) by (done || by eapply jval_text_val_head).
    cbn [bind_r negb]. rewrite (deserialize_option_string_text0 t4 p) by done. cbn [bind_r].
    rewrite end_seq_ws by done. reflexivity.
Qed.

Lemma deserialize_contact_text0 t c r :
  rec_text t c -> deserialize_contact (t ++ r) = Ok (c, r).
Proof. intros Ht. exact (deserialize_contact_text [] t c r json_ws_nil Ht). Qed.

Lemma visit_seq_vec_recs body cs :
  recs_text body cs ->
  forall fuel first p R, sep_before first p -> (length body < fuel)%nat ->
  visit_seq_vec fuel first (p ++ body ++ RBRACK :: R) = Ok (cs, RBRACK :: R).
Proof.
  induction 1 as [w1 r c w2 Hw1 Hr Hw2|w1 r c w2 t cs Hw1 Hr Hw2 Ht IH];
    intros fuel first p R Hp Hf; (destruct fuel as [|fuel]; [lia|]);
    pose proof (rec_text_val_head r c Hr) as Hh;
    destruct (rec_text_head r c Hr) as (d & r' & Hr' & _).
  - cbn [visit_seq_vec]. nrm.
    rewrite (has_next_true first p r) by done. cbn [bind_r].
    rewrite (deserialize_contact_text0 r c) by done. cbn [bind_r].
    destruct fuel as [|fuel]; [subst r; lenlia|].
    cbn [visit_seq_vec]. rewrite has_next_false by done. reflexivity.
  - cbn [visit_seq_vec]. nrm.
    rewrite (has_next_true first p r) by done. cbn [bind_r].
    rewrite (deserialize_contact_text0 r c) by done. cbn [bind_r].
    replace (w2 ++ COMMA :: t ++ RBRACK :: R) with ((w2 ++ [COMMA]) ++ t ++ RBRACK :: R)
      by (by nrm).
    rewrite (IH fuel false (w2 ++ [COMMA])); [reflexivity| |].
    + cbn. exists w2. done.
    + subst r. lenlia.
Qed.

Lemma end_seq_rbrack r : end_seq (RBRACK :: r) = Ok r.
Proof. reflexivity. Qed.

Lemma parse_whitespace_ws_nil w : json_ws w -> parse_whitespace w = [].
Proof. intros Hw. rewrite <- (app_nil_r w). by rewrite ws_parse_app. Qed.

Lemma from_str_contacts_text t cs : contacts_text t cs -> from_str t = Ok cs.
Proof.
  intros (w0 & body & w1 & -> & Hw0 & Hw1 & Hb).
  unfold from_str, deserialize_vec. rewrite ws_parse_app by done. jcmp.
  destruct Hb as [[Hb ->]|Hb].
  - cbn [visit_seq_vec]. rewrite has_next_false by done. cbn [bind_r].
    rewrite end_seq_rbrack. cbn [bind_r].
    rewrite parse_whitespace_ws_nil by done. reflexivity.
  - pose proof (visit_seq_vec_recs body cs Hb (S (length (body ++ RBRACK :: w1)))
                  true [] w1 eq_refl) as Hv.
    cbn [app] in Hv. rewrite Hv; [|lenlia].
    cbn [bind_r]. rewrite end_seq_rbrack. cbn [bind_r].
    rewrite parse_whitespace_ws_nil by done. reflexivity.
Qed.


(** Records, from the deserializer's result back to the text. *)

Lemma deserialize_string_sound s x r :
  deserialize_string s = Ok (x, r) ->
  exists w t, s = w ++ t ++ r /\ json_ws w /\ jval_text t (JStr x).
Proof.
  unfold deserialize_string. intros H.
  destruct (parse_whitespace s) as [|c s1] eqn:Hp; [done|].
  destruct (ws_split_cons _ _ _ Hp) as (w & Hw & ->).
  destruct (Z.eqb_spec c QUOTE) as [->|Hq]; [|done].
  apply parse_str_body_sound in H as (ct & -> & Hct).
  exists w, (QUOTE :: ct ++ [QUOTE]). split; [nrm; reflexivity|]. split; [done|].
  left. eauto.
Qed.

Lemma deserialize_option_string_sound s p r :
  deserialize_option_string s = Ok (p, r) ->
  exists w t v, s = w ++ t ++ r /\ json_ws w /\ jval_text t v /\ p = phone_of v.
Proof.
  unfold deserialize_option_string. intros H.
  destruct (parse_whitespace s) as [|c s1] eqn:Hp; [done|].
  destruct (Z.eqb_spec c 110) as [->|Hn].
  - destruct (parse_ident (zs "ull") s1) as [r'|] eqn:Hi; [|done].
    cbn [bind_r] in H. injection H as <- <-.
    apply parse_ident_ok in Hi as ->.
    destruct (ws_split_cons _ _ _ Hp) as (w & Hw & ->).
    exists w, (zs "null"), JNull. split; [reflexivity|]. split; [done|].
    split; [by right|done].
  - destruct (deserialize_string s) as [[x r']|] eqn:Hd; [|done].
    cbn [bind_r] in H. injection H as <- <-.
    apply deserialize_string_sound in Hd as (w & t & -> & Hw & Ht).
    exists w, t, (JStr x). done.
Qed.

Lemma parse_object_colon_sound s s1 :
  parse_object_colon s = Ok s1 -> exists w, json_ws w /\ s = w ++ COLON :: s1.
Proof.
  unfold parse_object_colon. intros H.
  destruct (parse_whitespace s) as [|c s2] eqn:Hp; [done|].
  destruct (Z.eqb_spec c COLON) as [->|]; [|done]. injection H as <-.
  by apply ws_split_cons.
Qed.

Lemma field_ok_record_key k v : field_ok (k, v) -> record_key k.
Proof. unfold field_ok, record_key. cbn. intros [[H _]|H]; tauto. Qed.

Lemma visit_field_value_sound k acc s acc' r :
  visit_field_value (visit_field k) acc s = Ok (acc', r) ->
  exists w2 w3 vt, s = w2 ++ COLON :: w3 ++ vt ++ r /\ json_ws w2 /\ json_ws w3 /\
    ((exists v, jval_text vt v /\ field_ok (k, v) /\ slot_free acc (visit_field k) /\
        acc' = add_field acc (k, v)) \/
     (~ record_key k /\ json_value vt /\ acc' = acc)).
Proof.
  intros H.
  destruct (visit_field_cases k) as [[-> Hf]|[[-> Hf]|[[-> Hf]|[[-> Hf]|(H1 & H2 & H3 & H4 & Hf)]]]];
    rewrite Hf in H |- *; cbn [visit_field_value] in H.
  - destruct (sl_id acc) eqn:Hs; [done|].
    destruct (parse_object_colon s) as [s1|] eqn:Hc; [|done]. cbn [bind_r] in H.
    apply parse_object_colon_sound in Hc as (w2 & Hw2 & ->).
    destruct (deserialize_string s1) as [[x r']|] eqn:Hd; [|done].
    cbn [bind_r] in H. injection H as <- <-.
    apply deserialize_string_sound in Hd as (w3 & vt & -> & Hw3 & Hvt).
    exists w2, w3, vt. do 3 (split; [done|]). left. exists (JStr x).
    split; [done|]. split; [left; split; [by left|eauto]|]. split; [done|].
    unfold add_field. cbn [fst snd]. by rewrite visit_field_id.
  - destruct (sl_name acc) eqn:Hs; [done|].
    destruct (parse_object_colon s) as [s1|] eqn:Hc; [|done]. cbn [bind_r] in H.
    apply parse_object_colon_sound in Hc as (w2 & Hw2 & ->).
    destruct (deserialize_string s1) as [[x r']|] eqn:Hd; [|done].
    cbn [bind_r] in H. injection H as <- <-.
    apply deserialize_string_sound in Hd as (w3 & vt & -> & Hw3 & Hvt).
    exists w2, w3, vt. do 3 (split; [done|]). left. exists (JStr x).
    split; [done|]. split; [left; split; [by right; left|eauto]|]. split; [done|].
    unfold add_field. cbn [fst snd]. by rewrite visit_field_name.
  - destruct (sl_email acc) eqn:Hs; [done|].
    destruct (parse_object_colon s) as [s1|] eqn:Hc; [|done]. cbn [bind_r] in H.
    apply parse_object_colon_sound in Hc as (w2 & Hw2 & ->).
    destruct (deserialize_string s1) as [[x r']|] eqn:Hd; [|done].
    cbn [bind_r] in H. injection H as <- <-.
    apply deserialize_string_sound in Hd as (w3 & vt & -> & Hw3 & Hvt).
    exists w2, w3, vt. do 3 (split; [done|]). left. exists (JStr x).
    split; [done|]. split; [left; split; [by right; right|eauto]|]. split; [done|].
    unfold add_field. cbn [fst snd]. by rewrite visit_field_email.
  - destruct (sl_phone acc) eqn:Hs; [done|].
    destruct (parse_object_colon s) as [s1|] eqn:Hc; [|done]. cbn [bind_r] in H.
    apply parse_object_colon_sound in Hc as (w2 & Hw2 & ->).
    destruct (deserialize_option_string s1) as [[x r']|] eqn:Hd; [|done].
    cbn [bind_r] in H. injection H as <- <-.
    apply deserialize_option_string_sound in Hd as (w3 & vt & v & -> & Hw3 & Hvt & ->).
    exists w2, w3, vt. do 3 (split; [done|]). left. exists v.
    split; [done|]. split; [by right|]. split; [done|].
    unfold add_field. cbn [fst snd]. by rewrite visit_field_phone.
  - destruct (parse_object_colon s) as [s1|] eqn:Hc; [|done]. cbn [bind_r] in H.
    apply parse_object_colon_sound in Hc as (w2 & Hw2 & ->).
    destruct (ignore_value (S (length s1)) s1) as [r'|] eqn:Hi; [|done].
    cbn [bind_r] in H. injection H as <- <-.
    apply (proj1 (ignore_sound _)) in Hi as (w3 & vt & -> & Hw3 & Hvt).
    exists w2, w3, vt. do 3 (split; [done|]). right.
    split; [|done]. unfold record_key. tauto.
Qed.

Lemma slot_taken acc k v :
  field_ok (k, v) -> ~ slot_free (add_field acc (k, v)) (visit_field k).
Proof.
  unfold field_ok, add_field. cbn [fst snd]. intros Hf.
  destruct (visit_field_cases k) as [[-> Hk]|[[-> Hk]|[[-> Hk]|[[-> Hk]|(H1 & H2 & H3 & H4 & Hk)]]]];
    rewrite Hk; cbn.
  - destruct Hf as [[_ [s ->]]|Hf]; [done|discriminate].
  - destruct Hf as [[_ [s ->]]|Hf]; [done|discriminate].
  - destruct Hf as [[_ [s ->]]|Hf]; [done|discriminate].
  - done.
  - exfalso. destruct Hf as [[Hf _]|Hf]; tauto.
Qed.

Lemma slot_free_add_inv acc kv f :
  slot_free (add_field acc kv) f -> slot_free acc f \/ f = visit_field (fst kv).
Proof.
  unfold add_field. destruct (visit_field (fst kv)) eqn:Hk; destruct f; cbn; auto.
Qed.

Lemma visit_map_sound fuel first acc s acc' s' :
  visit_map fuel first acc s = Ok (acc', s') ->
  exists r, s' = RBRACE :: r /\
   ((exists w, json_ws w /\ s = w ++ s' /\ acc' = acc) \/
    (exists p t o, sep_before first p /\ s = p ++ t ++ s' /\ rec_members t o /\
       acc' = fill acc o /\ NoDup (map fst o) /\ Forall field_ok o /\
       Forall (fun kv => slot_free acc (visit_field (fst kv))) o)).
Proof.
  revert first acc s. induction fuel as [|fuel IH]; intros first acc s H; [done|].
  cbn [visit_map] in H.
  destruct (parse_whitespace s) as [|c s1] eqn:Hp; [done|].
  destruct (ws_split_cons _ _ _ Hp) as (w & Hw & ->).
  destruct (Z.eqb_spec c RBRACE) as [->|Hrb].
  { injection H as <- <-. eexists. split; [reflexivity|]. left. eauto. }
  (* the separator and the whitespace before the key *)
  assert (Hsep : forall s2, (if (c =? COMMA) && negb first then Ok (parse_whitespace s1)
                  else if first then Ok (c :: s1) else Err ExpectedObjectCommaOrEnd) = Ok s2 ->
           exists p w1, sep_before first p /\ json_ws w1 /\ w ++ c :: s1 = p ++ w1 ++ s2).
  { intros s2 Hs2. destruct first.
    - rewrite andb_false_r in Hs2. injection Hs2 as <-. exists [], w. done.
    - destruct (Z.eqb_spec c COMMA) as [->|]; [|done]. cbn in Hs2. injection Hs2 as <-.
      destruct (parse_whitespace_split s1) as (w1 & Hw1 & Hs1).
      exists (w ++ [COMMA]), w1. split; [cbn; eauto|]. split; [done|].
      rewrite Hs1 at 1. by nrm. }
  destruct ((if (c =? COMMA) && negb first then Ok (parse_whitespace s1)
             else if first then Ok (c :: s1) else Err ExpectedObjectCommaOrEnd))
    as [s2|] eqn:Hs2; [|done].
  cbn [bind_r] in H.
  destruct (Hsep s2 eq_refl) as (p & w1 & Hp' & Hw1 & Heq). rewrite Heq. clear Hsep Heq.
  destruct s2 as [|d s3]; [done|].
  destruct (Z.eqb_spec d QUOTE) as [->|Hq]; [|destruct (d =? RBRACE); done].
  destruct (parse_str_body s3) as [[k s4]|] eqn:Hk; [|done]. cbn [bind_r] in H.
  apply parse_str_body_sound in Hk as (kt & -> & Hkt).
  destruct (visit_field_value (visit_field k) acc s4) as [[acc1 s6]|] eqn:Hv; [|done].
  cbn [bind_r] in H.
  apply visit_field_value_sound in Hv as (w2 & w3 & vt & -> & Hw2 & Hw3 & Hv).
  apply IH in H as (r & -> & Hrest). exists r. split; [done|]. right.
  (* the member just read, and what it adds *)
  assert (Hm : forall w4, json_ws w4 -> exists o1,
      rec_member (w1 ++ QUOTE :: kt ++ QUOTE :: w2 ++ COLON :: w3 ++ vt ++ w4) o1 /\
      acc1 = fill acc o1 /\ Forall field_ok o1 /\
      Forall (fun kv => slot_free acc (visit_field (fst kv))) o1 /\
      (forall kv, kv ∈ o1 -> fst kv = k /\ field_ok kv)).
  { intros w4 Hw4. destruct Hv as [(v & Hvt & Hok & Hfree & ->)|(Hnk & Hvt & ->)].
    - exists [(k, v)]. split; [apply rm_field; try done; by eapply field_ok_record_key|].
      split; [done|]. split; [by apply Forall_singleton|]. split; [by apply Forall_singleton|].
      intros kv ->%list_elem_of_singleton. done.
    - exists []. split; [by eapply rm_other|]. split; [done|].
      split; [done|]. split; [done|]. intros kv Hin. by apply not_elem_of_nil in Hin. }
  destruct Hrest as [(w4 & Hw4 & -> & ->)|(p2 & t2 & o2 & Hp2 & -> & Ht2 & -> & Hnd2 & Hok2 & Hfree2)].
  - destruct (Hm w4 Hw4) as (o1 & Hm1 & -> & Hok1 & Hfree1 & _).
    exists p, (w1 ++ QUOTE :: kt ++ QUOTE :: w2 ++ COLON :: w3 ++ vt ++ w4), o1.
    split; [done|]. split; [nrm; reflexivity|]. split; [by apply rms_one|].
    split; [done|]. split; [|done].
    apply rec_member_shape in Hm1 as [_ [-> | (k' & v' & ->)]]; [constructor|].
    cbn. constructor; [set_solver|constructor].
  - cbn in Hp2. destruct Hp2 as (w4 & Hw4 & ->).
    destruct (Hm w4 Hw4) as (o1 & Hm1 & -> & Hok1 & Hfree1 & Hkv).
    exists p, ((w1 ++ QUOTE :: kt ++ QUOTE :: w2 ++ COLON :: w3 ++ vt ++ w4) ++ COMMA :: t2),
      (o1 ++ o2).
    split; [done|]. split; [nrm; reflexivity|]. split; [by apply rms_cons|].
    split; [by rewrite fill_app|].
    (* keys of [o2] are free after [o1], so they differ from [o1]'s key *)
    assert (Hdiff : forall kv1 kv2, kv1 ∈ o1 -> kv2 ∈ o2 -> fst kv1 <> fst kv2).
    { intros [k1 v1] [k2 v2] Hin1 Hin2 Heq. cbn [fst] in Heq. subst k2.
      destruct (Hkv _ Hin1) as [Hk1 Hok]. cbn [fst] in Hk1. subst k1.
      rewrite Forall_forall in Hfree2. specialize (Hfree2 (k, v2) Hin2). cbn [fst] in Hfree2.
      apply rec_member_shape in Hm1 as [_ [-> | (k' & v' & ->)]];
        [by apply not_elem_of_nil in Hin1|].
      apply list_elem_of_singleton in Hin1. injection Hin1 as <- <-.
      unfold fill in Hfree2. cbn [fold_left] in Hfree2.
      by apply (slot_taken acc k v1). }
    split.
    + rewrite map_app. apply NoDup_app. split.
      { apply rec_member_shape in Hm1 as [_ [-> | (k' & v' & ->)]]; [constructor|].
        cbn. constructor; [set_solver|constructor]. }
      split; [|done].
      intros x Hx1 Hx2. apply list_elem_of_In, in_map_iff in Hx1 as ([k1 v1] & <- & Hin1).
      apply list_elem_of_In, in_map_iff in Hx2 as ([k2 v2] & Heq & Hin2).
      apply list_elem_of_In in Hin1, Hin2.
      exact (Hdiff _ _ Hin1 Hin2 (eq_sym Heq)).
    + split; [by apply Forall_app|].
      apply Forall_app. split; [done|].
      apply Forall_forall. intros [k2 v2] Hin2.
      rewrite Forall_forall in Hfree2. specialize (Hfree2 _ Hin2). cbn [fst] in *.
      apply rec_member_shape in Hm1 as [_ [Ho1 | (k' & v' & Ho1)]]; subst o1; [done|].
      unfold fill in Hfree2. cbn [fold_left] in Hfree2.
      destruct (slot_free_add_inv acc (k', v') (visit_field k2) Hfree2) as [?|Hvf]; [done|].
      exfalso. cbn [fst] in Hvf.
      destruct (Hkv (k', v')) as [Hk' Hok']; [by left|]. cbn [fst] in Hk'. subst k'.
      apply (slot_taken acc k v' Hok'). rewrite <- Hvf. done.
Qed.

Lemma finish_map_sound o c :
  NoDup (map fst o) -> finish_map (fill no_slots o) = Ok c -> obj_record o = Some c.
Proof.
  intros Hnd Hf. destruct (fill_slots no_slots o Hnd) as (Hi & Hn & He & Hp).
  unfold finish_map in Hf. rewrite Hi, Hn, He, Hp in Hf. unfold obj_record.
  destruct (lookup_key (zs "id") o) as [[]|]; try discriminate;
  destruct (lookup_key (zs "name") o) as [[]|]; try discriminate;
  destruct (lookup_key (zs "email") o) as [[]|]; try discriminate.
  destruct (lookup_key (zs "phone") o); cbn in Hf |- *; injection Hf as <-; reflexivity.
Qed.

Lemma has_next_element_sound first s b s1 :
  has_next_element first s = Ok (b, s1) ->
  (b = false /\ exists w r, json_ws w /\ s = w ++ s1 /\ s1 = RBRACK :: r) \/
  (b = true /\ exists p w, sep_before first p /\ json_ws w /\ s = p ++ w ++ s1).
Proof.
  unfold has_next_element. intros H.
  destruct (parse_whitespace s) as [|c s2] eqn:Hp; [done|].
  destruct (ws_split_cons _ _ _ Hp) as (w & Hw & ->).
  destruct (Z.eqb_spec c RBRACK) as [->|Hrb].
  { injection H as <- <-. left. split; [done|]. eauto. }
  right.
  destruct first.
  - rewrite andb_false_r in H. cbn [bind_r] in H.
    destruct (Z.eqb_spec c RBRACK); [done|]. injection H as <- <-.
    split; [done|]. exists [], w. done.
  - destruct (Z.eqb_spec c COMMA) as [->|]; [|done]. cbn [andb negb bind_r] in H.
    destruct (parse_whitespace s2) as [|d s3] eqn:Hs3; [done|].
    destruct (d =? RBRACK); [done|]. injection H as <- <-.
    destruct (parse_whitespace_split s2) as (w1 & Hw1 & Hs2).
    split; [done|]. exists (w ++ [COMMA]), w1. split; [cbn; eauto|]. split; [done|].
    rewrite Hs2 at 1. rewrite Hs3. by nrm.
Qed.

Lemma end_seq_sound s r : end_seq s = Ok r -> exists w, json_ws w /\ s = w ++ RBRACK :: r.
Proof.
  unfold end_seq. intros H.
  destruct (parse_whitespace s) as [|c s1] eqn:Hp; [done|].
  destruct (Z.eqb_spec c RBRACK) as [->|]; [|destruct (c =? COMMA);
    [destruct (parse_whitespace s1) as [|d ?]; [|destruct (d =? RBRACK)]|]; done].
  injection H as <-. by apply ws_split_cons.
Qed.

Lemma end_map_sound s r : end_map s = Ok r -> exists w, json_ws w /\ s = w ++ RBRACE :: r.
Proof.
  unfold end_map. intros H.
  destruct (parse_whitespace s) as [|c s1] eqn:Hp; [done|].
  destruct (Z.eqb_spec c RBRACE) as [->|]; [|destruct (c =? COMMA); done].
  injection H as <-. by apply ws_split_cons.
Qed.

Lemma deserialize_contact_sound s c r :
  deserialize_contact s = Ok (c, r) ->
  exists w t, json_ws w /\ s = w ++ t ++ r /\ rec_text t c.
Proof.
  unfold deserialize_contact. intros H.
  destruct (parse_whitespace s) as [|c0 s1] eqn:Hp; [done|].
  destruct (ws_split_cons _ _ _ Hp) as (w & Hw & ->). clear Hp.
  destruct (Z.eqb_spec c0 LBRACK) as [->|Hlb].
  - destruct (visit_seq_contact s1) as [[ct s2]|] eqn:Hv; [|done]. cbn [bind_r] in H.
    destruct (end_seq s2) as [s3|] eqn:He; [|done]. cbn [bind_r] in H.
    injection H as <- <-.
    apply end_seq_sound in He as (w8 & Hw8 & ->).
    unfold visit_seq_contact in Hv.
    destruct (has_next_element true s1) as [[b0 s0]|] eqn:H0; [|done].
    cbn [bind_r] in Hv. destruct b0; [|done]. cbn [negb] in Hv.
    apply has_next_element_sound in H0 as [[? _]|[_ (p0 & w1 & Hp0 & Hw1 & ->)]];
      [done|]. cbn in Hp0. subst p0.
    destruct (deserialize_string s0) as [[i q1]|] eqn:Hd1; [|done]. cbn [bind_r] in Hv.
    apply deserialize_string_sound in Hd1 as (wa & t1 & -> & Hwa & Ht1).
    destruct (has_next_element false q1) as [[b1 q1']|] eqn:H1; [|done].
    cbn [bind_r] in Hv. destruct b1; [|done]. cbn [negb] in Hv.
    apply has_next_element_sound in H1 as [[? _]|[_ (p1 & w3 & Hp1 & Hw3 & ->)]];
      [done|]. cbn in Hp1. destruct Hp1 as (w2 & Hw2 & ->).
    destruct (deserialize_string q1') as [[n q2]|] eqn:Hd2; [|done]. cbn [bind_r] in Hv.
    apply deserialize_string_sound in Hd2 as (wb & t2 & -> & Hwb & Ht2).
    destruct (has_next_element false q2) as [[b2 q2']|] eqn:H2; [|done].
    cbn [bind_r] in Hv. destruct b2; [|done]. cbn [negb] in Hv.
    apply has_next_element_sound in H2 as [[? _]|[_ (p2 & w5 & Hp2 & Hw5 & ->)]];
      [done|]. cbn in Hp2. destruct Hp2 as (w4 & Hw4 & ->).
    destruct (deserialize_string q2') as [[e q3]|] eqn:Hd3; [|done]. cbn [bind_r] in Hv.
    apply deserialize_string_sound in Hd3 as (wc & t3 & -> & Hwc & Ht3).
    destruct (has_next_element false q3) as [[b3 q3']|] eqn:H3; [|done].
    cbn [bind_r] in Hv. destruct b3; [|done]. cbn [negb] in Hv.
    apply has_next_element_sound in H3 as [[? _]|[_ (p3 & w7 & Hp3 & Hw7 & ->)]];
      [done|]. cbn in Hp3. destruct Hp3 as (w6 & Hw6 & ->).
    destruct (deserialize_option_string q3') as [[ph q4]|] eqn:Hd4; [|done].
    cbn [bind_r] in Hv. injection Hv as <- ->.
    apply deserialize_option_string_sound in Hd4 as (wd & t4 & v & -> & Hwd & Ht4 & ->).
    exists w, (LBRACK :: (w1 ++ wa) ++ t1 ++ w2 ++ COMMA :: (w3 ++ wb) ++ t2 ++ w4 ++
      COMMA :: (w5 ++ wc) ++ t3 ++ w6 ++ COMMA :: (w7 ++ wd) ++ t4 ++ w8 ++ [RBRACK]).
    split; [done|]. split; [nrm; reflexivity|].
    apply rt_array; try done; by apply json_ws_app.
  - destruct (Z.eqb_spec c0 LBRACE) as [->|]; [|done].
    destruct (visit_map (S (length s1)) true no_slots s1) as [[acc s2]|] eqn:Hv; [|done].
    cbn [bind_r] in H.
    destruct (finish_map acc) as [ct|] eqn:Hf; [|done]. cbn [bind_r] in H.
    destruct (end_map s2) as [s3|] eqn:He; [|done]. cbn [bind_r] in H.
    injection H as <- <-.
    apply visit_map_sound in Hv
      as (r0 & -> & [(w' & _ & _ & ->)|(p & t & o & Hp & -> & Ht & -> & Hnd & Hok & _)]).
    + discriminate Hf.
    + rewrite end_map_rbrace in He. injection He as <-. cbn in Hp. subst p.
      exists w, (LBRACE :: t ++ [RBRACE]). split; [done|]. split; [nrm; reflexivity|].
      eapply rt_object; [done|split; done|by apply finish_map_sound].
Qed.

Lemma visit_seq_vec_sound fuel first s cs s' :
  visit_seq_vec fuel first s = Ok (cs, s') ->
  exists r, s' = RBRACK :: r /\
    ((cs = [] /\ exists w, json_ws w /\ s = w ++ s') \/
     (exists p body, sep_before first p /\ s = p ++ body ++ s' /\ recs_text body cs)).
Proof.
  revert first s cs s'. induction fuel as [|fuel IH]; intros first s cs s' H; [done|].
  cbn [visit_seq_vec] in H.
  destruct (has_next_element first s) as [[more s1]|] eqn:Hh; [|done]. cbn [bind_r] in H.
  apply has_next_element_sound in Hh
    as [[-> (w & r & Hw & -> & ->)]|[-> (p & w & Hp & Hw & ->)]].
  - injection H as <- <-. exists r. split; [done|]. left. eauto.
  - destruct (deserialize_contact s1) as [[c s2]|] eqn:Hd; [|done]. cbn [bind_r] in H.
    destruct (visit_seq_vec fuel false s2) as [[cs' s3]|] eqn:Hv; [|done].
    cbn [bind_r] in H. injection H as <- <-.
    apply deserialize_contact_sound in Hd as (w' & rt & Hw' & -> & Hrt).
    apply IH in Hv as (r & -> & [[-> (w2 & Hw2 & ->)]|(p2 & body & Hp2 & -> & Hb)]).
    + exists r. split; [done|]. right. exists p, ((w ++ w') ++ rt ++ w2).
      split; [done|]. split; [nrm; reflexivity|].
      apply rs_one; [by apply json_ws_app|done|done].
    + cbn in Hp2. destruct Hp2 as (w2 & Hw2 & ->).
      exists r. split; [done|]. right. exists p, ((w ++ w') ++ rt ++ w2 ++ COMMA :: body).
      split; [done|]. split; [nrm; reflexivity|].
      apply rs_cons; [by apply json_ws_app|done|done|done].
Qed.

Lemma from_str_sound t cs : from_str t = Ok cs -> contacts_text t cs.
Proof.
  unfold from_str. intros H.
  destruct (deserialize_vec t) as [[cs' r]|] eqn:Hd; [|done]. cbn [bind_r] in H.
  destruct (parse_whitespace r) eqn:Hr; [|done]. injection H as <-.
  apply parse_whitespace_nil_ws in Hr.
  unfold deserialize_vec in Hd.
  destruct (parse_whitespace t) as [|c s1] eqn:Hp; [done|].
  destruct (ws_split_cons _ _ _ Hp) as (w0 & Hw0 & ->). clear Hp.
  destruct (Z.eqb_spec c LBRACK) as [->|]; [|done].
  destruct (visit_seq_vec (S (length s1)) true s1) as [[cs s2]|] eqn:Hv; [|done].
  cbn [bind_r] in Hd. destruct (end_seq s2) as [s3|] eqn:He; [|done].
  cbn [bind_r] in Hd. injection Hd as <- <-.
  apply visit_seq_vec_sound in Hv
    as (r0 & -> & [[-> (w & Hw & ->)]|(p & body & Hp & -> & Hb)]);
    rewrite end_seq_rbrack in He; injection He as ->.
  - exists w0, w, s3. do 3 (split; [done|]). by left.
  - cbn in Hp. subst p. exists w0, body, s3. split; [done|]. split; [done|]. split; [done|].
    by right.
Qed.

Lemma from_str_iff t cs : from_str t = Ok cs <-> contacts_text t cs.
Proof. split; [apply from_str_sound|apply from_str_contacts_text]. Qed.


(** *** Opening a backing file, in general *)

(** C6 (as amended): when the file exists and can be opened, locked and
    read, [open] fails with a read error if its bytes are not UTF-8;
    otherwise it returns the records [cs] exactly when the text is a JSON
    array of records ([contacts_text]: objects with the fields of [Contact]
    at most once each and any other keys, or arrays of the four fields, with
    any whitespace and escapes), and on any other text it fails with the
    parser's own error, never with an empty collection. *)
Theorem Store_open_existing (e : env) (p : Path) (s : fs) (f : file) :
  fails e OpOpenRead = false -> fails e OpLockShared = false ->
  fails e OpRead = false ->
  fs_files s !! p = Some f ->
  match from_utf8 (f_data f) with
  | None => fst (Store_open e p s) = Err (EIo OpRead)
  | Some t =>
    (forall cs, fst (Store_open e p s) = Ok (mkStore cs p) <-> contacts_text t cs) /\
    ((~ exists cs, contacts_text t cs) ->
     exists j, fst (Store_open e p s) = Err (EParse j) /\ from_str t = Err j)
  end.
Proof.
  intros H1 H2 H3 Hf. pose proof (Store_open_read e p s f H1 H2 H3 Hf) as Ho.
  destruct (from_utf8 (f_data f)) as [t|]; [|exact Ho].
  rewrite Ho. split.
  - intros cs. rewrite <- from_str_iff.
    destruct (from_str t) as [cs'|j]; split; intros H; try discriminate.
    + injection H as <-. reflexivity.
    + injection H as ->. reflexivity.
  - intros Hn. destruct (from_str t) as [cs'|j] eqn:Hs.
    + exfalso. apply Hn. exists cs'. by apply from_str_sound.
    + by exists j.
Qed.

Lemma Store_open_existing_witness :
  fst (Store_open env_ok (path store_ab) (fs_with (path store_ab) (to_utf8 nameless_text))) =
    Err (EParse (MissingField (zs "name"))).
Proof.
  assert (Hf : fs_files (fs_with (path store_ab) (to_utf8 nameless_text)) !! path store_ab =
               Some (mkFile (to_utf8 nameless_text) 384 true)) by (vm_compute; reflexivity).
  pose proof (Store_open_existing env_ok (path store_ab) _ _ eq_refl eq_refl eq_refl Hf) as H.
  assert (Hu : from_utf8 (f_data (mkFile (to_utf8 nameless_text) 384 true)) =
               Some nameless_text) by (vm_compute; reflexivity).
  rewrite Hu in H. destruct H as [_ H].
  assert (Hs : from_str nameless_text = Err (MissingField (zs "name")))
    by (vm_compute; reflexivity).
  assert (Hn : ~ exists cs, contacts_text nameless_text cs).
  { intros (cs & Hcs). apply from_str_contacts_text in Hcs. rewrite Hs in Hcs.
    discriminate. }
  destruct (H Hn) as (j & Ho & Hj). rewrite Hs in Hj. injection Hj as <-. exact Ho.
Defined.

(** C10: [open] validates nothing.  Whenever the file's text is a JSON
    array of records ([contacts_text], with any whitespace, escapes and
    extra keys), [open] returns exactly the records the text describes:
    the strings verbatim (empty, untrimmed or of any length), a [phone]
    that is absent or [null] as no phone. *)
Theorem Store_open_unvalidated (e : env) (p : Path) (s : fs) (f : file)
    (t : list Z) (cs : list Contact) :
  fails e OpOpenRead = false -> fails e OpLockShared = false ->
  fails e OpRead = false ->
  fs_files s !! p = Some f -> from_utf8 (f_data f) = Some t ->
  contacts_text t cs ->
  fst (Store_open e p s) = Ok (mkStore cs p).
Proof.
  intros H1 H2 H3 Hf Hu Ht.
  rewrite (Store_open_read e p s f H1 H2 H3 Hf), Hu.
  by rewrite (from_str_contacts_text t cs Ht).
Qed.

Lemma Store_open_unvalidated_witness :
  name loose_record = [] /\
  fst (Store_open env_ok (path store_ab) (fs_with (path store_ab) (to_utf8 loose_text))) =
    Ok (mkStore [loose_record] (path store_ab)).
Proof.
  split; [reflexivity|].
  apply (Store_open_unvalidated env_ok (path store_ab) _
           (mkFile (to_utf8 loose_text) 384 true) loose_text [loose_record]).
  - reflexivity.
  - reflexivity.
  - reflexivity.
  - vm_compute. reflexivity.
  - vm_compute. reflexivity.
  - apply (from_str_sound loose_text [loose_record]). vm_compute. reflexivity.
Defined.
